(** * CacheRefine: LRU, LRU-K, LFU, LFU-Avg, ARC and the hash-sharded wrappers

  A shallow embedding of the header-only cache library (namespace
  [CacheMgr]).  Every class becomes a record, every member function a
  function on that record.  Nodes live in a store indexed by addresses;
  a [std::shared_ptr] is an optional address, and dereferencing a null
  pointer (undefined behaviour in C++) makes the operation return [None].
  Mutexes are not modelled: every operation is taken as atomic. *)

From stdpp Require Import gmap strings list fin_maps.

Local Open Scope Z_scope.

(** ** Machine integers and pointers *)

(** [size_t] is a 64-bit unsigned integer; [to_size_t] is the conversion
  of an integer to it, which is also the wrap-around of its arithmetic. *)
Definition to_size_t (z : Z) : Z := z `mod` 2 ^ 64.

Definition INT8_MAX : Z := 127.

(** [size() >= n] where [size()] is a [size_t] and [n] an [int]: the
  [int] is converted to [size_t] before the comparison. *)
Definition size_ge_int (sz : nat) (n : Z) : bool :=
bool_decide (to_size_t n ≤ Z.of_nat sz).

(** Value-initialisation, [T()] or [T x{}]. *)
Class DefaultConstructible (A : Type) := value_init : A.
Global Instance Z_default : DefaultConstructible Z := 0.
Global Instance string_default : DefaultConstructible string := EmptyString.

(** Default-initialisation, [T x;].  An object of class type is default
  constructed, as by [T x{}]; a scalar is left with an indeterminate
  value, which it is undefined to read.  [default_initialised] tells
  whether [T x;] initialises the object. *)
Class DefaultInitialised (A : Type) := default_initialised : bool.
Global Instance Z_default_initialised : DefaultInitialised Z := false.
Global Instance string_default_initialised : DefaultInitialised string := true.

Definition ptr := nat.
Abbreviation NodePtr := (option ptr).

(** The order in which the entries of a [std::unordered_map] are visited
  is the container's own, and the language leaves it open.  It is a
  parameter of the model: an enumeration of the entries of the map, each
  of them once. *)
Class UnorderedMapOrder (K A : Type) `{Countable K} := {
iteration_order : gmap K A → list (K * A);
iteration_order_perm m : iteration_order m ≡ₚ map_to_list m
}.

(** One such order: the enumeration of the finite map. *)
Definition enumeration_order {K A : Type} `{Countable K} : UnorderedMapOrder K A :=
{| iteration_order := map_to_list;
   iteration_order_perm m := reflexivity (map_to_list m) |}.

(** What a call of the value-returning [get(key)] produces: a value, or a
  thrown [std::runtime_error] with its message. *)
Inductive outcome (A : Type) :=
| Returned (a : A)
| Thrown (what : string).
Arguments Returned {A} a.
Arguments Thrown {A} what.

(** ** CacheLRU.h *)

Module LRU.
Section LRU.
Context {Key Value : Type} `{Countable Key}.
Context `{DefaultConstructible Key} `{DefaultConstructible Value}.

Record LRUNode := mkNode {
  key_ : Key;
  val_ : Value;
  count_ : Z;
  prev_ : NodePtr;
  next_ : NodePtr
}.

(** [heap] holds the nodes that the shared pointers of the cache refer
    to.  The two sentinels are assigned once, by [initializeList]. *)
Record LRUCache := mkCache {
  capacity_ : Z;
  nodeMap_ : gmap Key ptr;
  dummyHead_ : ptr;
  dummyTail_ : ptr;
  heap : gmap ptr LRUNode
}.

Definition with_heap (h : gmap ptr LRUNode) (c : LRUCache) : LRUCache :=
  mkCache (capacity_ c) (nodeMap_ c) (dummyHead_ c) (dummyTail_ c) h.
Definition with_map (m : gmap Key ptr) (c : LRUCache) : LRUCache :=
  mkCache (capacity_ c) m (dummyHead_ c) (dummyTail_ c) (heap c).

(** [*p], [p->next_ = v], [p->prev_ = v], [p->setValue(v)]. *)
Definition rd (c : LRUCache) (p : NodePtr) : option LRUNode :=
  q ← p; heap c !! q.
Definition wr_next (p v : NodePtr) (c : LRUCache) : option LRUCache :=
  q ← p; n ← heap c !! q;
  Some (with_heap (<[q := mkNode (key_ n) (val_ n) (count_ n) (prev_ n) v]> (heap c)) c).
Definition wr_prev (p v : NodePtr) (c : LRUCache) : option LRUCache :=
  q ← p; n ← heap c !! q;
  Some (with_heap (<[q := mkNode (key_ n) (val_ n) (count_ n) v (next_ n)]> (heap c)) c).
Definition setValue (p : NodePtr) (v : Value) (c : LRUCache) : option LRUCache :=
  q ← p; n ← heap c !! q;
  Some (with_heap (<[q := mkNode (key_ n) v (count_ n) (prev_ n) (next_ n)]> (heap c)) c).

(** [std::make_shared<LRUNodeType>(key, val)]: a fresh address. *)
Definition make_shared (key : Key) (val : Value) (c : LRUCache) : ptr * LRUCache :=
  let p := fresh (dom (heap c)) in
  (p, with_heap (<[p := mkNode key val 1 None None]> (heap c)) c).

Definition initializeList (c : LRUCache) : option LRUCache :=
  let '(hd, c) := make_shared value_init value_init c in
  let '(tl, c) := make_shared value_init value_init c in
  let c := mkCache (capacity_ c) (nodeMap_ c) hd tl (heap c) in
  c ← wr_next (Some hd) (Some tl) c;
  wr_prev (Some tl) (Some hd) c.

(** [LRUCache(int capacity)] *)
Definition new (capacity : Z) : option LRUCache :=
  initializeList (mkCache capacity ∅ 0%nat 0%nat ∅).

Definition removeNode (node : NodePtr) (c : LRUCache) : option LRUCache :=
  n ← rd c node;
  match prev_ n, next_ n with
  | Some prev, Some _ =>
      c ← wr_next (Some prev) (next_ n) c;
      n ← rd c node;
      c ← wr_prev (next_ n) (Some prev) c;
      wr_next node None c
  | _, _ => Some c
  end.

Definition insertNode (node : NodePtr) (c : LRUCache) : option LRUCache :=
  c ← wr_next node (Some (dummyTail_ c)) c;
  t ← rd c (Some (dummyTail_ c));
  c ← wr_prev node (prev_ t) c;
  t ← rd c (Some (dummyTail_ c));
  c ← wr_next (prev_ t) node c;
  wr_prev (Some (dummyTail_ c)) node c.

Definition moveToMostRecent (node : NodePtr) (c : LRUCache) : option LRUCache :=
  c ← removeNode node c;
  insertNode node c.

Definition updateExistingNode (node : NodePtr) (val : Value) (c : LRUCache)
  : option LRUCache :=
  c ← setValue node val c;
  moveToMostRecent node c.

Definition evictLeastRecent (c : LRUCache) : option LRUCache :=
  h ← rd c (Some (dummyHead_ c));
  let leastRecent := next_ h in
  c ← removeNode leastRecent c;
  n ← rd c leastRecent;
  Some (with_map (delete (key_ n) (nodeMap_ c)) c).

Definition addNode (key : Key) (val : Value) (c : LRUCache) : option LRUCache :=
  c ← (if size_ge_int (size (nodeMap_ c)) (capacity_ c)
       then evictLeastRecent c else Some c);
  let '(node, c) := make_shared key val c in
  c ← insertNode (Some node) c;
  Some (with_map (<[key := node]> (nodeMap_ c)) c).

Definition put (key : Key) (val : Value) (c : LRUCache) : option LRUCache :=
  if bool_decide (0 >= capacity_ c) then Some c
  else match nodeMap_ c !! key with
       | Some node => updateExistingNode (Some node) val c
       | None => addNode key val c
       end.

(** [bool get(const Key&, Value& val)]: the out-parameter is passed in
    and handed back with the result. *)
Definition get (key : Key) (val : Value) (c : LRUCache)
  : option (bool * Value * LRUCache) :=
  match nodeMap_ c !! key with
  | Some node =>
      c ← moveToMostRecent (Some node) c;
      n ← rd c (Some node);
      Some (true, val_ n, c)
  | None => Some (false, val, c)
  end.

(** [Value get(const Key&)] *)
Definition get1 (key : Key) (c : LRUCache) : option (Value * LRUCache) :=
  '(_, val, c) ← get key value_init c;
  Some (val, c).

Definition remove (key : Key) (c : LRUCache) : option LRUCache :=
  match nodeMap_ c !! key with
  | Some node =>
      c ← removeNode (Some node) c;
      Some (with_map (delete key (nodeMap_ c)) c)
  | None => Some c
  end.

End LRU.
Arguments LRUNode : clear implicits.
Arguments LRUCache Key Value {_ _}.
End LRU.

(** ** CacheLRUK.h *)

Module LRUK.
Section LRUK.
Context {Key Value : Type} `{Countable Key}.
Context `{DefaultConstructible Key} `{DefaultConstructible Value}.

(** [LRUKCache] derives from [LRUCache<Key, Value>] ([base]); the
    history list is an [LRUCache<Key, size_t>]. *)
Record LRUKCache := mkCache {
  base : LRU.LRUCache Key Value;
  k_ : Z;
  histList_ : LRU.LRUCache Key Z;
  histValMap_ : gmap Key Value
}.

(** [LRUKCache(int capatity, int histCapatity, int k)] *)
Definition new (capatity histCapatity k : Z) : option LRUKCache :=
  b ← LRU.new capatity;
  h ← LRU.new histCapatity;
  Some (mkCache b k h ∅).

(** [histCount >= k_]: [size_t] against [int]. *)
Definition reached (histCount k : Z) : bool :=
  bool_decide (to_size_t k ≤ histCount).

Definition put (key : Key) (val : Value) (c : LRUKCache) : option LRUKCache :=
  '(hit, existingVal, b) ← LRU.get key value_init (base c);
  if hit : bool then
    b ← LRU.put key val b;
    Some (mkCache b (k_ c) (histList_ c) (histValMap_ c))
  else
    '(histCount, h) ← LRU.get1 key (histList_ c);
    let histCount := to_size_t (histCount + 1) in
    h ← LRU.put key histCount h;
    let hv := <[key := val]> (histValMap_ c) in
    if reached histCount (k_ c) then
      h ← LRU.remove key h;
      let hv := delete key hv in
      b ← LRU.put key val b;
      Some (mkCache b (k_ c) h hv)
    else Some (mkCache b (k_ c) h hv).

Definition get (key : Key) (val : Value) (c : LRUKCache)
  : option (bool * Value * LRUKCache) :=
  '(inMainCache, val, b) ← LRU.get key val (base c);
  '(histCount, h) ← LRU.get1 key (histList_ c);
  let histCount := to_size_t (histCount + 1) in
  h ← LRU.put key histCount h;
  if inMainCache : bool then
    Some (true, val, mkCache b (k_ c) h (histValMap_ c))
  else if reached histCount (k_ c) then
    match histValMap_ c !! key with
    | Some pending =>
        let val := pending in
        h ← LRU.remove key h;
        let hv := delete key (histValMap_ c) in
        b ← LRU.put key val b;
        Some (true, val, mkCache b (k_ c) h hv)
    | None => Some (false, val, mkCache b (k_ c) h (histValMap_ c))
    end
  else Some (false, val, mkCache b (k_ c) h (histValMap_ c)).

Definition get1 (key : Key) (c : LRUKCache) : option (Value * LRUKCache) :=
  '(_, val, c) ← get key value_init c;
  Some (val, c).

End LRUK.
Arguments LRUKCache Key Value {_ _}.
End LRUK.

(** ** CacheLFU.h: the per-frequency list *)

Module FreqList.
Section FreqList.
Context {Key Value : Type}.
Context `{DefaultConstructible Key} `{DefaultConstructible Value}.

Record LFUNode := mkNode {
  freq : Z;
  key : Key;
  val : Value;
  prev : NodePtr;
  next : NodePtr
}.

Record FreqList := mkList {
  freq_ : Z;
  dummyHead_ : NodePtr;
  dummyTail_ : NodePtr
}.

Local Abbreviation Heap := (gmap ptr LFUNode).

Definition rd (h : Heap) (p : NodePtr) : option LFUNode := q ← p; h !! q.
Definition wr_prev (p v : NodePtr) (h : Heap) : option Heap :=
  q ← p; n ← h !! q; Some (<[q := mkNode (freq n) (key n) (val n) v (next n)]> h).
Definition wr_next (p v : NodePtr) (h : Heap) : option Heap :=
  q ← p; n ← h !! q; Some (<[q := mkNode (freq n) (key n) (val n) (prev n) v]> h).
Definition wr_val (p : NodePtr) (v : Value) (h : Heap) : option Heap :=
  q ← p; n ← h !! q; Some (<[q := mkNode (freq n) (key n) v (prev n) (next n)]> h).
Definition wr_freq (p : NodePtr) (f : Z) (h : Heap) : option Heap :=
  q ← p; n ← h !! q; Some (<[q := mkNode f (key n) (val n) (prev n) (next n)]> h).

(** [std::make_shared<LFUNode>(...)]: both constructors set [freq] to 1
    and the links to null. *)
Definition make_shared (k : Key) (v : Value) (h : Heap) : ptr * Heap :=
  let p := fresh (dom h) in (p, <[p := mkNode 1 k v None None]> h).

Definition initializeList (count : Z) (h : Heap) : option (FreqList * Heap) :=
  let '(hd, h) := make_shared value_init value_init h in
  let '(tl, h) := make_shared value_init value_init h in
  h ← wr_next (Some hd) (Some tl) h;
  h ← wr_prev (Some tl) (Some hd) h;
  Some (mkList count (Some hd) (Some tl), h).

(** [new FreqList<Key, Value>(count)] *)
Definition new (count : Z) (h : Heap) : option (FreqList * Heap) :=
  initializeList count h.

Definition isEmpty (l : FreqList) (h : Heap) : option bool :=
  match dummyHead_ l, dummyTail_ l with
  | Some hd, Some tl =>
      n ← h !! hd; Some (bool_decide (next n = Some tl))
  | _, _ => Some true
  end.

Definition addNode (l : FreqList) (node : NodePtr) (h : Heap) : option Heap :=
  match node, dummyHead_ l, dummyTail_ l with
  | Some _, Some _, Some _ =>
      t ← rd h (dummyTail_ l);
      h ← wr_prev node (prev t) h;
      h ← wr_next node (dummyTail_ l) h;
      t ← rd h (dummyTail_ l);
      h ← wr_next (prev t) node h;
      wr_prev (dummyTail_ l) node h
  | _, _, _ => Some h
  end.

Definition removeNode (l : FreqList) (node : NodePtr) (h : Heap) : option Heap :=
  match node, dummyHead_ l, dummyTail_ l with
  | Some _, Some _, Some _ =>
      n ← rd h node;
      match prev n, next n with
      | Some _, Some _ =>
          let prev' := prev n in
          h ← wr_next prev' (next n) h;
          n ← rd h node;
          h ← wr_prev (next n) prev' h;
          h ← wr_prev node None h;
          wr_next node None h
      | _, _ => Some h
      end
  | _, _, _ => Some h
  end.

Definition getFirstNode (l : FreqList) (h : Heap) : option NodePtr :=
  n ← rd h (dummyHead_ l); Some (next n).

End FreqList.
Arguments LFUNode : clear implicits.
End FreqList.

(** ** CacheLFU.h: the cache *)

Module LFU.
Section LFU.
Context {Key Value : Type} `{Countable Key}.
Context `{DefaultConstructible Key} `{DefaultConstructible Value}.
Context `{DefaultInitialised Value}.

Import FreqList.

Record LFUCache := mkCache {
  capacity_ : Z;
  minFreq_ : Z;
  cacheMap_ : gmap Key ptr;
  freqListMap_ : gmap Z FreqList;
  heap : gmap ptr (LFUNode Key Value)
}.

Definition with_heap h (c : LFUCache) : LFUCache :=
  mkCache (capacity_ c) (minFreq_ c) (cacheMap_ c) (freqListMap_ c) h.
Definition with_minFreq f (c : LFUCache) : LFUCache :=
  mkCache (capacity_ c) f (cacheMap_ c) (freqListMap_ c) (heap c).
Definition with_cacheMap m (c : LFUCache) : LFUCache :=
  mkCache (capacity_ c) (minFreq_ c) m (freqListMap_ c) (heap c).
Definition with_freqListMap m (c : LFUCache) : LFUCache :=
  mkCache (capacity_ c) (minFreq_ c) (cacheMap_ c) m (heap c).

(** [LFUCache(int capacity)] *)
Definition new (capacity : Z) : LFUCache := mkCache capacity 0 ∅ ∅ ∅.

Definition removeNodeFromFreqList (node : NodePtr) (c : LFUCache)
  : option LFUCache :=
  match node with
  | None => Some c
  | Some _ =>
      n ← rd (heap c) node;
      match freqListMap_ c !! freq n with
      | None => Some c
      | Some l =>
          h ← removeNode l node (heap c);
          let c := with_heap h c in
          n ← rd (heap c) node;
          match freqListMap_ c !! freq n with
          | Some l =>
              first ← getFirstNode l (heap c);
              if bool_decide (first = dummyTail_ l) then
                let c := with_freqListMap (delete (freq n) (freqListMap_ c)) c in
                if bool_decide (minFreq_ c = freq n) then
                  Some (with_minFreq
                          (if bool_decide (freqListMap_ c = ∅) then 0
                           else minFreq_ c + 1) c)
                else Some c
              else Some c
          | None => Some c
          end
      end
  end.

Definition addNodeToFreqList (node : NodePtr) (c : LFUCache) : option LFUCache :=
  match node with
  | None => Some c
  | Some _ =>
      n ← rd (heap c) node;
      c ← match freqListMap_ c !! freq n with
          | None =>
              '(l, h) ← FreqList.new (freq n) (heap c);
              Some (with_freqListMap (<[freq n := l]> (freqListMap_ c))
                      (with_heap h c))
          | Some _ => Some c
          end;
      n ← rd (heap c) node;
      l ← freqListMap_ c !! freq n;
      h ← addNode l node (heap c);
      Some (with_heap h c)
  end.

Definition put (k : Key) (v : Value) (c : LFUCache) : option LFUCache :=
  if bool_decide (0 = capacity_ c) then Some c
  else match cacheMap_ c !! k with
       | Some p =>
           h ← wr_val (Some p) v (heap c);
           Some (with_heap h c)
       | None =>
           c ← (if size_ge_int (size (cacheMap_ c)) (capacity_ c)
                   && bool_decide (minFreq_ c > 0)
                   && bool_decide (is_Some (freqListMap_ c !! minFreq_ c))
                then
                  l ← freqListMap_ c !! minFreq_ c;
                  node ← getFirstNode l (heap c);
                  c ← removeNodeFromFreqList node c;
                  n ← rd (heap c) node;
                  Some (with_cacheMap (delete (key n) (cacheMap_ c)) c)
                else Some c);
           let '(newNode, h) := make_shared k v (heap c) in
           let c := with_heap h c in
           let c := with_cacheMap (<[k := newNode]> (cacheMap_ c)) c in
           let c := with_minFreq 1 c in
           addNodeToFreqList (Some newNode) c
       end.

Definition get (k : Key) (v : Value) (c : LFUCache)
  : option (bool * Value * LFUCache) :=
  match cacheMap_ c !! k with
  | Some p =>
      let node := Some p in
      c ← removeNodeFromFreqList node c;
      n ← rd (heap c) node;
      h ← wr_freq node (freq n + 1) (heap c);
      let c := with_heap h c in
      bump ← match freqListMap_ c !! minFreq_ c with
             | None => Some true
             | Some l => isEmpty l (heap c)
             end;
      let c := if bump : bool then with_minFreq (minFreq_ c + 1) c else c in
      c ← addNodeToFreqList node c;
      n ← rd (heap c) node;
      Some (true, val n, c)
  | None => Some (false, v, c)
  end.

(** [Value val; get(key, val); return val;]: [val] is
    default-initialised, and [get] assigns it exactly when it returns
    true.  Returning a [val] that was neither initialised nor assigned is
    undefined. *)
Definition get1 (k : Key) (c : LFUCache) : option (Value * LFUCache) :=
  '(hit, v, c) ← get k value_init c;
  if hit || default_initialised then Some (v, c) else None.

Definition purge (c : LFUCache) : LFUCache :=
  mkCache (capacity_ c) 0 ∅ ∅ (heap c).

End LFU.
Arguments LFUCache Key Value {_ _}.
End LFU.

(** ** CacheLFUAvg.h *)

Module LFUAvg.
Section LFUAvg.
Context {Key Value : Type} `{Countable Key}.
Context `{DefaultConstructible Key} `{DefaultConstructible Value}.
Context `{DefaultInitialised Value} `{!UnorderedMapOrder Key ptr}.

Import FreqList.

Record LFUAvgCache := mkCache {
  capacity_ : Z;
  minFreq_ : Z;
  maxAvgFreq_ : Z;
  currentAvgFreq_ : Z;
  currentTotalFreq_ : Z;
  cacheMap_ : gmap Key ptr;
  freqListMap_ : gmap Z FreqList;
  heap : gmap ptr (LFUNode Key Value)
}.

Definition with_heap h (c : LFUAvgCache) : LFUAvgCache :=
  mkCache (capacity_ c) (minFreq_ c) (maxAvgFreq_ c) (currentAvgFreq_ c)
    (currentTotalFreq_ c) (cacheMap_ c) (freqListMap_ c) h.
Definition with_minFreq f (c : LFUAvgCache) : LFUAvgCache :=
  mkCache (capacity_ c) f (maxAvgFreq_ c) (currentAvgFreq_ c)
    (currentTotalFreq_ c) (cacheMap_ c) (freqListMap_ c) (heap c).
Definition with_cacheMap m (c : LFUAvgCache) : LFUAvgCache :=
  mkCache (capacity_ c) (minFreq_ c) (maxAvgFreq_ c) (currentAvgFreq_ c)
    (currentTotalFreq_ c) m (freqListMap_ c) (heap c).
Definition with_freqListMap m (c : LFUAvgCache) : LFUAvgCache :=
  mkCache (capacity_ c) (minFreq_ c) (maxAvgFreq_ c) (currentAvgFreq_ c)
    (currentTotalFreq_ c) (cacheMap_ c) m (heap c).
Definition with_freqs avg total (c : LFUAvgCache) : LFUAvgCache :=
  mkCache (capacity_ c) (minFreq_ c) (maxAvgFreq_ c) avg total
    (cacheMap_ c) (freqListMap_ c) (heap c).

(** [LFUAvgCache(int capacity, int maxAvgFreq = 1000000)] *)
Definition new (capacity maxAvgFreq : Z) : LFUAvgCache :=
  mkCache capacity INT8_MAX maxAvgFreq 0 0 ∅ ∅ ∅.

(** [freqListMap_[f]->...]: [operator[]] on an absent frequency yields a
    null [FreqList*], and the member call dereferences it. *)
Definition bucket (f : Z) (c : LFUAvgCache) : option FreqList :=
  freqListMap_ c !! f.

Definition removeNodeFromFreqList (node : NodePtr) (c : LFUAvgCache)
  : option LFUAvgCache :=
  match node with
  | None => Some c
  | Some _ =>
      n ← rd (heap c) node;
      match freqListMap_ c !! freq n with
      | None => Some c
      | Some l =>
          h ← removeNode l node (heap c);
          let c := with_heap h c in
          n ← rd (heap c) node;
          l ← bucket (freq n) c;
          first ← getFirstNode l (heap c);
          if bool_decide (first = dummyTail_ l) then
            let c := with_freqListMap (delete (freq n) (freqListMap_ c)) c in
            if bool_decide (minFreq_ c = freq n) then
              Some (with_minFreq
                      (if bool_decide (freqListMap_ c = ∅) then 0
                       else minFreq_ c + 1) c)
            else Some c
          else Some c
      end
  end.

Definition addNodeToFreqList (node : NodePtr) (c : LFUAvgCache)
  : option LFUAvgCache :=
  match node with
  | None => Some c
  | Some _ =>
      n ← rd (heap c) node;
      c ← match freqListMap_ c !! freq n with
          | None =>
              '(l, h) ← FreqList.new (freq n) (heap c);
              Some (with_freqListMap (<[freq n := l]> (freqListMap_ c))
                      (with_heap h c))
          | Some _ => Some c
          end;
      n ← rd (heap c) node;
      l ← bucket (freq n) c;
      h ← addNode l node (heap c);
      Some (with_heap h c)
  end.

(** The loop takes the minimum of the frequencies whose list is not
    empty: the order in which it visits [freqListMap_] does not show in
    the result. *)
Definition updateMinFreq (c : LFUAvgCache) : option LFUAvgCache :=
  m ← foldr (λ '(f, l) acc,
               m ← acc;
               e ← isEmpty l (heap c);
               Some (if e : bool then m else Z.min m f))
            (Some INT8_MAX) (map_to_list (freqListMap_ c));
  Some (with_minFreq (if bool_decide (m = INT8_MAX) then 1 else m) c).

(** The loop of [handleOverMaxAverageNum] visits the entries of the
    [std::unordered_map] in the container's order, [iteration_order].
    [it->second] is never null. *)
Definition ageNode (node : NodePtr) (c : LFUAvgCache) : option LFUAvgCache :=
  c ← removeNodeFromFreqList node c;
  n ← rd (heap c) node;
  let f := freq n - maxAvgFreq_ c `quot` 2 in
  let f := if bool_decide (f ≤ 0) then 1 else f in
  h ← wr_freq node f (heap c);
  addNodeToFreqList node (with_heap h c).

Definition handleOverMaxAverageNum (c : LFUAvgCache) : option LFUAvgCache :=
  if bool_decide (cacheMap_ c = ∅) then Some c
  else
    c ← foldl (λ acc '(_, p), c ← acc; ageNode (Some p) c)
              (Some c) (iteration_order (cacheMap_ c));
    updateMinFreq c.

(** [currentTotalFreq_ / cacheMap_.size()]: the [int] dividend is
    converted to [size_t]. *)
Definition average (total : Z) (sz : nat) : Z :=
  if bool_decide (sz = 0%nat) then 0 else to_size_t total / Z.of_nat sz.

Definition addFreqNum (c : LFUAvgCache) : option LFUAvgCache :=
  let total := currentTotalFreq_ c + 1 in
  let c := with_freqs (average total (size (cacheMap_ c))) total c in
  if bool_decide (currentAvgFreq_ c > maxAvgFreq_ c)
  then handleOverMaxAverageNum c else Some c.

Definition decreaseFreqNum (num : Z) (c : LFUAvgCache) : LFUAvgCache :=
  let total := currentTotalFreq_ c - num in
  let total := if bool_decide (total < 0) then 0 else total in
  with_freqs (average total (size (cacheMap_ c))) total c.

Definition kickOut (c : LFUAvgCache) : option LFUAvgCache :=
  l ← bucket (minFreq_ c) c;
  node ← getFirstNode l (heap c);
  c ← removeNodeFromFreqList node c;
  n ← rd (heap c) node;
  let c := with_cacheMap (delete (key n) (cacheMap_ c)) c in
  n ← rd (heap c) node;
  Some (decreaseFreqNum (freq n) c).

Definition putInternal (k : Key) (v : Value) (c : LFUAvgCache)
  : option LFUAvgCache :=
  c ← (if size_ge_int (size (cacheMap_ c)) (capacity_ c)
       then kickOut c else Some c);
  let '(node, h) := make_shared k v (heap c) in
  let c := with_heap h c in
  let c := with_cacheMap (<[k := node]> (cacheMap_ c)) c in
  c ← addNodeToFreqList (Some node) c;
  c ← addFreqNum c;
  Some (with_minFreq (Z.min (minFreq_ c) 1) c).

Definition getInternal (node : NodePtr) (v : Value) (c : LFUAvgCache)
  : option (Value * LFUAvgCache) :=
  match node with
  | None => Some (v, c)
  | Some _ =>
      n ← rd (heap c) node;
      let v := val n in
      c ← removeNodeFromFreqList node c;
      n ← rd (heap c) node;
      h ← wr_freq node (freq n + 1) (heap c);
      c ← addNodeToFreqList node (with_heap h c);
      n ← rd (heap c) node;
      c ← (if bool_decide (freq n - 1 = minFreq_ c) then
             l ← bucket (freq n - 1) c;
             e ← isEmpty l (heap c);
             Some (if e : bool then with_minFreq (minFreq_ c + 1) c else c)
           else Some c);
      c ← addFreqNum c;
      Some (v, c)
  end.

Definition put (k : Key) (v : Value) (c : LFUAvgCache) : option LFUAvgCache :=
  if bool_decide (0 = capacity_ c) then Some c
  else match cacheMap_ c !! k with
       | Some p =>
           h ← wr_val (Some p) v (heap c);
           '(_, c) ← getInternal (Some p) value_init (with_heap h c);
           Some c
       | None => putInternal k v c
       end.

Definition get (k : Key) (v : Value) (c : LFUAvgCache)
  : option (bool * Value * LFUAvgCache) :=
  match cacheMap_ c !! k with
  | Some p =>
      '(v, c) ← getInternal (Some p) v c;
      Some (true, v, c)
  | None => Some (false, v, c)
  end.

(** [Value val; get(key, val); return val;]: [val] is
    default-initialised, and [get] assigns it exactly when it returns
    true.  Returning a [val] that was neither initialised nor assigned is
    undefined. *)
Definition get1 (k : Key) (c : LFUAvgCache) : option (Value * LFUAvgCache) :=
  '(hit, v, c) ← get k value_init c;
  if hit || default_initialised then Some (v, c) else None.

Definition purge (c : LFUAvgCache) : LFUAvgCache :=
  mkCache (capacity_ c) INT8_MAX (maxAvgFreq_ c) 0 0 ∅ ∅ (heap c).

End LFUAvg.
Arguments LFUAvgCache Key Value {_ _}.
End LFUAvg.

(** ** CacheLFUHash.h *)

(** Conversion to [int] (32 bits, two's complement). *)
Definition to_int (z : Z) : Z := (z + 2 ^ 31) `mod` 2 ^ 32 - 2 ^ 31.

Module LFUHash.
Section LFUHash.
Context {Key Value : Type} `{Countable Key}.
Context `{DefaultConstructible Key} `{DefaultConstructible Value}.
Context `{DefaultInitialised Value} `{!UnorderedMapOrder Key ptr}.

(** [std::hash<Key>] and [std::thread::hardware_concurrency()] belong to
    the platform. *)
Variable hashFunc : Key → Z.
Variable hardware_concurrency : Z.

Record LFUHashCache := mkCache {
  capacity_ : Z;
  sliceNum_ : Z;
  lfuSliceCaches_ : list (LFUAvg.LFUAvgCache Key Value)
}.

(** [std::ceil(capacity / static_cast<double>(sliceNum_))] converted to
    [size_t]: undefined unless the quotient is a non-negative number. *)
Definition sliceSize (capacity sliceNum : Z) : option Z :=
  if bool_decide (sliceNum = 0) then None
  else let q := - (- capacity / sliceNum) in
       if bool_decide (q < 0) then None else Some q.

(** [LFUHashCache(int capacity, int sliceNu, int maxAvgFreq = 10)] *)
Definition new (capacity sliceNu maxAvgFreq : Z) : option LFUHashCache :=
  let sliceNum :=
    if bool_decide (sliceNu > 0) then sliceNu else to_int hardware_concurrency in
  sz ← sliceSize capacity sliceNum;
  Some (mkCache capacity sliceNum
          (replicate (Z.to_nat sliceNum) (LFUAvg.new (to_int sz) maxAvgFreq))).

Definition Hash (k : Key) : Z := to_size_t (to_int (hashFunc k)).

(** [hashValue % sliceNum_]: the [int] divisor is converted to
    [size_t]; a zero divisor is undefined. *)
Definition getSliceIndex (k : Key) (c : LFUHashCache) : option Z :=
  let hashValue := Hash k in
  if bool_decide (to_size_t (sliceNum_ c) = 0) then None
  else Some (to_int (hashValue `mod` to_size_t (sliceNum_ c))).

Definition put (k : Key) (v : Value) (c : LFUHashCache) : option LFUHashCache :=
  i ← getSliceIndex k c;
  let sliceIndex := to_size_t i in
  if bool_decide (sliceIndex < Z.of_nat (length (lfuSliceCaches_ c))) then
    s ← lfuSliceCaches_ c !! Z.to_nat sliceIndex;
    s ← LFUAvg.put k v s;
    Some (mkCache (capacity_ c) (sliceNum_ c)
            (<[Z.to_nat sliceIndex := s]> (lfuSliceCaches_ c)))
  else Some c.

Definition get (k : Key) (v : Value) (c : LFUHashCache)
  : option (bool * Value * LFUHashCache) :=
  i ← getSliceIndex k c;
  let sliceIndex := to_size_t i in
  if bool_decide (sliceIndex < Z.of_nat (length (lfuSliceCaches_ c))) then
    s ← lfuSliceCaches_ c !! Z.to_nat sliceIndex;
    '(b, v, s) ← LFUAvg.get k v s;
    Some (b, v, mkCache (capacity_ c) (sliceNum_ c)
                  (<[Z.to_nat sliceIndex := s]> (lfuSliceCaches_ c)))
  else Some (false, v, c).

(** [Value val; get(key, val); return val;]: [val] is
    default-initialised, and [get] assigns it exactly when it returns
    true.  Returning a [val] that was neither initialised nor assigned is
    undefined. *)
Definition get1 (k : Key) (c : LFUHashCache) : option (Value * LFUHashCache) :=
  '(hit, v, c) ← get k value_init c;
  if hit || default_initialised then Some (v, c) else None.

(** Every shard is purged, then the vector of shards is cleared. *)
Definition purge (c : LFUHashCache) : LFUHashCache :=
  let c := mkCache (capacity_ c) (sliceNum_ c)
             (LFUAvg.purge <$> lfuSliceCaches_ c) in
  mkCache (capacity_ c) (sliceNum_ c) [].

End LFUHash.
Arguments LFUHashCache Key Value {_ _}.
End LFUHash.

(** ** CacheLRUHash.h *)

Module LRUHash.
Section LRUHash.
Context {Key Value : Type} `{Countable Key}.
Context `{DefaultConstructible Key} `{DefaultConstructible Value}.

(** [std::hash<Key>] and [std::thread::hardware_concurrency()] belong to
    the platform. *)
Variable hashFunc : Key → Z.
Variable hardware_concurrency : Z.

Record LRUHashCache := mkCache {
  capacity_ : Z;
  sliceNum_ : Z;
  lruSliceCaches_ : list (LRU.LRUCache Key Value)
}.

(** [std::ceil(capacity / static_cast<double>(sliceNum_))] converted to
    [size_t].  The [size_t] capacity is converted to [double] for the
    division: the embedding covers the capacities below [2^53], which
    that conversion keeps exact; the result is undefined unless the
    quotient is a non-negative number. *)
Definition sliceSize (capacity sliceNum : Z) : option Z :=
  if bool_decide (sliceNum = 0) then None
  else if bool_decide (2 ^ 53 ≤ capacity) then None
  else let q := - (- capacity / sliceNum) in
       if bool_decide (q < 0) then None else Some q.

(** The loop of the constructor: [n] times
    [emplace_back(new LRUCache<Key, Value>(sliceSize))], where the
    constructor of [LRUCache] takes an [int]. *)
Fixpoint emplace (n : nat) (sz : Z) : option (list (LRU.LRUCache Key Value)) :=
  match n with
  | O => Some []
  | S n => l ← emplace n sz; c ← LRU.new (to_int sz); Some (l ++ [c])
  end.

(** [LRUHashCache(size_t capacity, int sliceNum)]: the loop counter is a
    [size_t], to which [sliceNum_] is converted. *)
Definition new (capacity sliceNum : Z) : option LRUHashCache :=
  let sliceNum :=
    if bool_decide (sliceNum > 0) then sliceNum else to_int hardware_concurrency in
  sz ← sliceSize capacity sliceNum;
  l ← emplace (Z.to_nat (to_size_t sliceNum)) sz;
  Some (mkCache capacity sliceNum l).

Definition Hash (k : Key) : Z := to_size_t (hashFunc k).

(** [Hash(key) % sliceNum_]: the [int] divisor is converted to
    [size_t]; a zero divisor is undefined. *)
Definition sliceIndex (k : Key) (c : LRUHashCache) : option Z :=
  if bool_decide (to_size_t (sliceNum_ c) = 0) then None
  else Some (Hash k `mod` to_size_t (sliceNum_ c)).

(** [lruSliceCaches_[sliceIndex]->put(key, val)]: [operator[]] does not
    check its index. *)
Definition put (k : Key) (v : Value) (c : LRUHashCache) : option LRUHashCache :=
  i ← sliceIndex k c;
  s ← lruSliceCaches_ c !! Z.to_nat i;
  s ← LRU.put k v s;
  Some (mkCache (capacity_ c) (sliceNum_ c)
          (<[Z.to_nat i := s]> (lruSliceCaches_ c))).

Definition get (k : Key) (v : Value) (c : LRUHashCache)
  : option (bool * Value * LRUHashCache) :=
  i ← sliceIndex k c;
  s ← lruSliceCaches_ c !! Z.to_nat i;
  '(b, v, s) ← LRU.get k v s;
  Some (b, v, mkCache (capacity_ c) (sliceNum_ c)
                (<[Z.to_nat i := s]> (lruSliceCaches_ c))).

End LRUHash.
Arguments LRUHashCache Key Value {_ _}.
End LRUHash.

(** ** CacheARCNode.h *)

Module ARCNode.
Section ARCNode.
Context {Key Value : Type}.

Record ARCNode := mkNode {
  key_ : Key;
  val_ : Value;
  count_ : Z;
  prev_ : NodePtr;
  next : NodePtr
}.

Local Abbreviation Heap := (gmap ptr ARCNode).

Definition rd (h : Heap) (p : NodePtr) : option ARCNode := q ← p; h !! q.
Definition wr_prev (p v : NodePtr) (h : Heap) : option Heap :=
  q ← p; n ← h !! q; Some (<[q := mkNode (key_ n) (val_ n) (count_ n) v (next n)]> h).
Definition wr_next (p v : NodePtr) (h : Heap) : option Heap :=
  q ← p; n ← h !! q; Some (<[q := mkNode (key_ n) (val_ n) (count_ n) (prev_ n) v]> h).
Definition setValue (p : NodePtr) (v : Value) (h : Heap) : option Heap :=
  q ← p; n ← h !! q; Some (<[q := mkNode (key_ n) v (count_ n) (prev_ n) (next n)]> h).
Definition wr_count (p : NodePtr) (k : Z) (h : Heap) : option Heap :=
  q ← p; n ← h !! q; Some (<[q := mkNode (key_ n) (val_ n) k (prev_ n) (next n)]> h).
Definition incrementAccessCount (p : NodePtr) (h : Heap) : option Heap :=
  n ← rd h p; wr_count p (to_size_t (count_ n + 1)) h.

(** Both constructors set [count_] to 1 and the links to null. *)
Definition make_shared (k : Key) (v : Value) (h : Heap) : ptr * Heap :=
  let p := fresh (dom h) in (p, <[p := mkNode k v 1 None None]> h).

(** The unlinking of a node from its list.  [ARCLRUCache::moveToFront],
    [ARCLRUCache::removeFromMainCache] and the [removeFromGhostCache] of
    both halves repeat these statements verbatim:
    [if (node && node->prev_ && node->next) { node->prev_->next = node->next;
     if (node->next) { node->next->prev_ = node->prev_;
                       node->next = nullptr; node->prev_ = nullptr; } }] *)
Definition unlink (node : NodePtr) (h : Heap) : option Heap :=
  match node with
  | None => Some h
  | Some _ =>
      n ← rd h node;
      match prev_ n, next n with
      | Some _, Some _ =>
          h ← wr_next (prev_ n) (next n) h;
          n ← rd h node;
          match next n with
          | Some _ =>
              n ← rd h node;
              h ← wr_prev (next n) (prev_ n) h;
              h ← wr_next node None h;
              wr_prev node None h
          | None => Some h
          end
      | _, _ => Some h
      end
  end.

End ARCNode.
Arguments ARCNode : clear implicits.
End ARCNode.

(** ** CacheARCLRUPart.h *)

Module ARCLRU.
Section ARCLRU.
Context {Key Value : Type} `{Countable Key}.
Context `{DefaultConstructible Key} `{DefaultConstructible Value}.

Import ARCNode.

Record ARCLRUCache := mkCache {
  capacity_ : Z;
  ghostCapacity_ : Z;
  transformThreshold_ : Z;
  mainCache_ : gmap Key ptr;
  ghostCache_ : gmap Key ptr;
  mainHead_ : NodePtr;
  mainTail_ : NodePtr;
  ghostHead_ : NodePtr;
  ghostTail_ : NodePtr;
  heap : gmap ptr (ARCNode Key Value)
}.

Definition with_heap h (c : ARCLRUCache) : ARCLRUCache :=
  mkCache (capacity_ c) (ghostCapacity_ c) (transformThreshold_ c)
    (mainCache_ c) (ghostCache_ c)
    (mainHead_ c) (mainTail_ c) (ghostHead_ c) (ghostTail_ c) h.
Definition with_main m (c : ARCLRUCache) : ARCLRUCache :=
  mkCache (capacity_ c) (ghostCapacity_ c) (transformThreshold_ c)
    m (ghostCache_ c)
    (mainHead_ c) (mainTail_ c) (ghostHead_ c) (ghostTail_ c) (heap c).
Definition with_ghost m (c : ARCLRUCache) : ARCLRUCache :=
  mkCache (capacity_ c) (ghostCapacity_ c) (transformThreshold_ c)
    (mainCache_ c) m
    (mainHead_ c) (mainTail_ c) (ghostHead_ c) (ghostTail_ c) (heap c).
Definition with_capacity cap gcap (c : ARCLRUCache) : ARCLRUCache :=
  mkCache cap gcap (transformThreshold_ c) (mainCache_ c) (ghostCache_ c)
    (mainHead_ c) (mainTail_ c) (ghostHead_ c) (ghostTail_ c) (heap c).

(** Heap writes lifted to the cache. *)
Definition upd (f : gmap ptr (ARCNode Key Value) → option (gmap ptr (ARCNode Key Value)))
    (c : ARCLRUCache) : option ARCLRUCache :=
  h ← f (heap c); Some (with_heap h c).

Definition initializeCache (c : ARCLRUCache) : option ARCLRUCache :=
  let '(mh, h) := make_shared value_init value_init (heap c) in
  let '(mt, h) := make_shared value_init value_init h in
  h ← wr_next (Some mh) (Some mt) h;
  h ← wr_prev (Some mt) (Some mh) h;
  let '(gh, h) := make_shared value_init value_init h in
  let '(gt, h) := make_shared value_init value_init h in
  h ← wr_next (Some gh) (Some gt) h;
  h ← wr_prev (Some gt) (Some gh) h;
  Some (mkCache (capacity_ c) (ghostCapacity_ c) (transformThreshold_ c)
          (mainCache_ c) (ghostCache_ c)
          (Some mh) (Some mt) (Some gh) (Some gt) h).

(** [ARCLRUCache(size_t capacity, size_t transformThreshold)] *)
Definition new (capacity transformThreshold : Z) : option ARCLRUCache :=
  initializeCache
    (mkCache capacity capacity transformThreshold ∅ ∅ None None None None ∅).

Definition addToFront (node : NodePtr) (c : ARCLRUCache) : option ARCLRUCache :=
  match node with
  | None => Some c
  | Some _ =>
      hd ← rd (heap c) (mainHead_ c);
      c ← upd (wr_next node (next hd)) c;
      hd ← rd (heap c) (mainHead_ c);
      c ← upd (wr_prev (next hd) node) c;
      c ← upd (wr_next (mainHead_ c) node) c;
      c ← upd (wr_prev node (mainHead_ c)) c;
      tl ← rd (heap c) (mainTail_ c);
      match prev_ tl with
      | None => upd (wr_prev (mainTail_ c) node) c
      | Some _ => Some c
      end
  end.

Definition moveToFront (node : NodePtr) (c : ARCLRUCache) : option ARCLRUCache :=
  c ← upd (unlink node) c;
  addToFront node c.

Definition removeFromMainCache (node : NodePtr) (c : ARCLRUCache)
  : option ARCLRUCache := upd (unlink node) c.

Definition removeFromGhostCache (node : NodePtr) (c : ARCLRUCache)
  : option ARCLRUCache := upd (unlink node) c.

Definition addToGhostCache (node : NodePtr) (c : ARCLRUCache)
  : option ARCLRUCache :=
  match node with
  | None => Some c
  | Some p =>
      c ← upd (wr_count node 1) c;
      n ← rd (heap c) node;
      let c := with_ghost (<[key_ n := p]> (ghostCache_ c)) c in
      gh ← rd (heap c) (ghostHead_ c);
      c ← upd (wr_next node (next gh)) c;
      c ← upd (wr_prev node (ghostHead_ c)) c;
      gh ← rd (heap c) (ghostHead_ c);
      c ← upd (wr_prev (next gh) node) c;
      c ← upd (wr_next (ghostHead_ c) node) c;
      gt ← rd (heap c) (ghostTail_ c);
      match prev_ gt with
      | None => upd (wr_prev (ghostTail_ c) node) c
      | Some _ => Some c
      end
  end.

Definition removeOldestGhostNode (c : ARCLRUCache) : option ARCLRUCache :=
  match ghostTail_ c with
  | None => Some c
  | Some _ =>
      gt ← rd (heap c) (ghostTail_ c);
      let oldestGhostNode := prev_ gt in
      if bool_decide (oldestGhostNode = None ∨ oldestGhostNode = ghostHead_ c)
      then Some c
      else
        c ← removeFromGhostCache oldestGhostNode c;
        n ← rd (heap c) oldestGhostNode;
        Some (with_ghost (delete (key_ n) (ghostCache_ c)) c)
  end.

Definition evictLeastRecent (c : ARCLRUCache) : option ARCLRUCache :=
  match mainTail_ c with
  | None => Some c
  | Some _ =>
      mt ← rd (heap c) (mainTail_ c);
      let leastRecentNode := prev_ mt in
      if bool_decide (leastRecentNode = None ∨ leastRecentNode = mainHead_ c)
      then Some c
      else
        c ← removeFromMainCache leastRecentNode c;
        c ← (if bool_decide (Z.of_nat (size (ghostCache_ c)) >= ghostCapacity_ c)
             then removeOldestGhostNode c else Some c);
        c ← addToGhostCache leastRecentNode c;
        n ← rd (heap c) leastRecentNode;
        Some (with_main (delete (key_ n) (mainCache_ c)) c)
  end.

Definition updateExistingNode (node : NodePtr) (value : Value) (c : ARCLRUCache)
  : option (bool * ARCLRUCache) :=
  match node with
  | Some _ =>
      c ← upd (setValue node value) c;
      c ← moveToFront node c;
      Some (true, c)
  | None => Some (false, c)
  end.

Definition addNewNode (key : Key) (value : Value) (c : ARCLRUCache)
  : option (bool * ARCLRUCache) :=
  c ← (if bool_decide (Z.of_nat (size (mainCache_ c)) >= capacity_ c)
       then evictLeastRecent c else Some c);
  let '(newNode, h) := make_shared key value (heap c) in
  let c := with_heap h c in
  let c := with_main (<[key := newNode]> (mainCache_ c)) c in
  c ← addToFront (Some newNode) c;
  Some (true, c).

Definition updateNodeAccess (node : NodePtr) (c : ARCLRUCache)
  : option (bool * ARCLRUCache) :=
  match node with
  | Some _ =>
      c ← moveToFront node c;
      c ← upd (incrementAccessCount node) c;
      n ← rd (heap c) node;
      Some (bool_decide (count_ n >= transformThreshold_ c), c)
  | None => Some (false, c)
  end.

(** [bool get(const Key&, Value& value, bool& shouldTransform)] *)
Definition get (key : Key) (value : Value) (shouldTransform : bool)
    (c : ARCLRUCache) : option (bool * Value * bool * ARCLRUCache) :=
  match mainCache_ c !! key with
  | Some p =>
      '(shouldTransform, c) ← updateNodeAccess (Some p) c;
      n ← rd (heap c) (Some p);
      Some (true, val_ n, shouldTransform, c)
  | None => Some (false, value, shouldTransform, c)
  end.

Definition put (key : Key) (value : Value) (c : ARCLRUCache)
  : option (bool * ARCLRUCache) :=
  if bool_decide (0 = capacity_ c) then Some (false, c)
  else match mainCache_ c !! key with
       | Some p => updateExistingNode (Some p) value c
       | None => addNewNode key value c
       end.

Definition checkGhost (key : Key) (c : ARCLRUCache)
  : option (bool * ARCLRUCache) :=
  match ghostCache_ c !! key with
  | Some p =>
      c ← removeFromGhostCache (Some p) c;
      Some (true, with_ghost (delete key (ghostCache_ c)) c)
  | None => Some (false, c)
  end.

Definition increaseCapacity (c : ARCLRUCache) : ARCLRUCache :=
  with_capacity (to_size_t (capacity_ c + 1))
                (to_size_t (ghostCapacity_ c + 1)) c.

Definition decreaseCapacity (c : ARCLRUCache) : option (bool * ARCLRUCache) :=
  if bool_decide (0 >= capacity_ c) then Some (false, c)
  else
    c ← (if bool_decide (Z.of_nat (size (mainCache_ c)) = capacity_ c)
         then evictLeastRecent c else Some c);
    c ← (if bool_decide (Z.of_nat (size (ghostCache_ c)) = ghostCapacity_ c)
         then removeOldestGhostNode c else Some c);
    Some (true, with_capacity (to_size_t (capacity_ c - 1))
                              (to_size_t (ghostCapacity_ c - 1)) c).

End ARCLRU.
Arguments ARCLRUCache Key Value {_ _}.
End ARCLRU.

(** ** CacheARCLFUPart.h *)

Module ARCLFU.
Section ARCLFU.
Context {Key Value : Type} `{Countable Key}.
Context `{DefaultConstructible Key} `{DefaultConstructible Value}.

Import ARCNode.

(** [freqMap_] is a [std::map<size_t, std::list<NodePtr>>]: an ordered
    map, whose [begin()] is the entry of the smallest frequency. *)
Record ARCLFUCache := mkCache {
  capacity_ : Z;
  ghostCapacity_ : Z;
  transformThreshold_ : Z;
  minFreq_ : Z;
  mainCache_ : gmap Key ptr;
  ghostCache_ : gmap Key ptr;
  freqMap_ : gmap Z (list ptr);
  ghostHead_ : NodePtr;
  ghostTail_ : NodePtr;
  heap : gmap ptr (ARCNode Key Value)
}.

Definition with_heap h (c : ARCLFUCache) : ARCLFUCache :=
  mkCache (capacity_ c) (ghostCapacity_ c) (transformThreshold_ c) (minFreq_ c)
    (mainCache_ c) (ghostCache_ c) (freqMap_ c) (ghostHead_ c) (ghostTail_ c) h.
Definition with_main m (c : ARCLFUCache) : ARCLFUCache :=
  mkCache (capacity_ c) (ghostCapacity_ c) (transformThreshold_ c) (minFreq_ c)
    m (ghostCache_ c) (freqMap_ c) (ghostHead_ c) (ghostTail_ c) (heap c).
Definition with_ghost m (c : ARCLFUCache) : ARCLFUCache :=
  mkCache (capacity_ c) (ghostCapacity_ c) (transformThreshold_ c) (minFreq_ c)
    (mainCache_ c) m (freqMap_ c) (ghostHead_ c) (ghostTail_ c) (heap c).
Definition with_freqMap m (c : ARCLFUCache) : ARCLFUCache :=
  mkCache (capacity_ c) (ghostCapacity_ c) (transformThreshold_ c) (minFreq_ c)
    (mainCache_ c) (ghostCache_ c) m (ghostHead_ c) (ghostTail_ c) (heap c).
Definition with_minFreq f (c : ARCLFUCache) : ARCLFUCache :=
  mkCache (capacity_ c) (ghostCapacity_ c) (transformThreshold_ c) f
    (mainCache_ c) (ghostCache_ c) (freqMap_ c) (ghostHead_ c) (ghostTail_ c)
    (heap c).
Definition with_capacity cap gcap (c : ARCLFUCache) : ARCLFUCache :=
  mkCache cap gcap (transformThreshold_ c) (minFreq_ c)
    (mainCache_ c) (ghostCache_ c) (freqMap_ c) (ghostHead_ c) (ghostTail_ c)
    (heap c).

Definition upd (f : gmap ptr (ARCNode Key Value) → option (gmap ptr (ARCNode Key Value)))
    (c : ARCLFUCache) : option ARCLFUCache :=
  h ← f (heap c); Some (with_heap h c).

(** [freqMap_.begin()->first] *)
Definition begin (m : gmap Z (list ptr)) : option Z :=
  foldr (λ '(f, _) acc,
           match acc with None => Some f | Some g => Some (Z.min f g) end)
        None (map_to_list m).

Definition initializeCache (c : ARCLFUCache) : option ARCLFUCache :=
  let '(gh, h) := make_shared value_init value_init (heap c) in
  let '(gt, h) := make_shared value_init value_init h in
  h ← wr_next (Some gh) (Some gt) h;
  h ← wr_prev (Some gt) (Some gh) h;
  Some (mkCache (capacity_ c) (ghostCapacity_ c) (transformThreshold_ c)
          (minFreq_ c) (mainCache_ c) (ghostCache_ c) (freqMap_ c)
          (Some gh) (Some gt) h).

(** [ARCLFUCache(size_t capacity, size_t transformThreshold)] *)
Definition new (capacity transformThreshold : Z) : option ARCLFUCache :=
  initializeCache
    (mkCache capacity capacity transformThreshold 0 ∅ ∅ ∅ None None ∅).

Definition updateNodeFrequency (node : ptr) (c : ARCLFUCache)
  : option ARCLFUCache :=
  n ← rd (heap c) (Some node);
  let oldFreq := count_ n in
  c ← upd (incrementAccessCount (Some node)) c;
  n ← rd (heap c) (Some node);
  let newFreq := count_ n in
  if bool_decide (oldFreq = newFreq) then Some c
  else
    let c :=
      match freqMap_ c !! oldFreq with
      | Some nodeList =>
          let nodeList := filter (λ q, q ≠ node) nodeList in
          let c := with_freqMap (<[oldFreq := nodeList]> (freqMap_ c)) c in
          if bool_decide (nodeList = []) then
            let c := with_freqMap (delete oldFreq (freqMap_ c)) c in
            if bool_decide (minFreq_ c = oldFreq)
            then with_minFreq newFreq c else c
          else c
      | None => c
      end in
    let c := match freqMap_ c !! newFreq with
             | None => with_freqMap (<[newFreq := []]> (freqMap_ c)) c
             | Some _ => c
             end in
    l ← freqMap_ c !! newFreq;
    let c := with_freqMap (<[newFreq := l ++ [node]]> (freqMap_ c)) c in
    Some (with_minFreq (Z.min (minFreq_ c) newFreq) c).

Definition removeFromGhostCache (node : NodePtr) (c : ARCLFUCache)
  : option ARCLFUCache := upd (unlink node) c.

Definition addToGhostCache (node : NodePtr) (c : ARCLFUCache)
  : option ARCLFUCache :=
  match node with
  | None => Some c
  | Some p =>
      c ← upd (wr_next node (ghostTail_ c)) c;
      gt ← rd (heap c) (ghostTail_ c);
      c ← upd (wr_prev node (prev_ gt)) c;
      gt ← rd (heap c) (ghostTail_ c);
      c ← match prev_ gt with
          | Some _ => upd (wr_next (prev_ gt) node) c
          | None => Some c
          end;
      c ← upd (wr_prev (ghostTail_ c) node) c;
      gh ← rd (heap c) (ghostHead_ c);
      c ← match next gh with
          | None => upd (wr_next (ghostHead_ c) node) c
          | Some _ => Some c
          end;
      n ← rd (heap c) node;
      Some (with_ghost (<[key_ n := p]> (ghostCache_ c)) c)
  end.

Definition removeOldestGhostNode (c : ARCLFUCache) : option ARCLFUCache :=
  gh ← rd (heap c) (ghostHead_ c);
  let oldestNode := next gh in
  if bool_decide (oldestNode ≠ None ∧ oldestNode ≠ ghostTail_ c) then
    c ← removeFromGhostCache oldestNode c;
    n ← rd (heap c) oldestNode;
    let c := with_ghost (delete (key_ n) (ghostCache_ c)) c in
    c ← upd (wr_next oldestNode None) c;
    upd (wr_prev oldestNode None) c
  else Some c.

(** The iterator [it] is carried as the frequency it points at;
    [front()] on an empty list is undefined. *)
Definition evictLeastRecent (c : ARCLFUCache) : option ARCLFUCache :=
  if bool_decide (freqMap_ c = ∅) then Some c
  else match freqMap_ c !! minFreq_ c with
  | None => Some c
  | Some l =>
      r ← (if bool_decide (l = []) then
             let c := with_freqMap (delete (minFreq_ c) (freqMap_ c)) c in
             if bool_decide (freqMap_ c = ∅)
             then Some (inl (with_minFreq 0 c))
             else it ← begin (freqMap_ c); Some (inr (it, c))
           else Some (inr (minFreq_ c, c)));
      match r with
      | inl c => Some c
      | inr (it, c) =>
          l ← freqMap_ c !! it;
          leastRecentNode ← head l;
          let l := tail l in
          let c := with_freqMap (<[it := l]> (freqMap_ c)) c in
          c ← (if bool_decide (l = []) then
                 let c := with_freqMap (delete it (freqMap_ c)) c in
                 if bool_decide (freqMap_ c ≠ ∅)
                 then f ← begin (freqMap_ c); Some (with_minFreq f c)
                 else Some (with_minFreq 0 c)
               else Some c);
          c ← (if bool_decide (Z.of_nat (size (ghostCache_ c)) >= ghostCapacity_ c)
               then removeOldestGhostNode c else Some c);
          c ← addToGhostCache (Some leastRecentNode) c;
          n ← rd (heap c) (Some leastRecentNode);
          Some (with_main (delete (key_ n) (mainCache_ c)) c)
      end
  end.

Definition updateExistingNode (node : NodePtr) (value : Value) (c : ARCLFUCache)
  : option (bool * ARCLFUCache) :=
  match node with
  | Some p =>
      c ← upd (setValue node value) c;
      c ← updateNodeFrequency p c;
      Some (true, c)
  | None => Some (false, c)
  end.

Definition addNewNode (key : Key) (value : Value) (c : ARCLFUCache)
  : option (bool * ARCLFUCache) :=
  c ← (if bool_decide (Z.of_nat (size (mainCache_ c)) >= capacity_ c)
       then evictLeastRecent c else Some c);
  let '(newNode, h) := make_shared key value (heap c) in
  let c := with_heap h c in
  let c := with_main (<[key := newNode]> (mainCache_ c)) c in
  let c := match freqMap_ c !! 1 with
           | None => with_freqMap (<[1 := []]> (freqMap_ c)) c
           | Some _ => c
           end in
  l ← freqMap_ c !! 1;
  let c := with_freqMap (<[1 := l ++ [newNode]]> (freqMap_ c)) c in
  Some (true, with_minFreq 1 c).

Definition get (key : Key) (value : Value) (c : ARCLFUCache)
  : option (bool * Value * ARCLFUCache) :=
  match mainCache_ c !! key with
  | Some p =>
      c ← updateNodeFrequency p c;
      n ← rd (heap c) (Some p);
      Some (true, val_ n, c)
  | None => Some (false, value, c)
  end.

Definition put (key : Key) (value : Value) (c : ARCLFUCache)
  : option (bool * ARCLFUCache) :=
  if bool_decide (0 = capacity_ c) then Some (false, c)
  else match mainCache_ c !! key with
       | Some p => updateExistingNode (Some p) value c
       | None => addNewNode key value c
       end.

Definition contains (key : Key) (c : ARCLFUCache) : bool :=
  bool_decide (is_Some (mainCache_ c !! key)).

Definition checkGhost (key : Key) (c : ARCLFUCache)
  : option (bool * ARCLFUCache) :=
  match ghostCache_ c !! key with
  | Some p =>
      c ← removeFromGhostCache (Some p) c;
      Some (true, with_ghost (delete key (ghostCache_ c)) c)
  | None => Some (false, c)
  end.

Definition increaseCapacity (c : ARCLFUCache) : ARCLFUCache :=
  with_capacity (to_size_t (capacity_ c + 1))
                (to_size_t (ghostCapacity_ c + 1)) c.

Definition decreaseCapacity (c : ARCLFUCache) : option (bool * ARCLFUCache) :=
  if bool_decide (0 >= capacity_ c) then Some (false, c)
  else
    c ← (if bool_decide (Z.of_nat (size (mainCache_ c)) = capacity_ c)
         then evictLeastRecent c else Some c);
    c ← (if bool_decide (Z.of_nat (size (ghostCache_ c)) = ghostCapacity_ c)
         then removeOldestGhostNode c else Some c);
    Some (true, with_capacity (to_size_t (capacity_ c - 1))
                              (to_size_t (ghostCapacity_ c - 1)) c).

End ARCLFU.
Arguments ARCLFUCache Key Value {_ _}.
End ARCLFU.

(** ** CacheARC.h *)

Module ARC.
Section ARC.
Context {Key Value : Type} `{Countable Key}.
Context `{DefaultConstructible Key} `{DefaultConstructible Value}.

Record ARCCache := mkCache {
  capacity_ : Z;
  transformThreshold_ : Z;
  lruCache_ : ARCLRU.ARCLRUCache Key Value;
  lfuCache_ : ARCLFU.ARCLFUCache Key Value
}.

Definition with_parts l f (c : ARCCache) : ARCCache :=
  mkCache (capacity_ c) (transformThreshold_ c) l f.

(** [ARCCache(size_t capacity = 10, size_t transformThreshold = 2)] *)
Definition new (capacity transformThreshold : Z) : option ARCCache :=
  l ← ARCLRU.new capacity transformThreshold;
  f ← ARCLFU.new capacity transformThreshold;
  Some (mkCache capacity transformThreshold l f).

Definition checkGhost (key : Key) (c : ARCCache) : option (bool * ARCCache) :=
  '(inLru, l) ← ARCLRU.checkGhost key (lruCache_ c);
  if inLru : bool then
    '(shrunk, f) ← ARCLFU.decreaseCapacity (lfuCache_ c);
    let l := if shrunk : bool then ARCLRU.increaseCapacity l else l in
    Some (true, with_parts l f c)
  else
    '(inLfu, f) ← ARCLFU.checkGhost key (lfuCache_ c);
    if inLfu : bool then
      '(shrunk, l) ← ARCLRU.decreaseCapacity l;
      let f := if shrunk : bool then ARCLFU.increaseCapacity f else f in
      Some (true, with_parts l f c)
    else Some (false, with_parts l f c).

Definition get (key : Key) (value : Value) (c : ARCCache)
  : option (bool * Value * ARCCache) :=
  '(_, c) ← checkGhost key c;
  '(hit, value, shouldTransform, l) ← ARCLRU.get key value false (lruCache_ c);
  if hit : bool then
    if shouldTransform : bool then
      '(_, f) ← ARCLFU.put key value (lfuCache_ c);
      Some (true, value, with_parts l f c)
    else Some (true, value, with_parts l (lfuCache_ c) c)
  else
    '(hit, value, f) ← ARCLFU.get key value (lfuCache_ c);
    Some (hit, value, with_parts l f c).

Definition put (key : Key) (value : Value) (c : ARCCache) : option ARCCache :=
  '(_, c) ← checkGhost key c;
  let inLfu := ARCLFU.contains key (lfuCache_ c) in
  '(_, l) ← ARCLRU.put key value (lruCache_ c);
  if inLfu then
    '(_, f) ← ARCLFU.put key value (lfuCache_ c);
    Some (with_parts l f c)
  else Some (with_parts l (lfuCache_ c) c).

(** [Value get(const Key&)]: a miss throws.  The local [Value value;] is
    default-initialised; it is returned only after a hit, which has
    assigned it. *)
Definition get1 (key : Key) (c : ARCCache) : option (outcome Value * ARCCache) :=
  '(hit, value, c) ← get key value_init c;
  if hit : bool then Some (Returned value, c)
  else Some (Thrown "Key not found in cache", c).

End ARC.
Arguments ARCCache Key Value {_ _}.
End ARC.

(** ** CacheBase.h *)

(** The abstract base class: the three virtual member functions.  The
  value-returning [get] may end in a thrown exception. *)
Class CacheBase (C Key Value : Type) := {
cache_put : Key → Value → C → option C;
cache_get : Key → Value → C → option (bool * Value * C);
cache_get1 : Key → C → option (outcome Value * C)
}.

Section Instances.
Context {Key Value : Type} `{Countable Key}.
Context `{DefaultConstructible Key} `{DefaultConstructible Value}.
Context `{DefaultInitialised Value} `{!UnorderedMapOrder Key ptr}.

Definition returned {C} (r : option (Value * C)) : option (outcome Value * C) :=
  '(v, c) ← r; Some (Returned v, c).

Global Instance LRU_cache : CacheBase (LRU.LRUCache Key Value) Key Value :=
  {| cache_put := LRU.put; cache_get := LRU.get;
     cache_get1 k c := returned (LRU.get1 k c) |}.
Global Instance LRUK_cache : CacheBase (LRUK.LRUKCache Key Value) Key Value :=
  {| cache_put := LRUK.put; cache_get := LRUK.get;
     cache_get1 k c := returned (LRUK.get1 k c) |}.
Global Instance LFU_cache : CacheBase (LFU.LFUCache Key Value) Key Value :=
  {| cache_put := LFU.put; cache_get := LFU.get;
     cache_get1 k c := returned (LFU.get1 k c) |}.
Global Instance LFUAvg_cache : CacheBase (LFUAvg.LFUAvgCache Key Value) Key Value :=
  {| cache_put := LFUAvg.put; cache_get := LFUAvg.get;
     cache_get1 k c := returned (LFUAvg.get1 k c) |}.
Global Instance ARC_cache : CacheBase (ARC.ARCCache Key Value) Key Value :=
  {| cache_put := ARC.put; cache_get := ARC.get; cache_get1 := ARC.get1 |}.

(** A call of [put] or of the two-argument [get]. *)
Inductive op := Put (k : Key) (v : Value) | Get (k : Key).

Definition step {C} `{CacheBase C Key Value} (c : C) (o : op) : option C :=
  match o with
  | Put k v => cache_put k v c
  | Get k => '(_, _, c) ← cache_get k value_init c; Some c
  end.

Definition run {C} `{CacheBase C Key Value} (ops : list op) (c : C) : option C :=
  foldl (λ acc o, c ← acc; step c o) (Some c) ops.


End Instances.
Arguments op : clear implicits.

(** ** The literal scenarios, on integer keys and string values *)

Module Scenario.
Local Open Scope string_scope.

(** [LRU-K(cap=2,hist=4,K=2)]: [put(1,"a"); get(1); put(1,"a"); get(1)],
    with the results of the two reads. *)
Definition lruk : option (bool * string * bool * string) :=
  c ← LRUK.new 2 4 2;
  c ← LRUK.put 1 "a" c;
  '(hit1, v1, c) ← LRUK.get 1 "" c;
  c ← LRUK.put 1 "a" c;
  '(hit2, v2, c) ← LRUK.get 1 "" c;
  Some (hit1, v1, hit2, v2).

(** The frequency recorded for a resident key of an [LFUCache]. *)
Definition lfu_freq (k : Z) (c : LFU.LFUCache Z string) : option Z :=
  p ← LFU.cacheMap_ c !! k; n ← LFU.heap c !! p; Some (FreqList.freq n).
Definition lfu_val (k : Z) (c : LFU.LFUCache Z string) : option string :=
  p ← LFU.cacheMap_ c !! k; n ← LFU.heap c !! p; Some (FreqList.val n).

(** The frequencies whose list is non-empty. *)
Definition nonempty_freqs (m : gmap Z FreqList.FreqList)
    (h : gmap ptr (FreqList.LFUNode Z string)) : list Z :=
  omap (λ '(f, l), match FreqList.isEmpty l h with
                   | Some false => Some f
                   | _ => None
                   end) (map_to_list m).

(** [LFU(cap=2)]: [put(1,"a"); put(1,"b")]. *)
Definition lfu_put_put : option (LFU.LFUCache Z string) :=
  c ← LFU.put 1 "a" (LFU.new 2); LFU.put 1 "b" c.
(** [LFU(cap=2)]: [put(1,"a"); get(1)]. *)
Definition lfu_put_get : option (LFU.LFUCache Z string) :=
  c ← LFU.put 1 "a" (LFU.new 2); '(_, _, c) ← LFU.get 1 "" c; Some c.
(** [LFU(cap=1)]: [put(1,"a"); get(1); put(2,"b")]. *)
Definition lfu_overflow : option (LFU.LFUCache Z string) :=
  c ← LFU.put 1 "a" (LFU.new 1); '(_, _, c) ← LFU.get 1 "" c; LFU.put 2 "b" c.

(** [LFU-Avg(cap=1,maxAvg=252)]: [put(1,"a")], then [n] times [get(1)],
    in the container order [ord]. *)
Fixpoint lfuavg_gets (ord : UnorderedMapOrder Z ptr) (n : nat)
    (c : LFUAvg.LFUAvgCache Z string) : option (LFUAvg.LFUAvgCache Z string) :=
  match n with
  | O => Some c
  | S n => '(_, _, c) ← LFUAvg.get 1 "" c; lfuavg_gets ord n c
  end.
Definition lfuavg_hot (ord : UnorderedMapOrder Z ptr) (n : nat)
  : option (LFUAvg.LFUAvgCache Z string) :=
  c ← LFUAvg.put 1 "a" (LFUAvg.new 1 252); lfuavg_gets ord n c.

(** [LRU(cap=1)]: [put(1,"a"); put(2,"b")]. *)
Definition lru_evict : option (LRU.LRUCache Z string) :=
  c ← LRU.new 1; c ← LRU.put 1 "a" c; LRU.put 2 "b" c.


End Scenario.

(** * The invariants of the data structures *)

Section Path.
Implicit Types (f g nx pv : ptr → NodePtr) (s : list ptr) (a b x p n : ptr).

Fixpoint path f s : Prop :=
  match s with
  | a :: t => match t with b :: _ => f a = Some b | [] => True end ∧ path f t
  | [] => True
  end.

Definition dll nx pv s : Prop :=
  NoDup s ∧ path nx s ∧ path pv (reverse s).
End Path.

Module LRUInv.
Section LRUInv.
Context {Key Value : Type} `{Countable Key}.
Implicit Types (h : gmap ptr (LRU.LRUNode Key Value)) (c : LRU.LRUCache Key Value).

Definition nxv h (a : ptr) : NodePtr := n ← h !! a; LRU.next_ n.
Definition pvv h (a : ptr) : NodePtr := n ← h !! a; LRU.prev_ n.
Definition datav h (a : ptr) : option (Key * Value) :=
  (λ n, (LRU.key_ n, LRU.val_ n)) <$> h !! a.

Definition chain c (l : list ptr) : list ptr :=
  LRU.dummyHead_ c :: l ++ [LRU.dummyTail_ c].

Record inv c (l : list ptr) : Prop := {
  inv_int : - 2 ^ 31 ≤ LRU.capacity_ c < 2 ^ 31;
  inv_dll : dll (nxv (LRU.heap c)) (pvv (LRU.heap c)) (chain c l);
  inv_map : ∀ k p, LRU.nodeMap_ c !! k = Some p
                   ↔ p ∈ l ∧ fst <$> datav (LRU.heap c) p = Some k
}.

Definition wf c : Prop := ∃ l, inv c l.

Definition bounded c : Prop :=
  Z.of_nat (size (LRU.nodeMap_ c)) ≤ LRU.capacity_ c.

(** The keys and values held by the nodes of [l], in the order of [l]. *)
Definition contents h (l : list ptr) : list (Key * Value) := omap (datav h) l.

(** The entries met from the node [a] along [next_] up to the sentinel
    [tl]. *)
Fixpoint walk h (tl : ptr) (fuel : nat) (a : ptr) : option (list (Key * Value)) :=
  match fuel with
  | O => None
  | S fuel =>
      if decide (a = tl) then Some []
      else n ← h !! a; b ← LRU.next_ n; r ← walk h tl fuel b;
           Some ((LRU.key_ n, LRU.val_ n) :: r)
  end.

(** The entries of the cache from the least to the most recently used:
    the nodes between [dummyHead_] and [dummyTail_], read along [next_]. *)
Definition entries c : option (list (Key * Value)) :=
  hd ← LRU.heap c !! LRU.dummyHead_ c;
  first ← LRU.next_ hd;
  walk (LRU.heap c) (LRU.dummyTail_ c) (size (LRU.heap c)) first.
End LRUInv.
End LRUInv.

Module LRUKInv.
Section LRUKInv.
Context {Key Value : Type} `{Countable Key}.
Implicit Types (c : LRUK.LRUKCache Key Value).

Definition wf c : Prop :=
  LRUInv.wf (LRUK.base c) ∧ LRUInv.wf (LRUK.histList_ c).

(** The access count that the history list holds for a key: the stored
    counter, or the value-initialised [size_t] when the key is absent. *)
Definition histCount c (key : Key) : Z :=
  match LRU.nodeMap_ (LRUK.histList_ c) !! key with
  | Some p => match LRU.heap (LRUK.histList_ c) !! p with
              | Some n => LRU.val_ n
              | None => value_init
              end
  | None => value_init
  end.

(** The result of the two-argument [get]. *)
Definition get_result c (key : Key) (val : Value) (hit : bool) (v : Value) : Prop :=
  match LRU.nodeMap_ (LRUK.base c) !! key with
  | Some x => hit = true ∧ snd <$> LRUInv.datav (LRU.heap (LRUK.base c)) x = Some v
  | None =>
      if LRUK.reached (to_size_t (histCount c key + 1)) (LRUK.k_ c) then
        match LRUK.histValMap_ c !! key with
        | Some pending => hit = true ∧ v = pending
        | None => hit = false ∧ v = val
        end
      else hit = false ∧ v = val
  end.
End LRUKInv.
End LRUKInv.

Module ARCInv.
Section ARCInv.
Context {Key Value : Type} `{Countable Key}.
Implicit Types (h : gmap ptr (ARCNode.ARCNode Key Value)).

Definition nxv h (a : ptr) : NodePtr := n ← h !! a; ARCNode.next n.
Definition pvv h (a : ptr) : NodePtr := n ← h !! a; ARCNode.prev_ n.
Definition keyv h (a : ptr) : option Key := ARCNode.key_ <$> h !! a.
Definition valv h (a : ptr) : option Value := ARCNode.val_ <$> h !! a.
Definition cntv h (a : ptr) : option Z := ARCNode.count_ <$> h !! a.

(** Two heaps hold the same keys and values. *)
Definition same_data h h' : Prop :=
  ∀ a, keyv h' a = keyv h a ∧ valv h' a = valv h a.
(** ... and the same counters. *)
Definition same_info h h' : Prop :=
  ∀ a, keyv h' a = keyv h a ∧ valv h' a = valv h a ∧ cntv h' a = cntv h a.
(** Two heaps hold the same links and keys. *)
Definition same_shape h h' : Prop :=
  ∀ a, nxv h' a = nxv h a ∧ pvv h' a = pvv h a ∧ keyv h' a = keyv h a.
(** Two heaps differ at the addresses of [xs] at most. *)
Definition same_except (xs : list ptr) h h' : Prop :=
  ∀ a, a ∉ xs → h' !! a = h !! a.

(** The chain of a list between its two sentinels. *)
Definition chain (hd : ptr) (l : list ptr) (tl : ptr) : list ptr :=
  hd :: l ++ [tl].

(** Two well-linked chains that share no node. *)
Definition two_lists h (s1 s2 : list ptr) : Prop :=
  dll (nxv h) (pvv h) s1 ∧ dll (nxv h) (pvv h) s2 ∧ ∀ a, a ∈ s1 → a ∉ s2.

(** [m] maps every key of a node of [l] to that node, and nothing else. *)
Definition agrees h (m : gmap Key ptr) (l : list ptr) : Prop :=
  ∀ k p, m !! k = Some p ↔ p ∈ l ∧ keyv h p = Some k.
(** [m] maps keys to nodes of [l] that carry them. *)
Definition points_into h (m : gmap Key ptr) (l : list ptr) : Prop :=
  ∀ k p, m !! k = Some p → p ∈ l ∧ keyv h p = Some k.
End ARCInv.
End ARCInv.

Module ARCLRUInv.
Section ARCLRUInv.
Context {Key Value : Type} `{Countable Key}.
Import ARCInv ARCLRU.
Implicit Types (c : ARCLRUCache Key Value).

Record inv c (lm lg : list ptr) : Prop := {
  inv_cap : 0 ≤ capacity_ c < 2 ^ 64;
  inv_gcap : ghostCapacity_ c = capacity_ c;
  inv_lists : ∃ mh mt gh gt,
    mainHead_ c = Some mh ∧ mainTail_ c = Some mt
    ∧ ghostHead_ c = Some gh ∧ ghostTail_ c = Some gt
    ∧ two_lists (heap c) (chain mh lm mt) (chain gh lg gt);
  inv_mainMap : agrees (heap c) (mainCache_ c) lm;
  inv_ghostMap : points_into (heap c) (ghostCache_ c) lg
}.

Definition wf c : Prop := ∃ lm lg, inv c lm lg.

Definition bounded c : Prop := Z.of_nat (size (mainCache_ c)) ≤ capacity_ c.
End ARCLRUInv.
End ARCLRUInv.

Module ARCLFUInv.
Section ARCLFUInv.
Context {Key Value : Type} `{Countable Key}.
Import ARCInv ARCLFU.
Implicit Types (c : ARCLFUCache Key Value).

(** The nodes held by the frequency lists. *)
Definition listed (fm : gmap Z (list ptr)) (p : ptr) : Prop :=
  ∃ f l, fm !! f = Some l ∧ p ∈ l.

Record inv c (lg : list ptr) : Prop := {
  inv_cap : 0 ≤ capacity_ c < 2 ^ 64;
  inv_gcap : ghostCapacity_ c = capacity_ c;
  inv_ghost : ∃ gh gt,
    ghostHead_ c = Some gh ∧ ghostTail_ c = Some gt
    ∧ dll (nxv (heap c)) (pvv (heap c)) (chain gh lg gt)
    ∧ ∀ p, listed (freqMap_ c) p → p ∉ chain gh lg gt;
  inv_ghostMap : points_into (heap c) (ghostCache_ c) lg;
  inv_buckets : ∀ f l, freqMap_ c !! f = Some l →
    l ≠ [] ∧ NoDup l ∧ ∀ p, p ∈ l → cntv (heap c) p = Some f;
  inv_mainMap : ∀ k p, mainCache_ c !! k = Some p
                       ↔ listed (freqMap_ c) p ∧ keyv (heap c) p = Some k;
  inv_minFreq : freqMap_ c ≠ ∅ → is_Some (freqMap_ c !! minFreq_ c)
}.

Definition wf c : Prop := ∃ lg, inv c lg.

Definition bounded c : Prop := Z.of_nat (size (mainCache_ c)) ≤ capacity_ c.

Implicit Types (fm : gmap Z (list ptr)).

(** The frequency map after a node moved from the list of [old] to the
    list of [new]. *)
Definition moved fm (p : ptr) (old new : Z) (l : list ptr) : gmap Z (list ptr) :=
  let l' := filter (λ q, q ≠ p) l in
  let fm1 := if decide (l' = []) then delete old fm else <[old := l']> fm in
  <[new := default [] (fm1 !! new) ++ [p]]> fm1.

Definition moved_minFreq (mf : Z) (p : ptr) (old new : Z) (l : list ptr) : Z :=
  let l' := filter (λ q, q ≠ p) l in
  Z.min (if decide (l' = []) then (if decide (mf = old) then new else mf) else mf)
        new.

(** The frequency map after the front node of the list of [mf] left. *)
Definition popped fm (mf : Z) (l : list ptr) : gmap Z (list ptr) :=
  if decide (l = []) then delete mf fm else <[mf := l]> fm.

(** The frequency map after a new node entered the list of frequency 1. *)
Definition pushed fm (p : ptr) : gmap Z (list ptr) :=
  <[1 := default [] (fm !! 1) ++ [p]]> fm.
End ARCLFUInv.
End ARCLFUInv.

Module ARCTopInv.
Section ARCTopInv.
Context {Key Value : Type} `{Countable Key}.
Context `{DefaultConstructible Key} `{DefaultConstructible Value}.
Import ARC.
Implicit Types (c : ARCCache Key Value).

Definition capL c : Z := ARCLRU.capacity_ (lruCache_ c).
Definition capF c : Z := ARCLFU.capacity_ (lfuCache_ c).
Definition mainL c : gmap Key ptr := ARCLRU.mainCache_ (lruCache_ c).
Definition mainF c : gmap Key ptr := ARCLFU.mainCache_ (lfuCache_ c).

(** Both halves are well formed and within their capacities, which sum to
    twice the declared capacity. *)
Record wf c : Prop := {
  wf_lru : ARCLRUInv.wf (lruCache_ c);
  wf_lfu : ARCLFUInv.wf (lfuCache_ c);
  wf_lru_bounded : ARCLRUInv.bounded (lruCache_ c);
  wf_lfu_bounded : ARCLFUInv.bounded (lfuCache_ c);
  wf_sum : capL c + capF c = 2 * capacity_ c;
  wf_range : 2 * capacity_ c < 2 ^ 64
}.
End ARCTopInv.
End ARCTopInv.

Module FreqListInv.
Section FreqListInv.
Context {Key Value : Type}.
Implicit Types (h : gmap ptr (FreqList.LFUNode Key Value)) (l : FreqList.FreqList).

Definition nxv h (a : ptr) : NodePtr := n ← h !! a; FreqList.next n.
Definition pvv h (a : ptr) : NodePtr := n ← h !! a; FreqList.prev n.
(** The frequency, key and value of a node. *)
Definition infov h (a : ptr) : option (Z * Key * Value) :=
  (λ n, (FreqList.freq n, FreqList.key n, FreqList.val n)) <$> h !! a.

(** The list [l] holds the nodes [s], the oldest first, between its two
    sentinels. *)
Definition holds l h (s : list ptr) : Prop :=
  ∃ hd tl, FreqList.dummyHead_ l = Some hd ∧ FreqList.dummyTail_ l = Some tl
           ∧ dll (nxv h) (pvv h) (hd :: s ++ [tl]).
End FreqListInv.
End FreqListInv.

Module HashInv.
Section HashInv.
Context {Key Value : Type} `{Countable Key}.
Context `{DefaultConstructible Key} `{DefaultConstructible Value}.
Variable hashFunc : Key → Z.

(** A call of [put] or of the two-argument [get] on the wrapper. *)
Definition LRUHash_step (c : LRUHash.LRUHashCache Key Value) (o : op Key Value)
  : option (LRUHash.LRUHashCache Key Value) :=
  match o with
  | Put k v => LRUHash.put hashFunc k v c
  | Get k => '(_, _, c) ← LRUHash.get hashFunc k value_init c; Some c
  end.

Definition LRUHash_run (ops : list (op Key Value))
    (c : LRUHash.LRUHashCache Key Value)
  : option (LRUHash.LRUHashCache Key Value) :=
  foldl (λ acc o, c ← acc; LRUHash_step c o) (Some c) ops.

(** Every shard is a well-formed [LRUCache] of capacity [q], and there
    are [n] of them. *)
Definition sharded (n q : Z) (c : LRUHash.LRUHashCache Key Value) : Prop :=
  LRUHash.sliceNum_ c = n
  ∧ Z.of_nat (length (LRUHash.lruSliceCaches_ c)) = n
  ∧ Forall (λ s, LRUInv.wf s ∧ LRU.capacity_ s = q) (LRUHash.lruSliceCaches_ c).
End HashInv.
End HashInv.

(** * Properties *)

(** ** Chains of links *)

Section PathFacts.
Implicit Types (f g nx pv : ptr → NodePtr) (s : list ptr) (a b x p n : ptr).

Lemma path_cons f a b s : path f (a :: b :: s) ↔ f a = Some b ∧ path f (b :: s).
Proof. reflexivity. Qed.

Lemma path_app f s1 a s2 :
  path f (s1 ++ a :: s2) ↔ path f (s1 ++ [a]) ∧ path f (a :: s2).
Proof.
  induction s1 as [|b s1 IH]; simpl; [tauto|].
  rewrite IH. destruct s1; simpl; tauto.
Qed.

Lemma path_ext_snoc f g s a :
  (∀ b, b ∈ s → g b = f b) → path f (s ++ [a]) → path g (s ++ [a]).
Proof.
  induction s as [|b s IH]; intros Hfg; [done|].
  destruct s as [|b' s].
  - simpl. intros [Hb _]. split; [|done]. rewrite Hfg; [done|set_solver].
  - change ((b :: b' :: s) ++ [a]) with (b :: b' :: (s ++ [a])).
    rewrite !path_cons. intros [Hb Hs]. split.
    + rewrite Hfg; [done|set_solver].
    + apply IH; [|done]. intros c Hc. apply Hfg. set_solver.
Qed.

Lemma path_ext f g s : (∀ b, b ∈ s → g b = f b) → path f s → path g s.
Proof.
  destruct (decide (s = [])) as [->|Hne]; [done|].
  destruct (exists_last Hne) as (s' & a & ->).
  intros Hfg. apply path_ext_snoc. intros b Hb. apply Hfg. set_solver.
Qed.

Lemma path_unlink f g pre p x n post :
  NoDup (pre ++ p :: x :: n :: post) →
  path f (pre ++ p :: x :: n :: post) →
  g p = Some n →
  (∀ a, a ≠ p → a ≠ x → g a = f a) →
  path g (pre ++ p :: n :: post).
Proof.
  intros Hnd Hp Hgp Hfr.
  apply NoDup_app in Hnd as (Hpre & Hdisj & Hnd).
  apply NoDup_cons in Hnd as (Hp1 & Hnd).
  apply NoDup_cons in Hnd as (Hx1 & Hnd).
  apply path_app in Hp as [Hp1' Hp2].
  rewrite !path_cons in Hp2. destruct Hp2 as (_ & _ & Hp2).
  apply path_app. split.
  - eapply path_ext_snoc; [|done]. intros b Hb. apply Hfr.
    + intros ->. eapply Hdisj; [done|]. set_solver.
    + intros ->. eapply Hdisj; [done|]. set_solver.
  - rewrite path_cons. split; [done|].
    eapply path_ext; [|done]. intros b Hb. apply Hfr.
    + intros ->. apply Hp1. set_solver.
    + intros ->. apply Hx1. set_solver.
Qed.

Lemma path_insert f g pre p x n post :
  NoDup (pre ++ p :: n :: post) →
  x ∉ pre ++ p :: n :: post →
  path f (pre ++ p :: n :: post) →
  g p = Some x → g x = Some n →
  (∀ a, a ≠ p → a ≠ x → g a = f a) →
  path g (pre ++ p :: x :: n :: post).
Proof.
  intros Hnd Hx Hp Hgp Hgx Hfr.
  apply NoDup_app in Hnd as (Hpre & Hdisj & Hnd).
  apply NoDup_cons in Hnd as (Hp1 & Hnd).
  apply path_app in Hp as [Hp1' Hp2].
  rewrite path_cons in Hp2. destruct Hp2 as (_ & Hp2).
  apply path_app. split.
  - eapply path_ext_snoc; [|done]. intros b Hb. apply Hfr.
    + intros ->. eapply Hdisj; [done|]. set_solver.
    + intros ->. apply Hx. set_solver.
  - rewrite !path_cons. split_and!; [done..|].
    eapply path_ext; [|done]. intros b Hb. apply Hfr.
    + intros ->. apply Hp1. set_solver.
    + intros ->. apply Hx. set_solver.
Qed.

Lemma NoDup_reverse (s : list ptr) : NoDup s → NoDup (reverse s).
Proof. by rewrite reverse_Permutation. Qed.

Lemma reverse_mid3 (pre : list ptr) p x n post :
  reverse (pre ++ p :: x :: n :: post) = reverse post ++ n :: x :: p :: reverse pre.
Proof. by rewrite reverse_app, !reverse_cons, <-!app_assoc. Qed.

Lemma reverse_mid2 (pre : list ptr) p n post :
  reverse (pre ++ p :: n :: post) = reverse post ++ n :: p :: reverse pre.
Proof. by rewrite reverse_app, !reverse_cons, <-!app_assoc. Qed.

Lemma dll_ext nx pv nx' pv' s :
  (∀ a, a ∈ s → nx' a = nx a ∧ pv' a = pv a) → dll nx pv s → dll nx' pv' s.
Proof.
  intros Hfr (Hnd & Hn & Hp). split_and!; [done|..].
  - eapply path_ext; [|done]. intros b Hb. by apply Hfr.
  - eapply path_ext; [|done]. intros b Hb. apply Hfr. by apply elem_of_reverse.
Qed.

Lemma dll_unlink nx pv nx' pv' pre p x n post :
  dll nx pv (pre ++ p :: x :: n :: post) →
  nx' p = Some n → pv' n = Some p →
  (∀ a, a ≠ p → a ≠ x → nx' a = nx a) →
  (∀ a, a ≠ n → a ≠ x → pv' a = pv a) →
  dll nx' pv' (pre ++ p :: n :: post).
Proof.
  intros (Hnd & Hn & Hp) Hnp Hpn Hfn Hfp. split_and!.
  - apply NoDup_app in Hnd as (? & ? & Hnd). apply NoDup_app. split_and!; [done| |].
    + set_solver.
    + apply NoDup_cons in Hnd as (? & Hnd). apply NoDup_cons in Hnd as (? & Hnd).
      apply NoDup_cons. set_solver.
  - by eapply path_unlink.
  - rewrite reverse_mid3 in Hp. rewrite reverse_mid2.
    eapply path_unlink; [|done..].
    rewrite <-reverse_mid3. by apply NoDup_reverse.
Qed.

Lemma dll_insert nx pv nx' pv' pre p x n post :
  dll nx pv (pre ++ p :: n :: post) →
  x ∉ pre ++ p :: n :: post →
  nx' p = Some x → nx' x = Some n → pv' n = Some x → pv' x = Some p →
  (∀ a, a ≠ p → a ≠ x → nx' a = nx a) →
  (∀ a, a ≠ n → a ≠ x → pv' a = pv a) →
  dll nx' pv' (pre ++ p :: x :: n :: post).
Proof.
  intros (Hnd & Hn & Hp) Hx Hnp Hnx Hpn Hpx Hfn Hfp. split_and!.
  - apply NoDup_app in Hnd as (? & ? & Hnd). apply NoDup_app. split_and!; [done| |].
    + set_solver.
    + apply NoDup_cons in Hnd as (? & Hnd).
      apply NoDup_cons. split; [set_solver|]. apply NoDup_cons. set_solver.
  - by eapply path_insert.
  - rewrite reverse_mid2 in Hp. rewrite reverse_mid3.
    eapply path_insert; [| |done..].
    + rewrite <-reverse_mid2. by apply NoDup_reverse.
    + intros Hin. apply Hx. revert Hin. rewrite !elem_of_app, !elem_of_cons, !elem_of_reverse. set_solver.
Qed.
End PathFacts.

Section chains.
Implicit Types (s l pre post : list ptr).
Lemma dll_adj nx pv pre p n post :
  dll nx pv (pre ++ p :: n :: post) → nx p = Some n ∧ pv n = Some p ∧ p ≠ n.
Proof.
  intros (Hnd & Hn & Hp). rewrite reverse_mid2 in Hp.
  apply path_app in Hn as [_ [Hn _]]. apply path_app in Hp as [_ [Hp _]].
  split_and!; [done..|]. intros ->.
  apply NoDup_app in Hnd as (_ & _ & Hnd). apply NoDup_cons in Hnd as [Hnd _].
  apply Hnd. by left.
Qed.

Lemma dll_mid nx pv pre p x n post :
  dll nx pv (pre ++ p :: x :: n :: post) →
  nx p = Some x ∧ nx x = Some n ∧ pv n = Some x ∧ pv x = Some p
  ∧ p ≠ x ∧ x ≠ n ∧ p ≠ n.
Proof.
  intros Hd. pose proof (dll_adj _ _ _ _ _ _ Hd) as (? & ? & ?).
  change (pre ++ p :: x :: n :: post) with (pre ++ [p] ++ x :: n :: post) in Hd.
  rewrite app_assoc in Hd.
  pose proof (dll_adj _ _ _ _ _ _ Hd) as (? & ? & ?).
  split_and!; [done..|]. intros ->.
  destruct Hd as (Hnd & _). rewrite <-app_assoc in Hnd.
  apply NoDup_app in Hnd as (_ & _ & Hnd). simpl in Hnd.
  apply NoDup_cons in Hnd as [Hnd _]. apply Hnd. right. by left.
Qed.

Lemma chain_split_at (hd tl : ptr) l1 x l2 :
  ∃ pre p n post,
    hd :: (l1 ++ x :: l2) ++ [tl] = pre ++ p :: x :: n :: post
    ∧ hd :: (l1 ++ l2) ++ [tl] = pre ++ p :: n :: post.
Proof.
  destruct (decide (l1 = [])) as [->|Hne].
  - exists [], hd. destruct l2 as [|n l2].
    + by exists tl, [].
    + by exists n, (l2 ++ [tl]).
  - destruct (exists_last Hne) as (l1' & p & ->).
    exists (hd :: l1'), p. destruct l2 as [|n l2].
    + exists tl, []. simpl. by rewrite <-!app_assoc.
    + exists n, (l2 ++ [tl]). simpl. by rewrite <-!app_assoc.
Qed.

Lemma chain_split (hd tl : ptr) l x :
  x ∈ l → ∃ l1 l2 pre p n post,
    l = l1 ++ x :: l2
    ∧ hd :: l ++ [tl] = pre ++ p :: x :: n :: post
    ∧ hd :: (l1 ++ l2) ++ [tl] = pre ++ p :: n :: post.
Proof.
  intros (l1 & l2 & ->)%list_elem_of_split. exists l1, l2.
  destruct (chain_split_at hd tl l1 x l2) as (pre & p & n & post & ? & ?).
  by exists pre, p, n, post.
Qed.

Lemma path_defined f s b a : path f (s ++ [b]) → a ∈ s → is_Some (f a).
Proof.
  induction s as [|a' s IH]; [set_solver|].
  intros Hp [->|Hin]%elem_of_cons.
  - destruct s; simpl in Hp; destruct Hp as [-> _]; eauto.
  - apply IH; [|done]. simpl in Hp. tauto.
Qed.

Lemma dll_defined nx pv s a :
  dll nx pv s → (2 ≤ length s)%nat → a ∈ s → is_Some (nx a) ∨ is_Some (pv a).
Proof.
  intros (_ & Hn & Hp) Hlen Hin.
  destruct (decide (s = [])) as [->|Hne]; [set_solver|].
  destruct (exists_last Hne) as (s' & b & ->).
  apply elem_of_app in Hin as [Hin|Hin].
  - left. by eapply path_defined.
  - right. apply list_elem_of_singleton in Hin as ->.
    rewrite reverse_app in Hp. simpl in Hp.
    destruct (reverse s') as [|b' r] eqn:Hr.
    + apply (f_equal reverse) in Hr. rewrite reverse_involutive in Hr.
      subst. simpl in Hlen. lia.
    + simpl in Hp. destruct Hp as [-> _]. eauto.
Qed.

Lemma chain_last (hd tl : ptr) l :
  ∃ pre p, hd :: l ++ [tl] = pre ++ [p; tl]
           ∧ ∀ x, hd :: (l ++ [x]) ++ [tl] = pre ++ [p; x; tl].
Proof.
  destruct (decide (l = [])) as [->|Hne].
  - by exists [], hd.
  - destruct (exists_last Hne) as (l' & p & ->).
    exists (hd :: l'), p. simpl. rewrite <-!app_assoc. split; [done|].
    intros x. by rewrite <-!app_assoc.
Qed.
End chains.

Module LRUFacts.
Section LRUFacts.
Context {Key Value : Type} `{Countable Key}.
Context `{DefaultConstructible Key} `{DefaultConstructible Value}.
Import LRU LRUInv.
Implicit Types (h : gmap ptr (LRUNode Key Value)) (c : LRUCache Key Value).

Lemma LRU_nxv_insert h q n a :
  nxv (<[q := n]> h) a = if decide (a = q) then next_ n else nxv h a.
Proof.
  unfold nxv. case_decide as Ha; [subst; by rewrite lookup_insert_eq|].
  by rewrite lookup_insert_ne.
Qed.
Lemma LRU_pvv_insert h q n a :
  pvv (<[q := n]> h) a = if decide (a = q) then prev_ n else pvv h a.
Proof.
  unfold pvv. case_decide as Ha; [subst; by rewrite lookup_insert_eq|].
  by rewrite lookup_insert_ne.
Qed.
Lemma datav_insert h q n a :
  datav (<[q := n]> h) a
  = if decide (a = q) then Some (key_ n, val_ n) else datav h a.
Proof.
  unfold datav. case_decide as Ha; [subst; by rewrite lookup_insert_eq|].
  by rewrite lookup_insert_ne.
Qed.

Lemma LRU_nxv_Some h a b : nxv h a = Some b → ∃ n, h !! a = Some n ∧ next_ n = Some b.
Proof. unfold nxv. destruct (h !! a) as [n|]; [|done]. eauto. Qed.
Lemma LRU_pvv_Some h a b : pvv h a = Some b → ∃ n, h !! a = Some n ∧ prev_ n = Some b.
Proof. unfold pvv. destruct (h !! a) as [n|]; [|done]. eauto. Qed.

Ltac view_solve :=
  intros; rewrite ?LRU_nxv_insert, ?LRU_pvv_insert, ?datav_insert;
  repeat case_decide; simplify_eq; unfold nxv, pvv, datav; simpl;
  repeat match goal with
         | H : ?h !! ?a = Some _ |- context [?h !! ?a] => rewrite H
         end; done.

Ltac heap_run :=
  repeat first
    [ rewrite lookup_insert_eq
    | rewrite lookup_insert_ne by done
    | match goal with
      | H : ?h !! ?a = Some _ |- context [?h !! ?a] => rewrite H
      | H : ?f ?n = Some _ |- context [?f ?n] => rewrite H
      end
    | progress simpl ].

(** The effect of [removeNode] on a node in the middle of a chain. *)
Lemma removeNode_mid c pre p x n post :
  dll (nxv (heap c)) (pvv (heap c)) (pre ++ p :: x :: n :: post) →
  ∃ h', removeNode (Some x) c = Some (with_heap h' c)
        ∧ dll (nxv h') (pvv h') (pre ++ p :: n :: post)
        ∧ (∀ a, datav h' a = datav (heap c) a)
        ∧ nxv h' x = None.
Proof.
  intros Hd.
  destruct (dll_mid _ _ _ _ _ _ _ Hd) as (Hpx & Hxn & Hnx & Hxp & ? & ? & ?).
  apply LRU_nxv_Some in Hpx as (np & Hp & _).
  apply LRU_nxv_Some in Hxn as (nx & Hx & Hxn).
  apply LRU_pvv_Some in Hnx as (nn & Hn & _).
  apply LRU_pvv_Some in Hxp as (nx' & Hx' & Hxp).
  assert (nx' = nx) as -> by congruence. clear Hx'.
  eexists. split.
  - unfold removeNode, rd, wr_next, wr_prev. heap_run. reflexivity.
  - split_and!.
    + eapply dll_unlink; [exact Hd|..].
      * view_solve.
      * view_solve.
      * view_solve.
      * view_solve.
    + view_solve.
    + view_solve.
Qed.

Lemma insertNode_last c pre p x nx :
  dll (nxv (heap c)) (pvv (heap c)) (pre ++ [p; dummyTail_ c]) →
  heap c !! x = Some nx →
  x ∉ pre ++ [p; dummyTail_ c] →
  ∃ h', insertNode (Some x) c = Some (with_heap h' c)
        ∧ dll (nxv h') (pvv h') (pre ++ [p; x; dummyTail_ c])
        ∧ (∀ a, datav h' a = datav (heap c) a).
Proof.
  intros Hd Hx Hnin.
  destruct (dll_adj _ _ _ _ _ _ Hd) as (Hpt & Htp & ?).
  apply LRU_nxv_Some in Hpt as (np & Hp & _).
  apply LRU_pvv_Some in Htp as (nt & Ht & Htp).
  assert (x ≠ p) by (intros ->; apply Hnin; set_solver).
  assert (x ≠ dummyTail_ c) by (intros ->; apply Hnin; set_solver).
  eexists. split.
  - unfold insertNode, rd, wr_next, wr_prev. heap_run. reflexivity.
  - split.
    + eapply dll_insert; [exact Hd|done|..].
      * view_solve.
      * view_solve.
      * view_solve.
      * view_solve.
      * view_solve.
      * view_solve.
    + view_solve.
Qed.

Lemma datav_alloc h a kv : datav h a = Some kv → is_Some (h !! a).
Proof. unfold datav. destruct (h !! a); [eauto|done]. Qed.

Lemma chain_alloc c l a : inv c l → a ∈ chain c l → is_Some (heap c !! a).
Proof.
  intros [_ Hd _] Hin.
  destruct (dll_defined _ _ _ a Hd) as [[b Hb]|[b Hb]]; [|done|..].
  - unfold chain. simpl. rewrite length_app. simpl. lia.
  - apply LRU_nxv_Some in Hb as (? & ? & _). eauto.
  - apply LRU_pvv_Some in Hb as (? & ? & _). eauto.
Qed.

(** Map agreement carries over when the map, the keys and the members of
    the list are the same. *)
Lemma inv_transfer c l h' l' :
  inv c l →
  dll (nxv h') (pvv h') (chain c l') →
  (∀ a, fst <$> datav h' a = fst <$> datav (heap c) a) →
  (∀ a, a ∈ l' ↔ a ∈ l) →
  inv (with_heap h' c) l'.
Proof.
  intros [Hint _ Hm] Hd Hk Hl. split; [done..|]. simpl.
  intros k p. rewrite Hm, Hk, Hl. done.
Qed.

Lemma moveToMostRecent_inv c l1 x l2 :
  inv c (l1 ++ x :: l2) →
  ∃ h', moveToMostRecent (Some x) c = Some (with_heap h' c)
        ∧ inv (with_heap h' c) ((l1 ++ l2) ++ [x])
        ∧ (∀ a, datav h' a = datav (heap c) a).
Proof.
  intros Hinv.
  destruct (chain_split_at (dummyHead_ c) (dummyTail_ c) l1 x l2)
    as (pre & p & n & post & Hs & Hs').
  pose proof (inv_dll _ _ Hinv) as Hd. unfold chain in Hd. rewrite Hs in Hd.
  destruct (removeNode_mid c pre p x n post Hd) as (h1 & Hrm & Hd1 & Hdat1 & _).
  rewrite <-Hs' in Hd1.
  destruct (chain_last (dummyHead_ c) (dummyTail_ c) (l1 ++ l2))
    as (pre' & p' & Hc & Hc').
  rewrite Hc in Hd1.
  assert (NoDup (chain c (l1 ++ x :: l2))) as Hnd by apply Hinv.
  assert (x ∉ pre' ++ [p'; dummyTail_ c]) as Hnin.
  { rewrite <-Hc. unfold chain in Hnd. revert Hnd.
    rewrite !NoDup_cons, !NoDup_app, !NoDup_cons. set_solver. }
  destruct (chain_alloc c _ x Hinv) as [nx Hnx]; [unfold chain; set_solver|].
  assert (is_Some (h1 !! x)) as [nx1 Hnx1].
  { apply (datav_alloc _ _ (key_ nx, val_ nx)). rewrite Hdat1.
    unfold datav. by rewrite Hnx. }
  destruct (insertNode_last (with_heap h1 c) pre' p' x nx1)
    as (h2 & Hins & Hd2 & Hdat2); [done..|].
  exists h2. split_and!.
  - unfold moveToMostRecent. rewrite Hrm. simpl. exact Hins.
  - eapply inv_transfer; [done|..].
    + unfold chain. by rewrite Hc'.
    + intros a. by rewrite Hdat2, Hdat1.
    + set_solver.
  - intros a. by rewrite Hdat2, Hdat1.
Qed.

Lemma nodeMap_in_list c l k p : inv c l → nodeMap_ c !! k = Some p → p ∈ l.
Proof. intros [_ _ Hm] Hk. by apply Hm in Hk as [? _]. Qed.

Lemma LRU_evictLeastRecent_inv c x l :
  inv c (x :: l) →
  ∃ c' k, evictLeastRecent c = Some c'
          ∧ inv c' l
          ∧ nodeMap_ c !! k = Some x
          ∧ nodeMap_ c' = delete k (nodeMap_ c)
          ∧ capacity_ c' = capacity_ c
          ∧ (∀ a, datav (heap c') a = datav (heap c) a).
Proof.
  intros Hinv. pose proof (inv_dll _ _ Hinv) as Hd.
  assert (NoDup (x :: l)) as Hndl.
  { destruct Hd as [Hnd _]. unfold chain in Hnd.
    apply NoDup_cons in Hnd as [_ Hnd]. by apply NoDup_app in Hnd as [? _]. }
  assert (∃ n post, l ++ [dummyTail_ c] = n :: post) as (n & post & Hs').
  { destruct l; simpl; eauto. }
  unfold chain in Hd. simpl in Hd. rewrite Hs' in Hd.
  change (dummyHead_ c :: x :: n :: post)
    with ([] ++ dummyHead_ c :: x :: n :: post) in Hd.
  destruct (dll_mid _ _ [] _ _ _ _ Hd) as (Hhx & _).
  apply LRU_nxv_Some in Hhx as (nh & Hh & Hhx).
  destruct (removeNode_mid c [] _ x n post Hd) as (h1 & Hrm & Hd1 & Hdat1 & _).
  destruct (chain_alloc c _ x Hinv) as [nx Hnx]; [unfold chain; set_solver|].
  assert (datav h1 x = Some (key_ nx, val_ nx)) as Hdx.
  { rewrite Hdat1. unfold datav. by rewrite Hnx. }
  unfold datav in Hdx. destruct (h1 !! x) as [nx1|] eqn:Hnx1; simplify_eq/=.
  exists (with_map (delete (key_ nx1) (nodeMap_ c)) (with_heap h1 c)), (key_ nx1).
  split_and!; [|split|..]; simpl; try done.
  - unfold evictLeastRecent, rd. simpl. rewrite Hh. simpl. rewrite Hhx.
    rewrite Hrm. simpl. rewrite Hnx1. simpl. reflexivity.
  - apply Hinv.
  - unfold chain. simpl. by rewrite Hs'.
  - intros k q. rewrite lookup_delete. case_decide as Hk.
    + subst k. split; [done|]. intros [Hq Hkq]. exfalso.
      assert (nodeMap_ c !! key_ nx1 = Some q) as Hq'.
      { apply Hinv. split; [set_solver|]. by rewrite <-Hdat1. }
      assert (nodeMap_ c !! key_ nx1 = Some x) as Hx'.
      { apply Hinv. split; [set_solver|]. unfold datav. rewrite Hnx. simpl. congruence. }
      apply NoDup_cons in Hndl as [Hndl _]. congruence.
    + rewrite (inv_map _ _ Hinv). rewrite Hdat1. split.
      * intros [[->|Hq]%elem_of_cons Hkq]; [|done].
        unfold datav in Hkq. rewrite Hnx in Hkq. simpl in Hkq. congruence.
      * intros [Hq Hkq]. split; [set_solver|done].
  - apply Hinv. split; [set_solver|]. unfold datav. rewrite Hnx. simpl. congruence.
Qed.

Lemma LRU_fresh_not_alloc h : h !! fresh (dom h) = None.
Proof. apply not_elem_of_dom, is_fresh. Qed.

Lemma LRU_new_inv capacity :
  - 2 ^ 31 ≤ capacity < 2 ^ 31 →
  ∃ c, new capacity = Some c ∧ inv c [] ∧ capacity_ c = capacity
       ∧ nodeMap_ c = ∅.
Proof.
  intros Hcap. eexists. split; [|split_and!].
  - unfold new, initializeList, make_shared, wr_next, wr_prev. simpl.
    rewrite dom_empty_L.
    set (hd := fresh (∅ : gset ptr)).
    rewrite dom_insert_L.
    set (tl := fresh ({[hd]} ∪ ∅ : gset ptr)).
    assert (tl ≠ hd) by (pose proof (is_fresh ({[hd]} ∪ ∅ : gset ptr)); set_solver).
    heap_run. reflexivity.
  - set (hd := fresh (∅ : gset ptr)).
    set (tl := fresh ({[hd]} ∪ ∅ : gset ptr)).
    assert (tl ≠ hd) by (pose proof (is_fresh ({[hd]} ∪ ∅ : gset ptr)); set_solver).
    split; simpl; [done| |].
    + unfold chain. simpl. split_and!.
      * apply NoDup_cons. split; [set_solver|]. apply NoDup_singleton.
      * simpl. split; [|done]. view_solve.
      * simpl. split; [|done]. view_solve.
    + intros k p. rewrite lookup_empty. set_solver.
  - done.
  - done.
Qed.

Lemma setValue_inv c l x v :
  inv c l → x ∈ l →
  ∃ h', setValue (Some x) v c = Some (with_heap h' c)
        ∧ inv (with_heap h' c) l
        ∧ (∀ a, datav h' a
                = if decide (a = x) then (λ kv, (kv.1, v)) <$> datav (heap c) a
                  else datav (heap c) a).
Proof.
  intros Hinv Hx.
  destruct (chain_alloc c l x Hinv) as [nx Hnx]; [unfold chain; set_solver|].
  eexists. split; [|split].
  - unfold setValue. heap_run. reflexivity.
  - eapply inv_transfer; [done| |view_solve|done].
    eapply dll_ext; [|apply Hinv]. intros a _. split; view_solve.
  - view_solve.
Qed.

Lemma size_pos_elem c l :
  inv c l → (0 < size (nodeMap_ c))%nat → ∃ x l', l = x :: l'.
Proof.
  intros Hinv Hsz.
  destruct (map_choose (nodeMap_ c)) as (k & p & Hkp).
  { intros Hemp. rewrite Hemp, map_size_empty in Hsz. lia. }
  apply (nodeMap_in_list _ _ _ _ Hinv) in Hkp. destruct l; [set_solver|eauto].
Qed.

Lemma addNode_inv c l key val :
  inv c l → nodeMap_ c !! key = None → 0 < capacity_ c →
  ∃ c' p, addNode key val c = Some c'
        ∧ inv c' ((if size_ge_int (size (nodeMap_ c)) (capacity_ c)
                   then tail l else l) ++ [p])
        ∧ p ∉ l
        ∧ datav (heap c') p = Some (key, val)
        ∧ (∀ a, a ≠ p → datav (heap c') a = datav (heap c) a)
        ∧ capacity_ c' = capacity_ c
        ∧ nodeMap_ c' !! key ≠ None
        ∧ (bounded c → bounded c').
Proof.
  intros Hinv Hkey Hcap. unfold addNode.
  assert (to_size_t (capacity_ c) = capacity_ c) as Hsz.
  { unfold to_size_t. apply Z.mod_small. destruct Hinv as [? _ _]. lia. }
  set (l1 := if size_ge_int (size (nodeMap_ c)) (capacity_ c) then tail l else l).
  (* the state after the optional eviction *)
  assert (∃ c1, (if size_ge_int (size (nodeMap_ c)) (capacity_ c)
                 then evictLeastRecent c else Some c) = Some c1
                ∧ inv c1 l1 ∧ capacity_ c1 = capacity_ c
                ∧ nodeMap_ c1 !! key = None
                ∧ (bounded c → Z.of_nat (size (nodeMap_ c1)) < capacity_ c)
                ∧ (∀ a, datav (heap c1) a = datav (heap c) a))
    as (c1 & -> & Hinv1 & Hcap1 & Hkey1 & Hb1 & Hdat1).
  { subst l1. unfold size_ge_int. rewrite Hsz. case_bool_decide as Hfull.
    - destruct (size_pos_elem c l Hinv) as (x & l' & ->); [lia|].
      destruct (LRU_evictLeastRecent_inv c x l' Hinv)
        as (c1 & k & -> & ? & Hk & Hm & ? & ?).
      exists c1. split_and!; [done..| | |done].
      + rewrite Hm. rewrite lookup_delete_ne; [done|congruence].
      + unfold bounded. rewrite Hm. intros ?.
        rewrite map_size_delete_Some by eauto. lia.
    - exists c. split_and!; [done..| |done]. lia. }
  simpl. unfold make_shared.
  set (p := fresh (dom (heap c1))).
  assert (heap c1 !! p = None) as Hp by apply LRU_fresh_not_alloc.
  set (c2 := with_heap (<[p := mkNode key val 1 None None]> (heap c1)) c1).
  assert (p ∉ chain c1 l1) as Hpn.
  { intros Hin. destruct (chain_alloc c1 l1 p Hinv1 Hin) as [? ?]. congruence. }
  assert (p ∉ l) as Hpl.
  { intros Hin. destruct (chain_alloc c l p Hinv) as [np Hnp]; [unfold chain; set_solver|].
    assert (datav (heap c1) p = Some (key_ np, val_ np)) as Hdp.
    { rewrite Hdat1. unfold datav. by rewrite Hnp. }
    unfold datav in Hdp. by rewrite Hp in Hdp. }
  destruct (chain_last (dummyHead_ c1) (dummyTail_ c1) l1) as (pre & q & Hc & Hc').
  assert (dll (nxv (heap c2)) (pvv (heap c2)) (pre ++ [q; dummyTail_ c2])) as Hd2.
  { simpl. rewrite <-Hc. eapply dll_ext; [|apply Hinv1].
    intros a Ha. assert (a ≠ p) by (intros ->; done). split; view_solve. }
  destruct (insertNode_last c2 pre q p (mkNode key val 1 None None))
    as (h3 & -> & Hd3 & Hdat3).
  { done. }
  { simpl. by rewrite lookup_insert_eq. }
  { simpl. by rewrite <-Hc. }
  simpl. eexists _, p. split; [reflexivity|]. split_and!; simpl.
  - split; simpl.
    + rewrite Hcap1. apply Hinv.
    + unfold chain. simpl. by rewrite Hc'.
    + intros k a. rewrite Hdat3. simpl. rewrite lookup_insert.
      rewrite datav_insert. rewrite elem_of_app, list_elem_of_singleton.
      case_decide as Hk.
      * subst k. split.
        -- intros [= <-]. split; [by right|]. by rewrite decide_True.
        -- intros [[Ha|Ha] Hka]; [|by subst].
           case_decide; [by subst|]. exfalso.
           assert (nodeMap_ c1 !! key = Some a) as Hka' by by apply Hinv1.
           congruence.
      * rewrite (inv_map _ _ Hinv1). split.
        -- intros [Ha Hka]. split; [by left|].
           rewrite decide_False; [done|]. intros ->. apply Hpn.
           unfold chain. set_solver.
        -- intros [[Ha| ->] Hka].
           ++ split; [done|]. rewrite decide_False in Hka; [done|].
              intros ->. apply Hpn. unfold chain. set_solver.
           ++ rewrite decide_True in Hka by done. simpl in Hka. congruence.
  - done.
  - rewrite Hdat3. simpl. rewrite datav_insert. by rewrite decide_True.
  - intros a Ha. rewrite Hdat3. simpl. rewrite datav_insert.
    rewrite decide_False by done. apply Hdat1.
  - done.
  - by rewrite lookup_insert_eq.
  - unfold bounded. simpl. intros Hb. specialize (Hb1 Hb).
    rewrite map_size_insert_None by done. lia.
Qed.

Lemma LRU_put_inv c key val :
  wf c →
  ∃ c', put key val c = Some c' ∧ wf c' ∧ capacity_ c' = capacity_ c
        ∧ (bounded c → bounded c')
        ∧ (0 < capacity_ c → nodeMap_ c' !! key ≠ None).
Proof.
  intros [l Hinv]. unfold put. case_bool_decide as Hcap.
  { exists c. split_and!; [done|by exists l|done..|lia]. }
  destruct (nodeMap_ c !! key) as [x|] eqn:Hkey.
  - assert (x ∈ l) as Hx by by eapply nodeMap_in_list.
    destruct (setValue_inv c l x val Hinv Hx) as (h1 & Hset & Hinv1 & Hdat1).
    apply list_elem_of_split in Hx as (l1 & l2 & ->).
    destruct (moveToMostRecent_inv _ l1 x l2 Hinv1) as (h2 & Hmv & Hinv2 & Hdat2).
    exists (with_heap h2 c). split_and!.
    + unfold updateExistingNode. rewrite Hset. simpl. exact Hmv.
    + by eexists.
    + done.
    + done.
    + simpl. by rewrite Hkey.
  - destruct (addNode_inv c l key val Hinv Hkey)
      as (c' & p & ? & ? & _ & _ & _ & ? & ? & ?); [lia|].
    exists c'. split_and!; [done|by eexists|done..].
Qed.

Lemma LRU_get_inv c key val :
  wf c →
  ∃ b v c', get key val c = Some (b, v, c') ∧ wf c'
            ∧ capacity_ c' = capacity_ c ∧ nodeMap_ c' = nodeMap_ c
            ∧ b = bool_decide (is_Some (nodeMap_ c !! key))
            ∧ (b = false → v = val ∧ c' = c)
            ∧ (∀ x, nodeMap_ c !! key = Some x
                    → snd <$> datav (heap c) x = Some v).
Proof.
  intros [l Hinv]. unfold get.
  destruct (nodeMap_ c !! key) as [x|] eqn:Hkey.
  - assert (x ∈ l) as Hx by by eapply nodeMap_in_list.
    destruct (chain_alloc c l x Hinv) as [nx Hnx]; [unfold chain; set_solver|].
    apply list_elem_of_split in Hx as (l1 & l2 & ->).
    destruct (moveToMostRecent_inv _ l1 x l2 Hinv) as (h2 & Hmv & Hinv2 & Hdat2).
    assert (is_Some (h2 !! x)) as [nx2 Hnx2].
    { apply (datav_alloc _ _ (key_ nx, val_ nx)). rewrite Hdat2.
      unfold datav. by rewrite Hnx. }
    exists true, (val_ nx2), (with_heap h2 c). split_and!.
    + rewrite Hmv. simpl. unfold rd. simpl. rewrite Hnx2. done.
    + by eexists.
    + done.
    + done.
    + rewrite bool_decide_eq_true_2; eauto.
    + done.
    + intros ? [= <-]. rewrite <-Hdat2. unfold datav. by rewrite Hnx2.
  - exists false, val, c. split_and!; try done. by exists l.
Qed.

Lemma get1_inv c key :
  wf c →
  ∃ v c', get1 key c = Some (v, c') ∧ wf c'
          ∧ capacity_ c' = capacity_ c ∧ nodeMap_ c' = nodeMap_ c
          ∧ (nodeMap_ c !! key = None → v = value_init ∧ c' = c)
          ∧ (∀ x, nodeMap_ c !! key = Some x
                  → snd <$> datav (heap c) x = Some v).
Proof.
  intros Hwf. destruct (LRU_get_inv c key value_init Hwf)
    as (b & v & c' & Hget & ? & ? & ? & Hb & Hmiss & Hhit).
  exists v, c'. unfold get1. rewrite Hget. simpl. split_and!; try done.
  intros Hk. apply Hmiss. rewrite Hb, Hk. apply bool_decide_eq_false_2.
  by intros [? ?].
Qed.

Lemma remove_inv c key :
  wf c →
  ∃ c', remove key c = Some c' ∧ wf c' ∧ capacity_ c' = capacity_ c
        ∧ nodeMap_ c' = delete key (nodeMap_ c).
Proof.
  intros [l Hinv]. unfold remove.
  destruct (nodeMap_ c !! key) as [x|] eqn:Hkey.
  - assert (x ∈ l) as Hx by by eapply nodeMap_in_list.
    destruct (chain_split (dummyHead_ c) (dummyTail_ c) l x Hx)
      as (l1 & l2 & pre & p & n & post & -> & Hs & Hs').
    pose proof (inv_dll _ _ Hinv) as Hd. unfold chain in Hd. rewrite Hs in Hd.
    destruct (removeNode_mid c pre p x n post Hd) as (h1 & Hrm & Hd1 & Hdat1 & _).
    rewrite Hrm. simpl. eexists. split; [reflexivity|]. split_and!; [|done..].
    exists (l1 ++ l2). split; simpl.
    + apply Hinv.
    + unfold chain. simpl. by rewrite Hs'.
    + assert (NoDup (l1 ++ x :: l2)) as Hndl.
      { destruct (inv_dll _ _ Hinv) as [Hnd _]. unfold chain in Hnd.
        apply NoDup_cons in Hnd as [_ Hnd]. by apply NoDup_app in Hnd as [? _]. }
      pose proof (proj1 (inv_map _ _ Hinv key x) Hkey) as [_ Hkx].
      intros k q. rewrite lookup_delete. rewrite Hdat1. case_decide as Hk.
      * subst k. split; [done|]. intros [Hq Hkq]. exfalso.
        assert (nodeMap_ c !! key = Some q) as Hq'.
        { apply Hinv. split; [set_solver|done]. }
        assert (q = x) as -> by congruence.
        apply NoDup_app in Hndl as (_ & Hdisj & Hndl).
        apply NoDup_cons in Hndl as [? _]. set_solver.
      * rewrite (inv_map _ _ Hinv). split.
        -- intros [Hq Hkq]. split; [|done].
           assert (q ≠ x) by congruence. set_solver.
        -- intros [Hq Hkq]. split; [set_solver|done].
  - exists c. split_and!; [done|by exists l|done|].
    by rewrite delete_id.
Qed.
End LRUFacts.
End LRUFacts.

Module LRUKFacts.
Section LRUKFacts.
Context {Key Value : Type} `{Countable Key}.
Context `{DefaultConstructible Key} `{DefaultConstructible Value}.
Import LRUK LRUKInv.
Implicit Types (c : LRUKCache Key Value).

Lemma LRUK_new_wf capatity histCapatity k :
  - 2 ^ 31 ≤ capatity < 2 ^ 31 → - 2 ^ 31 ≤ histCapatity < 2 ^ 31 →
  ∃ c, new capatity histCapatity k = Some c ∧ wf c
       ∧ LRU.capacity_ (base c) = capatity
       ∧ LRU.nodeMap_ (base c) = ∅.
Proof.
  intros Hc Hh. unfold new.
  destruct (LRUFacts.LRU_new_inv (Value:=Value) capatity Hc) as (b & -> & Hb & ? & ?).
  destruct (LRUFacts.LRU_new_inv (Value:=Z) histCapatity Hh) as (h & -> & Hhi & ? & ?).
  simpl. eexists. split; [reflexivity|]. split_and!; simpl; [|done..].
  split; simpl; eexists; eauto.
Qed.

Lemma hist_get1 c key :
  wf c →
  ∃ h, LRU.get1 key (histList_ c) = Some (histCount c key, h) ∧ LRUInv.wf h.
Proof.
  intros [_ Hh].
  destruct (LRUFacts.get1_inv (histList_ c) key Hh)
    as (v & h & Hget & ? & _ & _ & Hmiss & Hhit).
  exists h. split; [|done]. rewrite Hget. do 2 f_equal.
  unfold histCount. destruct (LRU.nodeMap_ (histList_ c) !! key) as [p|] eqn:Hk.
  - specialize (Hhit p eq_refl). unfold LRUInv.datav in Hhit.
    destruct (LRU.heap (histList_ c) !! p); simplify_eq/=. done.
  - by destruct Hmiss.
Qed.

Lemma LRUK_put_inv c key val :
  wf c →
  ∃ c', put key val c = Some c' ∧ wf c'
        ∧ LRU.capacity_ (base c') = LRU.capacity_ (base c)
        ∧ (LRUInv.bounded (base c) → LRUInv.bounded (base c')).
Proof.
  intros Hwf. pose proof Hwf as [Hb Hh]. unfold put.
  destruct (LRUFacts.LRU_get_inv (base c) key value_init Hb)
    as (hit & v & b1 & -> & Hb1 & Hcap1 & Hmap1 & _ & _ & _).
  simpl.
  assert (LRUInv.bounded (base c) → LRUInv.bounded b1) as Hbd1.
  { unfold LRUInv.bounded. by rewrite Hcap1, Hmap1. }
  destruct hit.
  - destruct (LRUFacts.LRU_put_inv b1 key val Hb1) as (b2 & -> & ? & Hcap2 & ? & _).
    simpl. eexists. split; [reflexivity|]. split_and!; simpl.
    + done.
    + congruence.
    + auto.
  - destruct (hist_get1 c key Hwf) as (h1 & -> & Hh1). simpl.
    destruct (LRUFacts.LRU_put_inv h1 key (to_size_t (histCount c key + 1)) Hh1)
      as (h2 & -> & Hh2 & _). simpl.
    destruct (reached _ _).
    + destruct (LRUFacts.remove_inv h2 key Hh2) as (h3 & -> & Hh3 & _). simpl.
      destruct (LRUFacts.LRU_put_inv b1 key val Hb1) as (b2 & -> & ? & Hcap2 & ? & _).
      simpl. eexists. split; [reflexivity|]. split_and!; simpl.
      * done.
      * congruence.
      * auto.
    + eexists. split; [reflexivity|]. split_and!; simpl; done.
Qed.

Lemma LRUK_get_inv c key val :
  wf c →
  ∃ hit v c', get key val c = Some (hit, v, c') ∧ wf c'
        ∧ LRU.capacity_ (base c') = LRU.capacity_ (base c)
        ∧ (LRUInv.bounded (base c) → LRUInv.bounded (base c'))
        ∧ get_result c key val hit v.
Proof.
  intros Hwf. pose proof Hwf as [Hb Hh]. unfold get, get_result.
  destruct (LRUFacts.LRU_get_inv (base c) key val Hb)
    as (hit & v & b1 & -> & Hb1 & Hcap1 & Hmap1 & Hhit & Hmiss & Hval).
  simpl.
  assert (LRUInv.bounded (base c) → LRUInv.bounded b1) as Hbd1.
  { unfold LRUInv.bounded. by rewrite Hcap1, Hmap1. }
  destruct (hist_get1 c key Hwf) as (h1 & -> & Hh1). simpl.
  destruct (LRUFacts.LRU_put_inv h1 key (to_size_t (histCount c key + 1)) Hh1)
    as (h2 & -> & Hh2 & _). simpl.
  destruct (LRU.nodeMap_ (base c) !! key) as [x|] eqn:Hk.
  - rewrite bool_decide_eq_true_2 in Hhit by eauto. subst hit.
    eexists _, _, _. split; [reflexivity|]. split_and!; simpl; try done.
    by apply Hval.
  - rewrite bool_decide_eq_false_2 in Hhit by (by intros [? ?]). subst hit.
    destruct (Hmiss eq_refl) as [-> ->].
    destruct (reached _ _).
    + destruct (histValMap_ c !! key) as [pending|].
      * destruct (LRUFacts.remove_inv h2 key Hh2) as (h3 & -> & Hh3 & _). simpl.
        destruct (LRUFacts.LRU_put_inv (base c) key pending Hb)
          as (b2 & -> & ? & Hcap2 & ? & _).
        simpl. eexists _, _, _. split; [reflexivity|]. split_and!; simpl; done.
      * eexists _, _, _. split; [reflexivity|]. split_and!; simpl; done.
    + eexists _, _, _. split; [reflexivity|]. split_and!; simpl; done.
Qed.

End LRUKFacts.
End LRUKFacts.

(** ** The recency order of [LRUCache] *)

Module LRUOrderFacts.
Section LRUOrderFacts.
Context {Key Value : Type} `{Countable Key}.
Context `{DefaultConstructible Key} `{DefaultConstructible Value}.
Import LRU LRUInv LRUFacts.
Implicit Types (h : gmap ptr (LRUNode Key Value)) (c : LRUCache Key Value).
Implicit Types (l : list ptr) (al : list (Key * Value)).

Lemma contents_nil h : contents h [] = [].
Proof. done. Qed.

Lemma contents_app h l1 l2 : contents h (l1 ++ l2) = contents h l1 ++ contents h l2.
Proof. unfold contents. apply omap_app. Qed.

Lemma contents_cons h a kv l :
  datav h a = Some kv → contents h (a :: l) = kv :: contents h l.
Proof. intros Ha. unfold contents. simpl. by rewrite Ha. Qed.

Lemma contents_step h a l :
  contents h (a :: l)
  = match datav h a with Some kv => kv :: contents h l | None => contents h l end.
Proof. done. Qed.

Lemma contents_ext h h' l :
  (∀ a, a ∈ l → datav h' a = datav h a) → contents h' l = contents h l.
Proof.
  induction l as [|a l IH]; [done|]. intros Hd. rewrite !contents_step.
  rewrite Hd by set_solver. rewrite IH; [done|]. intros b Hb. apply Hd. set_solver.
Qed.

Lemma inv_datav c l a : inv c l → a ∈ l → is_Some (datav (heap c) a).
Proof.
  intros Hinv Ha. destruct (chain_alloc c l a Hinv) as [n Hn]; [unfold chain; set_solver|].
  unfold datav. rewrite Hn. eauto.
Qed.

Lemma inv_NoDup c l : inv c l → NoDup l ∧ dummyTail_ c ∉ l.
Proof.
  intros [_ [Hnd _] _]. unfold chain in Hnd.
  apply NoDup_cons in Hnd as [_ Hnd]. apply NoDup_app in Hnd as (? & Hd & _).
  split; [done|]. intros Hin. apply (Hd _ Hin). set_solver.
Qed.

(** The key of every entry is the key under which the map holds its
    node. *)
Lemma contents_elem c l k v :
  inv c l →
  (k, v) ∈ contents (heap c) l
  ↔ ∃ p, nodeMap_ c !! k = Some p ∧ datav (heap c) p = Some (k, v).
Proof.
  intros Hinv. unfold contents. rewrite list_elem_of_omap. split.
  - intros (p & Hp & Hd). exists p. split; [|done].
    apply Hinv. split; [done|]. by rewrite Hd.
  - intros (p & Hk & Hd). exists p. split; [|done].
    by apply (inv_map _ _ Hinv) in Hk as [? _].
Qed.

Lemma contents_keys c l k :
  inv c l → k ∈ (contents (heap c) l).*1 ↔ is_Some (nodeMap_ c !! k).
Proof.
  intros Hinv. rewrite list_elem_of_fmap. split.
  - intros ([k' v] & -> & Hin). apply (contents_elem c l) in Hin as (p & Hp & _); eauto.
  - intros [p Hp]. pose proof Hp as Hp'.
    apply (inv_map _ _ Hinv) in Hp as [Hin Hk].
    destruct (datav (heap c) p) as [[k' v]|] eqn:Hd; simplify_eq/=.
    exists (k, v). split; [done|]. apply (contents_elem c l); eauto.
Qed.

Lemma contents_length c l : inv c l → length (contents (heap c) l) = length l.
Proof.
  intros Hinv. assert (∀ a, a ∈ l → is_Some (datav (heap c) a)) as Hd.
  { intros a Ha. by eapply inv_datav. }
  clear Hinv. induction l as [|a l IH]; [done|]. rewrite contents_step.
  destruct (Hd a) as [kv ->]; [set_solver|]. simpl. rewrite IH; [done|].
  intros b Hb. apply Hd. set_solver.
Qed.

Lemma contents_NoDup c l : inv c l → NoDup (contents (heap c) l).*1.
Proof.
  intros Hinv. destruct (inv_NoDup c l Hinv) as [Hnd _].
  assert (∀ a, a ∈ l → ∃ kv, datav (heap c) a = Some kv
                             ∧ nodeMap_ c !! kv.1 = Some a) as Hd.
  { intros a Ha. destruct (inv_datav c l a Hinv Ha) as [kv Hkv].
    exists kv. split; [done|]. apply Hinv. split; [done|]. by rewrite Hkv. }
  clear Hinv. induction l as [|a l IH]; [apply NoDup_nil_2|].
  apply NoDup_cons in Hnd as [Ha Hnd]. rewrite contents_step.
  destruct (Hd a) as (kv & Hkv & Hm); [set_solver|]. rewrite Hkv. simpl.
  apply NoDup_cons. split.
  - intros Hin. apply list_elem_of_fmap in Hin as (kv' & Hk & Hin).
    unfold contents in Hin.
    apply list_elem_of_omap in Hin as (b & Hb & Hkv').
    destruct (Hd b) as (kv'' & Hkv'' & Hm'); [set_solver|].
    assert (kv'' = kv') by congruence. subst kv''.
    rewrite <-Hk in Hm'. assert (a = b) by congruence. by subst.
  - apply IH; [done|]. intros b Hb. apply Hd. set_solver.
Qed.

(** The map holds as many keys as the list has nodes. *)
Lemma size_nodeMap c l : inv c l → size (nodeMap_ c) = length l.
Proof.
  intros Hinv. destruct (inv_NoDup c l Hinv) as [Hnd _].
  rewrite <-(length_map_to_list (nodeMap_ c)).
  rewrite <-(length_fmap snd (map_to_list (nodeMap_ c))).
  apply Permutation_length, NoDup_Permutation; [|done|].
  - apply NoDup_fmap_2_strong; [|apply NoDup_map_to_list].
    intros [k p] [k' p'] Hin Hin' Heq. simpl in Heq. subst p'.
    apply elem_of_map_to_list in Hin, Hin'.
    apply (inv_map _ _ Hinv) in Hin as [_ Hk], Hin' as [_ Hk'].
    f_equal. congruence.
  - intros p. rewrite list_elem_of_fmap. split.
    + intros ([k p'] & -> & Hin). apply elem_of_map_to_list in Hin.
      by apply (inv_map _ _ Hinv) in Hin as [? _].
    + intros Hp. destruct (inv_datav c l p Hinv Hp) as [[k v] Hkv].
      exists (k, p). split; [done|]. apply elem_of_map_to_list.
      apply Hinv. split; [done|]. by rewrite Hkv.
Qed.

(** Removing the entries of a key that one node of the list carries. *)
Lemma contents_filter_out c l1 x l2 k v :
  inv c (l1 ++ x :: l2) → datav (heap c) x = Some (k, v) →
  filter (λ e, e.1 ≠ k) (contents (heap c) (l1 ++ x :: l2))
  = contents (heap c) (l1 ++ l2).
Proof.
  intros Hinv Hx. pose proof (contents_NoDup _ _ Hinv) as Hnd.
  rewrite contents_app, (contents_cons _ _ _ _ Hx) in Hnd |- *.
  rewrite fmap_app, fmap_cons in Hnd. simpl in Hnd.
  apply NoDup_app in Hnd as (_ & Hd & Hnd). apply NoDup_cons in Hnd as [Hk2 _].
  assert (k ∉ (contents (heap c) l1).*1) as Hk1.
  { intros Hin. apply (Hd _ Hin). set_solver. }
  assert (∀ al, k ∉ al.*1 → filter (λ e, e.1 ≠ k) al = al) as Hkeep.
  { intros al Hal. induction al as [|e al IH]; [done|].
    rewrite filter_cons_True; [|set_solver].
    rewrite IH; [done|set_solver]. }
  rewrite filter_app, filter_cons_False by (simpl; tauto).
  rewrite !Hkeep by done. by rewrite contents_app.
Qed.

Lemma contents_filter_absent c l k :
  inv c l → nodeMap_ c !! k = None →
  filter (λ e, e.1 ≠ k) (contents (heap c) l) = contents (heap c) l.
Proof.
  intros Hinv Hk.
  assert (k ∉ (contents (heap c) l).*1) as Hn.
  { rewrite (contents_keys c l k Hinv), Hk. by intros [? ?]. }
  revert Hn. generalize (contents (heap c) l). intros al Hal.
  induction al as [|e al IH]; [done|].
  rewrite filter_cons_True; [|set_solver]. rewrite IH; [done|set_solver].
Qed.

(** Walking the links reads the contents of the list. *)
Lemma walk_chain h tl l fuel a rest :
  path (nxv h) (l ++ [tl]) → tl ∉ l → (length l < fuel)%nat →
  l ++ [tl] = a :: rest →
  (∀ b, b ∈ l → is_Some (h !! b)) →
  walk h tl fuel a = Some (contents h l).
Proof.
  revert fuel a rest. induction l as [|x l IH]; intros fuel a rest Hp Htl Hf Ha Hal.
  - simpl in Ha. simplify_eq. destruct fuel; [simpl in Hf; lia|].
    simpl. by rewrite decide_True.
  - simpl in Ha. simplify_eq. destruct fuel; [simpl in Hf; lia|].
    rewrite contents_step.
    destruct (Hal a) as [n Hn]; [set_solver|].
    unfold datav at 1. rewrite Hn.
    simpl. rewrite decide_False by set_solver. rewrite Hn. simpl.
    assert (∃ b rest', l ++ [tl] = b :: rest') as (b & rest' & Hb).
    { destruct l; simpl; eauto. }
    simpl in Hp. rewrite Hb in Hp. destruct Hp as [Hab Hp].
    unfold nxv in Hab. rewrite Hn in Hab. simpl in Hab. rewrite Hab. simpl.
    rewrite (IH fuel b rest'); [|by rewrite Hb|set_solver|simpl in Hf; lia|done|].
    + done.
    + intros b' Hb'. apply Hal. set_solver.
Qed.

Lemma chain_size c l : inv c l → (length l + 2 ≤ size (heap c))%nat.
Proof.
  intros Hinv. pose proof (inv_dll _ _ Hinv) as [Hnd _].
  assert (list_to_set (chain c l) ⊆ dom (heap c)) as Hsub.
  { intros a Ha. apply elem_of_list_to_set in Ha. apply elem_of_dom.
    by eapply chain_alloc. }
  apply subseteq_size in Hsub. rewrite size_list_to_set in Hsub by done.
  rewrite size_dom in Hsub. unfold chain in Hsub. simpl in Hsub.
  rewrite length_app in Hsub. simpl in Hsub. lia.
Qed.

Lemma entries_inv c l : inv c l → entries c = Some (contents (heap c) l).
Proof.
  intros Hinv. pose proof (inv_dll _ _ Hinv) as (Hnd & Hp & _).
  destruct (inv_NoDup c l Hinv) as [_ Htl].
  pose proof (chain_size c l Hinv) as Hsz.
  unfold entries.
  destruct (chain_alloc c l (dummyHead_ c) Hinv) as [nh Hh]; [unfold chain; set_solver|].
  rewrite Hh. simpl.
  assert (∃ a rest, l ++ [dummyTail_ c] = a :: rest) as (a & rest & Ha).
  { destruct l; simpl; eauto. }
  unfold chain in Hp. simpl in Hp. rewrite Ha in Hp. destruct Hp as [Hha Hp].
  unfold nxv in Hha. rewrite Hh in Hha. simpl in Hha. rewrite Hha. simpl.
  rewrite <-Ha in Hp.
  eapply walk_chain; [done|done|lia|done|].
  intros b Hb. eapply chain_alloc; [done|]. unfold chain. set_solver.
Qed.

(** [put] on the recency order: a resident key moves to the end with
    its new value; a new key enters at the end after the first entry
    left a full cache. *)
Lemma put_order c l key val :
  inv c l → 0 < capacity_ c →
  ∃ c' l', put key val c = Some c' ∧ inv c' l'
    ∧ capacity_ c' = capacity_ c
    ∧ contents (heap c') l'
      = if bool_decide (key ∈ (contents (heap c) l).*1)
        then filter (λ e, e.1 ≠ key) (contents (heap c) l) ++ [(key, val)]
        else (if bool_decide (capacity_ c ≤ Z.of_nat (length (contents (heap c) l)))
              then tail (contents (heap c) l) else contents (heap c) l)
             ++ [(key, val)].
Proof.
  intros Hinv Hcap. unfold put. rewrite bool_decide_eq_false_2 by lia.
  destruct (nodeMap_ c !! key) as [x|] eqn:Hkey.
  - rewrite bool_decide_eq_true_2 by (rewrite (contents_keys c l key Hinv); eauto).
    assert (x ∈ l) as Hx by by eapply nodeMap_in_list.
    pose proof (proj1 (inv_map _ _ Hinv key x) Hkey) as [_ Hkx].
    destruct (datav (heap c) x) as [[k v]|] eqn:Hdx; simplify_eq/=.
    destruct (setValue_inv c l x val Hinv Hx) as (h1 & Hset & Hinv1 & Hdat1).
    apply list_elem_of_split in Hx as (l1 & l2 & ->).
    destruct (moveToMostRecent_inv _ l1 x l2 Hinv1) as (h2 & Hmv & Hinv2 & Hdat2).
    exists (with_heap h2 c), ((l1 ++ l2) ++ [x]). split_and!; [|done..|].
    + unfold updateExistingNode. rewrite Hset. simpl. exact Hmv.
    + simpl. rewrite (contents_filter_out c l1 x l2 _ _ Hinv Hdx).
      rewrite contents_app. f_equal.
      * apply contents_ext. intros a Ha. rewrite Hdat2. simpl. rewrite Hdat1.
        rewrite decide_False; [done|]. intros ->.
        destruct (inv_NoDup _ _ Hinv) as [Hnd _].
        apply NoDup_app in Hnd as (_ & Hd & Hnd).
        apply NoDup_cons in Hnd as [Hx2 _].
        apply elem_of_app in Ha as [Ha|Ha]; [|done]. apply (Hd _ Ha). set_solver.
      * erewrite contents_cons; [done|]. rewrite Hdat2. simpl. rewrite Hdat1.
        rewrite decide_True by done. by rewrite Hdx.
  - rewrite bool_decide_eq_false_2.
    2:{ rewrite (contents_keys c l key Hinv), Hkey. by intros [? ?]. }
    destruct (addNode_inv c l key val Hinv Hkey Hcap)
      as (c' & p & Hadd & Hinv' & Hpl & Hdp & Hdat & Hcap' & _ & _).
    eexists c', _. split_and!; [done..|].
    rewrite contents_app, (contents_cons _ _ _ _ Hdp), contents_nil.
    rewrite (contents_length c l Hinv).
    assert (to_size_t (capacity_ c) = capacity_ c) as Hsz.
    { unfold to_size_t. apply Z.mod_small. destruct Hinv as [? _ _]. lia. }
    unfold size_ge_int. rewrite Hsz, (size_nodeMap c l Hinv). f_equal.
    case_bool_decide.
    + destruct l as [|x l]; [done|].
      destruct (inv_datav c (x :: l) x Hinv) as [kv Hkv]; [set_solver|].
      rewrite (contents_cons _ _ _ _ Hkv). simpl.
      apply contents_ext. intros a Ha. apply Hdat. intros ->. apply Hpl. set_solver.
    + apply contents_ext. intros a Ha. apply Hdat. by intros ->.
Qed.

(** [get] on the recency order: a hit returns the stored value and moves
    the entry to the end; a miss changes nothing. *)
Lemma get_order c l key out :
  inv c l →
  ∃ r c' l', get key out c = Some (r, c') ∧ inv c' l'
    ∧ capacity_ c' = capacity_ c
    ∧ (∀ v, (key, v) ∈ contents (heap c) l →
         r = (true, v)
         ∧ contents (heap c') l'
           = filter (λ e, e.1 ≠ key) (contents (heap c) l) ++ [(key, v)])
    ∧ (key ∉ (contents (heap c) l).*1 → r = (false, out) ∧ c' = c ∧ l' = l).
Proof.
  intros Hinv. unfold get.
  destruct (nodeMap_ c !! key) as [x|] eqn:Hkey.
  - assert (x ∈ l) as Hx by by eapply nodeMap_in_list.
    pose proof (proj1 (inv_map _ _ Hinv key x) Hkey) as [_ Hkx].
    destruct (datav (heap c) x) as [[k v]|] eqn:Hdx; simplify_eq/=.
    apply list_elem_of_split in Hx as (l1 & l2 & ->).
    destruct (moveToMostRecent_inv _ l1 x l2 Hinv) as (h2 & Hmv & Hinv2 & Hdat2).
    assert (datav h2 x = Some (key, v)) as Hdx2 by by rewrite Hdat2.
    unfold datav in Hdx2. destruct (h2 !! x) as [nx2|] eqn:Hnx2; simplify_eq/=.
    eexists (true, _), (with_heap h2 c), ((l1 ++ l2) ++ [x]).
    split_and!; [|done..| |].
    + rewrite Hmv. simpl. unfold rd. simpl. by rewrite Hnx2.
    + intros v' Hv'. apply (contents_elem c _ _ _ Hinv) in Hv' as (p & Hp & Hdp).
      assert (p = x) as -> by congruence. rewrite Hdx in Hdp. simplify_eq.
      split; [done|]. simpl.
      rewrite (contents_filter_out c l1 x l2 _ _ Hinv Hdx).
      rewrite contents_app. f_equal.
      * apply contents_ext. intros a Ha. by rewrite Hdat2.
      * erewrite contents_cons; [done|]. by rewrite Hdat2.
    + intros Hn. exfalso. apply Hn. apply (contents_keys c _ _ Hinv). eauto.
  - exists (false, out), c, l. split_and!; [done..| |done].
    intros v Hv. apply (contents_elem c _ _ _ Hinv) in Hv as (p & Hp & _). congruence.
Qed.

(** [remove] on the recency order: the entry of the key leaves, the
    others keep their order. *)
Lemma remove_order c l key :
  inv c l →
  ∃ c' l', remove key c = Some c' ∧ inv c' l'
    ∧ capacity_ c' = capacity_ c
    ∧ contents (heap c') l' = filter (λ e, e.1 ≠ key) (contents (heap c) l).
Proof.
  intros Hinv. unfold remove.
  destruct (nodeMap_ c !! key) as [x|] eqn:Hkey.
  - assert (x ∈ l) as Hx by by eapply nodeMap_in_list.
    pose proof (proj1 (inv_map _ _ Hinv key x) Hkey) as [_ Hkx].
    destruct (datav (heap c) x) as [[k v]|] eqn:Hdx; simplify_eq/=.
    apply list_elem_of_split in Hx as (l1 & l2 & ->).
    destruct (chain_split_at (dummyHead_ c) (dummyTail_ c) l1 x l2)
      as (pre & p & n & post & Hs & Hs').
    pose proof (inv_dll _ _ Hinv) as Hd. unfold chain in Hd. rewrite Hs in Hd.
    destruct (removeNode_mid c pre p x n post Hd) as (h1 & Hrm & Hd1 & Hdat1 & _).
    rewrite Hrm. simpl. eexists _, (l1 ++ l2). split; [reflexivity|].
    assert (NoDup (l1 ++ x :: l2)) as Hndl by by apply (inv_NoDup c).
    split_and!; [|done|].
    + split; simpl.
      * apply Hinv.
      * unfold chain. simpl. by rewrite Hs'.
      * intros k' q. rewrite lookup_delete. rewrite Hdat1. case_decide as Hk.
        -- subst k'. split; [done|]. intros [Hq Hkq]. exfalso.
           assert (nodeMap_ c !! key = Some q) as Hq'.
           { apply Hinv. split; [set_solver|done]. }
           assert (q = x) as -> by congruence.
           apply NoDup_app in Hndl as (_ & Hdisj & Hndl).
           apply NoDup_cons in Hndl as [? _]. set_solver.
        -- rewrite (inv_map _ _ Hinv). split.
           ++ intros [Hq Hkq]. split; [|done].
              assert (q ≠ x).
              { intros ->. rewrite Hdx in Hkq. simpl in Hkq. congruence. }
              set_solver.
           ++ intros [Hq Hkq]. split; [set_solver|done].
    + simpl. rewrite (contents_filter_out c l1 x l2 _ _ Hinv Hdx).
      apply contents_ext. intros a _. apply Hdat1.
  - exists c, l. split_and!; [done..|].
    by rewrite (contents_filter_absent c l key Hinv Hkey).
Qed.
End LRUOrderFacts.
End LRUOrderFacts.

Module ARCNodeFacts.
Section ARCNodeFacts.
Context {Key Value : Type} `{Countable Key}.
Import ARCNode ARCInv.
Implicit Types (h : gmap ptr (ARCNode Key Value)).

Lemma nxv_insert h q n a :
  nxv (<[q := n]> h) a = if decide (a = q) then next n else nxv h a.
Proof.
  unfold nxv. case_decide as Ha; [subst; by rewrite lookup_insert_eq|].
  by rewrite lookup_insert_ne.
Qed.
Lemma pvv_insert h q n a :
  pvv (<[q := n]> h) a = if decide (a = q) then prev_ n else pvv h a.
Proof.
  unfold pvv. case_decide as Ha; [subst; by rewrite lookup_insert_eq|].
  by rewrite lookup_insert_ne.
Qed.
Lemma keyv_insert h q n a :
  keyv (<[q := n]> h) a = if decide (a = q) then Some (key_ n) else keyv h a.
Proof.
  unfold keyv. case_decide as Ha; [subst; by rewrite lookup_insert_eq|].
  by rewrite lookup_insert_ne.
Qed.
Lemma valv_insert h q n a :
  valv (<[q := n]> h) a = if decide (a = q) then Some (val_ n) else valv h a.
Proof.
  unfold valv. case_decide as Ha; [subst; by rewrite lookup_insert_eq|].
  by rewrite lookup_insert_ne.
Qed.
Lemma cntv_insert h q n a :
  cntv (<[q := n]> h) a = if decide (a = q) then Some (count_ n) else cntv h a.
Proof.
  unfold cntv. case_decide as Ha; [subst; by rewrite lookup_insert_eq|].
  by rewrite lookup_insert_ne.
Qed.

Lemma nxv_Some h a b : nxv h a = Some b → ∃ n, h !! a = Some n ∧ next n = Some b.
Proof. unfold nxv. destruct (h !! a) as [n|]; [|done]. eauto. Qed.
Lemma pvv_Some h a b : pvv h a = Some b → ∃ n, h !! a = Some n ∧ prev_ n = Some b.
Proof. unfold pvv. destruct (h !! a) as [n|]; [|done]. eauto. Qed.
Lemma keyv_Some h a k : keyv h a = Some k → ∃ n, h !! a = Some n ∧ key_ n = k.
Proof. unfold keyv. destruct (h !! a) as [n|]; [|done]. intros [= <-]. eauto. Qed.

Lemma same_info_data h h' : same_info h h' → same_data h h'.
Proof. intros Hi a. destruct (Hi a) as (? & ? & ?). done. Qed.
Lemma same_data_refl h : same_data h h.
Proof. done. Qed.
Lemma same_info_refl h : same_info h h.
Proof. done. Qed.
Lemma same_info_trans h1 h2 h3 :
  same_info h1 h2 → same_info h2 h3 → same_info h1 h3.
Proof.
  intros H12 H23 a. destruct (H12 a) as (? & ? & ?).
  destruct (H23 a) as (? & ? & ?). split_and!; congruence.
Qed.
Lemma same_data_trans h1 h2 h3 :
  same_data h1 h2 → same_data h2 h3 → same_data h1 h3.
Proof.
  intros H12 H23 a. destruct (H12 a) as (? & ?).
  destruct (H23 a) as (? & ?). split; congruence.
Qed.
Lemma same_except_trans xs ys h1 h2 h3 :
  same_except xs h1 h2 → same_except ys h2 h3 → same_except (xs ++ ys) h1 h3.
Proof.
  intros H12 H23 a Ha. rewrite H23, H12; [done|set_solver..].
Qed.
Lemma same_except_weaken xs ys h1 h2 :
  xs ⊆ ys → same_except xs h1 h2 → same_except ys h1 h2.
Proof. intros Hsub H12 a Ha. apply H12. set_solver. Qed.

(** A list away from the addresses that changed is unchanged. *)
Lemma dll_same_except xs h h' s :
  same_except xs h h' → (∀ a, a ∈ s → a ∉ xs) →
  dll (nxv h) (pvv h) s → dll (nxv h') (pvv h') s.
Proof.
  intros Hex Hs. apply dll_ext. intros a Ha.
  unfold nxv, pvv. rewrite Hex by auto. done.
Qed.

Lemma dll_alloc h s a :
  dll (nxv h) (pvv h) s → (2 ≤ length s)%nat → a ∈ s → is_Some (h !! a).
Proof.
  intros Hd Hlen Ha.
  destruct (dll_defined _ _ _ a Hd Hlen Ha) as [[b Hb]|[b Hb]].
  - apply nxv_Some in Hb as (? & ? & _). eauto.
  - apply pvv_Some in Hb as (? & ? & _). eauto.
Qed.

Lemma fresh_not_alloc h : h !! fresh (dom h) = None.
Proof. apply not_elem_of_dom, is_fresh. Qed.
End ARCNodeFacts.

Ltac heap_run :=
repeat first
  [ rewrite lookup_insert_eq
  | rewrite lookup_insert_ne by done
  | match goal with
    | H : ?h !! ?a = Some _ |- context [?h !! ?a] => rewrite H
    | H : ?f ?n = Some _ |- context [?f ?n] => rewrite H
    | H : ?f ?n = None |- context [?f ?n] => rewrite H
    end
  | progress simpl ].

Ltac view_solve :=
intros;
rewrite ?nxv_insert, ?pvv_insert, ?keyv_insert, ?valv_insert, ?cntv_insert;
repeat case_decide; simplify_eq;
unfold ARCInv.nxv, ARCInv.pvv, ARCInv.keyv, ARCInv.valv, ARCInv.cntv; simpl;
repeat match goal with
       | H : ?h !! ?a = Some _ |- context [?h !! ?a] => rewrite H
       end; done.

Section Unlink.
Context {Key Value : Type} `{Countable Key}.
Import ARCNode ARCInv.
Implicit Types (h : gmap ptr (ARCNode Key Value)).

Lemma unlink_mid h pre p x n post :
  dll (nxv h) (pvv h) (pre ++ p :: x :: n :: post) →
  ∃ h', unlink (Some x) h = Some h'
        ∧ dll (nxv h') (pvv h') (pre ++ p :: n :: post)
        ∧ same_info h h'
        ∧ same_except [p; x; n] h h'
        ∧ is_Some (h' !! x).
Proof.
  intros Hd.
  destruct (dll_mid _ _ _ _ _ _ _ Hd) as (Hpx & Hxn & Hnx & Hxp & ? & ? & ?).
  apply nxv_Some in Hpx as (np & Hp & _).
  apply nxv_Some in Hxn as (nx & Hx & Hxn).
  apply pvv_Some in Hnx as (nn & Hn & _).
  apply pvv_Some in Hxp as (nx' & Hx' & Hxp).
  assert (nx' = nx) as -> by congruence. clear Hx'.
  eexists. split.
  - unfold unlink, rd, wr_next, wr_prev. heap_run. reflexivity.
  - split_and!.
    + eapply dll_unlink; [exact Hd|..]; view_solve.
    + intros a. split_and!; view_solve.
    + intros a Ha. rewrite !lookup_insert_ne; [done|set_solver..].
    + rewrite lookup_insert_eq. eauto.
Qed.

Lemma chain_length (a b : ptr) l : (2 ≤ length (chain a l b))%nat.
Proof. unfold chain. simpl. rewrite length_app. simpl. lia. Qed.

Lemma chain_NoDup_inner h (a b : ptr) l :
  dll (nxv h) (pvv h) (chain a l b) → NoDup l ∧ a ∉ l ∧ b ∉ l ∧ a ≠ b.
Proof.
  intros [Hnd _]. unfold chain in Hnd.
  apply NoDup_cons in Hnd as [Ha Hnd]. apply NoDup_app in Hnd as (? & Hb & _).
  split_and!; [done|set_solver..].
Qed.

(** Unlinking a node of a list. *)
Lemma list_unlink h (a b : ptr) l x :
  dll (nxv h) (pvv h) (chain a l b) → x ∈ l →
  ∃ h' l1 l2, l = l1 ++ x :: l2
    ∧ unlink (Some x) h = Some h'
    ∧ dll (nxv h') (pvv h') (chain a (l1 ++ l2) b)
    ∧ same_info h h'
    ∧ same_except (chain a l b) h h'
    ∧ is_Some (h' !! x)
    ∧ x ∉ chain a (l1 ++ l2) b.
Proof.
  intros Hd Hx.
  destruct (chain_split a b l x Hx) as (l1 & l2 & pre & p & n & post & -> & Hs & Hs').
  unfold chain in *. rewrite Hs in Hd.
  destruct (unlink_mid h pre p x n post Hd) as (h' & Hu & Hd' & Hi & He & Hal).
  exists h', l1, l2. rewrite Hs'. split_and!; try done.
  - rewrite Hs. eapply same_except_weaken; [|done]. set_solver.
  - destruct Hd as [Hnd _]. intros Hin.
    apply NoDup_app in Hnd as (_ & Hdisj & Hnd).
    apply NoDup_cons in Hnd as (? & Hnd). apply NoDup_cons in Hnd as (? & Hnd).
    apply elem_of_app in Hin as [Hin|Hin]; [eapply Hdisj; [done|set_solver]|].
    set_solver.
Qed.

Lemma two_lists_same_shape h h' s1 s2 :
  same_shape h h' → two_lists h s1 s2 → two_lists h' s1 s2.
Proof.
  intros Hs (H1 & H2 & Hd). split_and!; [| |done].
  - eapply dll_ext; [|exact H1]. intros a _. destruct (Hs a) as (? & ? & _). done.
  - eapply dll_ext; [|exact H2]. intros a _. destruct (Hs a) as (? & ? & _). done.
Qed.

Lemma agrees_same_shape h h' (m : gmap Key ptr) l :
  same_shape h h' → agrees h m l → agrees h' m l.
Proof. intros Hs Ha k p. destruct (Hs p) as (_ & _ & ->). apply Ha. Qed.

Lemma points_into_same_shape h h' (m : gmap Key ptr) l :
  same_shape h h' → points_into h m l → points_into h' m l.
Proof. intros Hs Ha k p. destruct (Hs p) as (_ & _ & ->). apply Ha. Qed.

Lemma setValue_spec h x nx v :
  h !! x = Some nx →
  ∃ h', setValue (Some x) v h = Some h' ∧ same_shape h h'
        ∧ (∀ a, cntv h' a = cntv h a)
        ∧ (∀ a, valv h' a = if decide (a = x) then Some v else valv h a).
Proof.
  intros Hx. eexists. split; [unfold setValue; heap_run; reflexivity|].
  split_and!; [intros a; split_and!|..]; view_solve.
Qed.

Lemma incrementAccessCount_spec h x nx :
  h !! x = Some nx →
  ∃ h', incrementAccessCount (Some x) h = Some h' ∧ same_shape h h'
        ∧ (∀ a, valv h' a = valv h a)
        ∧ (∀ a, cntv h' a = if decide (a = x)
                             then Some (to_size_t (count_ nx + 1))
                             else cntv h a).
Proof.
  intros Hx. eexists. split.
  - unfold incrementAccessCount, wr_count, rd. heap_run. reflexivity.
  - split_and!; [intros a; split_and!|..]; view_solve.
Qed.

Lemma two_lists_sym h s1 s2 : two_lists h s1 s2 → two_lists h s2 s1.
Proof. intros (? & ? & Hd). split_and!; [done..|]. intros a ? ?. by eapply Hd. Qed.

(** A change confined to the first chain and to nodes outside both. *)
Lemma two_lists_update h h' s1 s1' s2 xs :
  two_lists h s1 s2 →
  dll (nxv h') (pvv h') s1' →
  same_except xs h h' →
  (∀ a, a ∈ xs → a ∉ s2) →
  (∀ a, a ∈ s1' → a ∉ s2) →
  two_lists h' s1' s2.
Proof.
  intros (H1 & H2 & Hd) H1' Hex Hxs Hs. split_and!; [done| |done].
  eapply dll_same_except; [done| |done]. intros a Ha Hin. by eapply Hxs.
Qed.
End Unlink.
End ARCNodeFacts.

Import ARCNodeFacts.

Module ARCLRUFacts.
Section ARCLRUFacts.
Context {Key Value : Type} `{Countable Key}.
Context `{DefaultConstructible Key} `{DefaultConstructible Value}.
Import ARCNode ARCInv ARCLRU ARCLRUInv.
Implicit Types (h : gmap ptr (ARCNode Key Value)) (c : ARCLRUCache Key Value).

Ltac alloc_fresh p :=
  match goal with
  | |- context [fresh (dom ?h)] =>
      pose proof (fresh_not_alloc h) as Hf;
      set (p := fresh (dom h)) in *;
      rewrite ?lookup_insert_None in Hf
  end.

Lemma chain_front (hd tl : ptr) l :
  ∃ n post, chain hd l tl = hd :: n :: post
            ∧ (∀ x, chain hd (x :: l) tl = hd :: x :: n :: post)
            ∧ tl ∈ n :: post.
Proof.
  unfold chain. destruct l as [|n l]; simpl.
  - exists tl, []. split_and!; [done..|set_solver].
  - exists n, (l ++ [tl]). split_and!; [done..|set_solver].
Qed.

Lemma chain_back (hd tl : ptr) l :
  ∃ pre p, chain hd l tl = pre ++ [p; tl]
           ∧ (∀ x, chain hd (l ++ [x]) tl = pre ++ [p; x; tl])
           ∧ hd ∈ pre ++ [p].
Proof.
  unfold chain. destruct (decide (l = [])) as [->|Hne].
  - exists [], hd. split_and!; [done..|set_solver].
  - destruct (exists_last Hne) as (l' & p & ->).
    exists (hd :: l'), p. simpl. rewrite <-!app_assoc. split_and!; [done| |set_solver].
    intros x. by rewrite <-!app_assoc.
Qed.

Lemma chain_mid (hd tl : ptr) l x :
  x ∈ l → ∃ l1 l2 pre p n post,
    l = l1 ++ x :: l2
    ∧ chain hd l tl = pre ++ p :: x :: n :: post
    ∧ chain hd (l1 ++ l2) tl = pre ++ p :: n :: post.
Proof. apply chain_split. Qed.

Lemma addToFront_spec c mh mt lm x nx :
  mainHead_ c = Some mh → mainTail_ c = Some mt →
  dll (nxv (heap c)) (pvv (heap c)) (chain mh lm mt) →
  heap c !! x = Some nx → x ∉ chain mh lm mt →
  ∃ h', addToFront (Some x) c = Some (with_heap h' c)
        ∧ dll (nxv h') (pvv h') (chain mh (x :: lm) mt)
        ∧ same_info (heap c) h'
        ∧ same_except (x :: chain mh lm mt) (heap c) h'.
Proof.
  intros Hmh Hmt Hd Hx Hnin.
  destruct (chain_front mh mt lm) as (n & post & Hc & Hc' & Hmtin).
  rewrite Hc in Hd, Hnin. rewrite Hc'. setoid_rewrite Hc.
  destruct (dll_adj _ _ [] _ _ _ Hd) as (Hhn & Hnh & ?).
  apply nxv_Some in Hhn as (nh & Hh & Hhn).
  apply pvv_Some in Hnh as (nn & Hn & Hnh).
  assert (x ≠ mh) by (intros ->; apply Hnin; set_solver).
  assert (x ≠ n) by (intros ->; apply Hnin; set_solver).
  assert (∃ nt q, heap c !! mt = Some nt ∧ prev_ nt = Some q) as (nt & q & Ht & Htq).
  { destruct Hd as (_ & _ & Hp). simpl in Hp.
    assert (∃ r, reverse (mh :: n :: post) = mt :: r ∧ r ≠ []) as (r & Hr & Hne).
    { rewrite <-Hc. unfold chain. rewrite reverse_cons, reverse_app. simpl.
      eexists. split; [done|]. destruct (reverse lm); done. }
    rewrite Hr in Hp. destruct r as [|q r]; [done|]. destruct Hp as [Hp _].
    apply pvv_Some in Hp as (nt & ? & ?). eauto. }
  assert (x ≠ mt) by (intros ->; apply Hnin; set_solver).
  assert (mh ≠ mt).
  { intros ->. destruct Hd as (Hnd & _). simpl in Hnd.
    apply NoDup_cons in Hnd as [Hnd _]. done. }
  destruct (decide (mt = n)) as [->|];
    [assert (nt = nn) as -> by congruence|];
    (eexists; split;
      [unfold addToFront, upd, rd, wr_next, wr_prev; heap_run; reflexivity|]);
    (split_and!;
      [eapply (dll_insert _ _ _ _ []); [exact Hd|done|..]; view_solve
      |intros a; split_and!; view_solve
      |intros a Ha; rewrite !lookup_insert_ne; [done|set_solver..]]).
Qed.

(** [addToGhostCache] on a detached node. *)
Lemma ARCLRU_addToGhostCache_spec c gh gt lg x nx :
  ghostHead_ c = Some gh → ghostTail_ c = Some gt →
  dll (nxv (heap c)) (pvv (heap c)) (chain gh lg gt) →
  heap c !! x = Some nx → x ∉ chain gh lg gt →
  ∃ h', addToGhostCache (Some x) c
        = Some (with_heap h' (with_ghost (<[key_ nx := x]> (ghostCache_ c)) c))
        ∧ dll (nxv h') (pvv h') (chain gh (x :: lg) gt)
        ∧ same_data (heap c) h'
        ∧ same_except (x :: chain gh lg gt) (heap c) h'.
Proof.
  intros Hgh Hgt Hd Hx Hnin.
  destruct (chain_front gh gt lg) as (n & post & Hc & Hc' & Hgtin).
  rewrite Hc in Hd, Hnin. rewrite Hc'. setoid_rewrite Hc.
  destruct (dll_adj _ _ [] _ _ _ Hd) as (Hhn & Hnh & ?).
  apply nxv_Some in Hhn as (nh & Hh & Hhn).
  apply pvv_Some in Hnh as (nn & Hn & Hnh).
  assert (x ≠ gh) by (intros ->; apply Hnin; set_solver).
  assert (x ≠ n) by (intros ->; apply Hnin; set_solver).
  assert (∃ nt q, heap c !! gt = Some nt ∧ prev_ nt = Some q) as (nt & q & Ht & Htq).
  { destruct Hd as (_ & _ & Hp). simpl in Hp.
    assert (∃ r, reverse (gh :: n :: post) = gt :: r ∧ r ≠ []) as (r & Hr & Hne).
    { rewrite <-Hc. unfold chain. rewrite reverse_cons, reverse_app. simpl.
      eexists. split; [done|]. destruct (reverse lg); done. }
    rewrite Hr in Hp. destruct r as [|q r]; [done|]. destruct Hp as [Hp _].
    apply pvv_Some in Hp as (nt & ? & ?). eauto. }
  assert (x ≠ gt) by (intros ->; apply Hnin; set_solver).
  assert (gh ≠ gt).
  { intros ->. destruct Hd as (Hnd & _). simpl in Hnd.
    apply NoDup_cons in Hnd as [Hnd _]. done. }
  destruct (decide (gt = n)) as [->|];
    [assert (nt = nn) as -> by congruence|];
    (eexists; split;
      [unfold addToGhostCache, upd, rd, wr_next, wr_prev, wr_count;
       heap_run; reflexivity|]);
    (split_and!;
      [eapply (dll_insert _ _ _ _ []); [exact Hd|done|..]; view_solve
      |intros a; split_and!; view_solve
      |intros a Ha; rewrite !lookup_insert_ne; [done|set_solver..]]).
Qed.

Lemma points_into_same h h' (m : gmap Key ptr) l l' :
  points_into h m l → same_data h h' → (∀ a, a ∈ l → a ∈ l') →
  points_into h' m l'.
Proof.
  intros Hp Hs Hl k p Hk. destruct (Hp k p Hk) as [? ?].
  split; [auto|]. destruct (Hs p) as [-> _]. done.
Qed.

Lemma agrees_same h h' (m : gmap Key ptr) l l' :
  agrees h m l → same_data h h' → (∀ a, a ∈ l' ↔ a ∈ l) →
  agrees h' m l'.
Proof.
  intros Hp Hs Hl k p. rewrite (Hp k p), Hl.
  destruct (Hs p) as [-> _]. done.
Qed.

Lemma agrees_delete h (m : gmap Key ptr) l l' x k :
  agrees h m l → keyv h x = Some k → x ∈ l →
  (∀ a, a ∈ l' ↔ a ∈ l ∧ a ≠ x) →
  agrees h (delete k m) l' ∧ m !! k = Some x.
Proof.
  intros Ha Hk Hx Hl.
  assert (m !! k = Some x) as Hmx by by apply Ha.
  split; [|done]. intros k' q. rewrite lookup_delete_Some, (Ha k' q), Hl. split.
  - intros (Hne & Hq & Hkq). split_and!; [done| |done]. intros ->. congruence.
  - intros ((Hq & Hne) & Hkq). split_and!; [|done..]. intros <-.
    assert (m !! k = Some q) by by apply Ha. congruence.
Qed.

Lemma agrees_insert h h' (m : gmap Key ptr) l l' x k :
  agrees h m l → m !! k = None → keyv h' x = Some k → x ∉ l →
  (∀ a, a ∈ l → keyv h' a = keyv h a) →
  (∀ a, a ∈ l' ↔ a = x ∨ a ∈ l) →
  agrees h' (<[k := x]> m) l'.
Proof.
  intros Ha Hk Hx Hnin Hs Hl k' q. rewrite lookup_insert_Some, (Ha k' q), Hl. split.
  - intros [[<- <-]|(Hne & Hq & Hkq)]; [auto|]. split; [auto|]. by rewrite Hs.
  - intros [[->|Hq] Hkq].
    + left. split; congruence.
    + right. rewrite Hs in Hkq by done. split_and!; [|done..]. intros <-.
      assert (m !! k = Some q) by by apply Ha. congruence.
Qed.

Lemma points_into_insert h' (m : gmap Key ptr) l x k :
  points_into h' m l → keyv h' x = Some k → points_into h' (<[k := x]> m) (x :: l).
Proof.
  intros Hp Hx k' q. rewrite lookup_insert_Some.
  intros [[<- <-]|(Hne & Hq)]; [set_solver|].
  destruct (Hp k' q Hq). set_solver.
Qed.

Lemma points_into_delete h (m : gmap Key ptr) l l' x k :
  points_into h m l → keyv h x = Some k →
  (∀ a, a ∈ l → a ≠ x → a ∈ l') →
  points_into h (delete k m) l'.
Proof.
  intros Hp Hx Hl k' q. rewrite lookup_delete_Some. intros [Hne Hq].
  destruct (Hp k' q Hq) as [Hin Hk]. split; [|done]. apply Hl; [done|].
  intros ->. congruence.
Qed.

Lemma ARCLRU_removeOldestGhostNode_spec c gh gt lg :
  ghostHead_ c = Some gh → ghostTail_ c = Some gt →
  dll (nxv (heap c)) (pvv (heap c)) (chain gh lg gt) →
  points_into (heap c) (ghostCache_ c) lg →
  ∃ h' g' lg', removeOldestGhostNode c = Some (with_ghost g' (with_heap h' c))
        ∧ dll (nxv h') (pvv h') (chain gh lg' gt)
        ∧ points_into h' g' lg'
        ∧ same_info (heap c) h'
        ∧ same_except (chain gh lg gt) (heap c) h'
        ∧ (∀ a, a ∈ lg' → a ∈ lg).
Proof.
  intros Hgh Hgt Hd Hpi. unfold removeOldestGhostNode. rewrite Hgt.
  destruct (decide (lg = [])) as [->|Hne].
  - destruct (dll_adj _ _ [] _ _ _ Hd) as (_ & Hp & _).
    apply pvv_Some in Hp as (nt & Ht & Hp).
    exists (heap c), (ghostCache_ c), [].
    split_and!; try done.
    unfold rd. heap_run. rewrite bool_decide_eq_true_2 by auto.
    by destruct c.
  - destruct (exists_last Hne) as (lg' & o & ->).
    destruct (chain_back gh gt lg') as (pre & p & Hc & Hc' & _).
    rewrite Hc' in Hd.
    destruct (dll_mid _ _ _ _ _ _ _ Hd) as (_ & _ & Hp & _ & _ & ? & ?).
    apply pvv_Some in Hp as (nt & Ht & Hp).
    destruct (unlink_mid _ pre p o gt [] Hd) as (h' & Hu & Hd' & Hi & He & [no Hno]).
    assert (o ≠ gh).
    { intros ->. destruct Hd as [Hnd _]. rewrite <-Hc' in Hnd. unfold chain in Hnd.
      apply NoDup_cons in Hnd as [Hnd _]. set_solver. }
    exists h', (delete (key_ no) (ghostCache_ c)), lg'.
    split_and!; try done.
    + unfold rd. heap_run. rewrite bool_decide_eq_false_2.
      2:{ intros [?|[= ->]]; done. }
      unfold removeFromGhostCache, upd. rewrite Hu. simpl. rewrite Hno. simpl.
      by destruct c.
    + by rewrite Hc.
    + intros k q Hk. apply lookup_delete_Some in Hk as [Hne' Hk].
      destruct (Hpi k q Hk) as [Hin Hkey].
      destruct (Hi q) as (Hkq & _). rewrite Hkq. split; [|done].
      apply elem_of_app in Hin as [?|Hin]; [done|].
      apply list_elem_of_singleton in Hin as ->.
      destruct (Hi o) as (Hko & _). unfold keyv in Hko, Hkey.
      rewrite Hno in Hko. simpl in Hko. rewrite <-Hko in Hkey. simplify_eq.
    + rewrite Hc'. eapply same_except_weaken; [|done]. set_solver.
    + set_solver.
Qed.

Local Arguments addToGhostCache : simpl never.
Local Arguments removeOldestGhostNode : simpl never.
Local Arguments addToFront : simpl never.
Local Arguments evictLeastRecent : simpl never.
Local Arguments with_heap : simpl never.
Local Arguments with_ghost : simpl never.
Local Arguments with_main : simpl never.

Lemma keyv_alloc h a k : keyv h a = Some k → is_Some (h !! a).
Proof. intros (n & ? & _)%keyv_Some. eauto. Qed.

Lemma alloc_same h h' a : same_data h h' → is_Some (h !! a) → is_Some (h' !! a).
Proof.
  intros Hs [n Hn]. destruct (Hs a) as [Hk _]. unfold keyv in Hk.
  rewrite Hn in Hk. simpl in Hk. destruct (h' !! a); [eauto|done].
Qed.

Lemma ARCLRU_evictLeastRecent_empty c lg :
  inv c [] lg → evictLeastRecent c = Some c.
Proof.
  intros [_ _ (mh & mt & gh & gt & Hmh & Hmt & _ & _ & Hd & _) _ _].
  destruct (dll_adj _ _ [] _ _ _ Hd) as (_ & Hp & _).
  apply pvv_Some in Hp as (nt & Ht & Hp).
  unfold evictLeastRecent, rd. heap_run.
  by rewrite bool_decide_eq_true_2 by auto.
Qed.

Lemma ARCLRU_evictLeastRecent_inv c lm x lg :
  inv c (lm ++ [x]) lg →
  ∃ c' lg' k, evictLeastRecent c = Some c' ∧ inv c' lm lg'
    ∧ capacity_ c' = capacity_ c
    ∧ mainCache_ c !! k = Some x
    ∧ mainCache_ c' = delete k (mainCache_ c)
    ∧ same_data (heap c) (heap c').
Proof.
  intros [Hcap Hgcap (mh & mt & gh & gt & Hmh & Hmt & Hgh & Hgt & Hl) Hmm Hgm].
  pose proof Hl as (Hdm & Hdg & Hdisj).
  destruct (chain_back mh mt lm) as (pre & p & Hc & Hc' & _).
  pose proof Hdm as Hdm0. rewrite Hc' in Hdm.
  destruct (dll_mid _ _ _ _ _ _ _ Hdm) as (_ & _ & Hp & _ & _ & ? & ?).
  apply pvv_Some in Hp as (nt & Ht & Hp).
  destruct (unlink_mid _ pre p x mt [] Hdm) as (h1 & Hu & Hd1 & Hi1 & He1 & Hal1).
  rewrite <-Hc in Hd1.
  destruct (chain_NoDup_inner _ _ _ _ Hdm0) as (Hndl & Hmhx & Hmtx & _).
  assert (x ≠ mh) by set_solver.
  assert (x ∉ chain mh lm mt) as Hxm.
  { unfold chain. apply NoDup_app in Hndl as (_ & Hdj & _). set_solver. }
  assert (two_lists h1 (chain mh lm mt) (chain gh lg gt)) as Hl1.
  { eapply two_lists_update; [exact Hl|done|exact He1|..].
    - intros a Ha. apply Hdisj. rewrite Hc'. set_solver.
    - intros a Ha. apply Hdisj. unfold chain in *. set_solver. }
  set (c1 := with_heap h1 c).
  assert (points_into h1 (ghostCache_ c) lg) as Hgm1.
  { eapply points_into_same; [done|by apply same_info_data|done]. }
  (* the optional removal of the oldest ghost *)
  assert (∃ h2 g2 lg2,
    (if bool_decide (Z.of_nat (size (ghostCache_ c)) >= ghostCapacity_ c)
     then removeOldestGhostNode c1 else Some c1)
    = Some (with_ghost g2 (with_heap h2 c))
    ∧ dll (nxv h2) (pvv h2) (chain gh lg2 gt)
    ∧ points_into h2 g2 lg2 ∧ same_info h1 h2
    ∧ same_except (chain gh lg gt) h1 h2 ∧ (∀ a, a ∈ lg2 → a ∈ lg))
    as (h2 & g2 & lg2 & Hstep2 & Hd2 & Hgm2 & Hi2 & He2 & Hsub2).
  { case_bool_decide.
    - destruct (ARCLRU_removeOldestGhostNode_spec c1 gh gt lg)
        as (h2 & g2 & lg2 & -> & ? & ? & ? & ? & ?); [done..|apply Hl1|done|].
      exists h2, g2, lg2. split_and!; try done.
    - exists h1, (ghostCache_ c), lg. split_and!; try done.
      apply Hl1. }
  set (c2 := with_ghost g2 (with_heap h2 c)).
  assert (two_lists h2 (chain gh lg2 gt) (chain mh lm mt)) as Hl2.
  { eapply two_lists_update; [apply two_lists_sym; exact Hl1|done|exact He2|..].
    - intros a Ha Hin. eapply Hl1; done.
    - intros a Ha Hin. eapply Hl1; [done|]. unfold chain in *. set_solver. }
  assert (is_Some (h2 !! x)) as [nx2 Hx2].
  { eapply alloc_same; [apply same_info_data; exact Hi2|done]. }
  assert (x ∉ chain gh lg2 gt) as Hxg.
  { intros Hin. eapply (Hdisj x); [unfold chain; set_solver|].
    unfold chain in *. set_solver. }
  destruct (ARCLRU_addToGhostCache_spec c2 gh gt lg2 x nx2)
    as (h3 & Hstep3 & Hd3 & Hi3 & He3); [done..|].
  assert (two_lists h3 (chain mh lm mt) (chain gh (x :: lg2) gt)) as Hl3.
  { apply two_lists_sym.
    eapply two_lists_update; [exact Hl2|done|exact He3|..].
    - intros a [->|Ha]%elem_of_cons; [done|]. intros ?. eapply Hl2; done.
    - intros a Ha Hin. unfold chain in Ha. simpl in Ha.
      apply elem_of_cons in Ha as [->|Ha].
      + eapply Hl2; [|exact Hin]. unfold chain. set_solver.
      + apply elem_of_cons in Ha as [->|Ha]; [done|].
        eapply Hl2; [|exact Hin]. unfold chain. set_solver. }
  assert (same_data (heap c) h3) as Hdat.
  { eapply same_data_trans; [|exact Hi3].
    apply same_info_data. eapply same_info_trans; done. }
  assert (keyv h3 x = Some (key_ nx2)) as Hk3.
  { destruct (Hi3 x) as [-> _]. unfold keyv. simpl. by rewrite Hx2. }
  apply keyv_Some in Hk3 as (nx3 & Hx3 & Hk3).
  assert (keyv (heap c) x = Some (key_ nx2)) as Hk0.
  { destruct (Hdat x) as [<- _]. unfold keyv. rewrite Hx3. simpl. congruence. }
  destruct (agrees_delete _ _ _ lm x (key_ nx2) Hmm Hk0) as [Hmm' Hmx].
  { set_solver. }
  { intros a. apply NoDup_app in Hndl as (_ & Hdj & _). set_solver. }
  eexists _, (x :: lg2), (key_ nx2). split; [|split_and!].
  - unfold evictLeastRecent, rd. heap_run. rewrite bool_decide_eq_false_2.
    2:{ intros [?|[= ->]]; done. }
    unfold removeFromMainCache, upd. rewrite Hu. simpl.
    fold c1. rewrite Hstep2. simpl. fold c2. rewrite Hstep3. simpl.
    rewrite Hx3. simpl. rewrite Hk3. reflexivity.
  - split; simpl; try done.
    + exists mh, mt, gh, gt. split_and!; done.
    + eapply agrees_same; [exact Hmm'|done|done].
    + apply points_into_insert.
      * eapply points_into_same; [exact Hgm2|done|done].
      * unfold keyv. rewrite Hx3. simpl. by rewrite Hk3.
  - done.
  - done.
  - done.
  - done.
Qed.

Lemma inv_same_shape c lm lg h' :
  inv c lm lg → same_shape (heap c) h' → inv (with_heap h' c) lm lg.
Proof.
  intros [? ? (mh & mt & gh & gt & ? & ? & ? & ? & Hl) Hm Hg] Hs.
  split; simpl; try done.
  - exists mh, mt, gh, gt. split_and!; try done. by eapply two_lists_same_shape.
  - by eapply agrees_same_shape.
  - by eapply points_into_same_shape.
Qed.

Lemma main_alloc c lm lg x : inv c lm lg → x ∈ lm → is_Some (heap c !! x).
Proof.
  intros [_ _ (mh & mt & gh & gt & _ & _ & _ & _ & Hd & _) _ _] Hx.
  eapply dll_alloc; [exact Hd|apply chain_length|]. unfold chain. set_solver.
Qed.

Lemma all_alloc c lm lg :
  inv c lm lg →
  ∀ mh mt gh gt, mainHead_ c = Some mh → mainTail_ c = Some mt →
    ghostHead_ c = Some gh → ghostTail_ c = Some gt →
    ∀ a, a ∈ chain mh lm mt ∨ a ∈ chain gh lg gt → is_Some (heap c !! a).
Proof.
  intros [_ _ (mh & mt & gh & gt & ? & ? & ? & ? & Hdm & Hdg & _) _ _].
  intros ???? ???? a [Ha|Ha]; simplify_eq.
  - eapply dll_alloc; [exact Hdm|apply chain_length|done].
  - eapply dll_alloc; [exact Hdg|apply chain_length|done].
Qed.

Lemma moveToFront_inv c lm lg x :
  inv c lm lg → x ∈ lm →
  ∃ h' lm', moveToFront (Some x) c = Some (with_heap h' c)
            ∧ inv (with_heap h' c) lm' lg
            ∧ same_info (heap c) h'.
Proof.
  intros [Hcap Hgcap (mh & mt & gh & gt & Hmh & Hmt & Hgh & Hgt & Hl) Hmm Hgm] Hx.
  pose proof Hl as (Hdm & Hdg & Hdisj).
  destruct (list_unlink _ mh mt lm x Hdm Hx)
    as (h1 & l1 & l2 & -> & Hu & Hd1 & Hi1 & He1 & [nx1 Hx1] & Hnin1).
  destruct (addToFront_spec (with_heap h1 c) mh mt (l1 ++ l2) x nx1)
    as (h2 & Hstep & Hd2 & Hi2 & He2); [done..|].
  change (heap (with_heap h1 c)) with h1 in *.
  assert (∀ a, a ∈ chain mh (l1 ++ l2) mt → a ∈ chain mh (l1 ++ x :: l2) mt) as Hsub.
  { unfold chain. set_solver. }
  exists h2, (x :: l1 ++ l2). split_and!.
  - unfold moveToFront, upd. rewrite Hu. simpl. exact Hstep.
  - split; simpl; try done.
    + exists mh, mt, gh, gt. split_and!; try done.
      eapply two_lists_update; [exact Hl|done|by eapply same_except_trans|..].
      * intros a Ha. apply Hdisj. revert Ha. rewrite elem_of_app, elem_of_cons.
        intros [?|[->|?]]; [done|unfold chain; set_solver|auto].
      * intros a Ha. apply Hdisj. unfold chain in *. set_solver.
    + eapply agrees_same; [done| |set_solver].
      apply same_info_data. by eapply same_info_trans.
    + eapply points_into_same; [done| |done].
      apply same_info_data. by eapply same_info_trans.
  - by eapply same_info_trans.
Qed.

Lemma ARCLRU_removeOldestGhostNode_inv c lm lg :
  inv c lm lg →
  ∃ c' lg', removeOldestGhostNode c = Some c' ∧ inv c' lm lg'
    ∧ capacity_ c' = capacity_ c ∧ mainCache_ c' = mainCache_ c
    ∧ same_info (heap c) (heap c').
Proof.
  intros [Hcap Hgcap (mh & mt & gh & gt & Hmh & Hmt & Hgh & Hgt & Hl) Hmm Hgm].
  pose proof Hl as (Hdm & Hdg & Hdisj).
  destruct (ARCLRU_removeOldestGhostNode_spec c gh gt lg)
    as (h' & g' & lg' & -> & Hd' & Hp' & Hi' & He' & Hsub); [done..|].
  eexists _, lg'. split; [reflexivity|]. split_and!; simpl; try done.
  split; simpl; try done.
  - exists mh, mt, gh, gt. split_and!; try done. apply two_lists_sym.
    eapply two_lists_update; [apply two_lists_sym; exact Hl|done|exact He'|..].
    + intros a Ha Hin. by eapply Hdisj.
    + intros a Ha Hin. eapply Hdisj; [done|]. unfold chain in *. set_solver.
  - eapply agrees_same; [done|by apply same_info_data|done].
Qed.

Lemma ARCLRU_new_inv capacity transformThreshold :
  0 ≤ capacity < 2 ^ 64 →
  ∃ c, new capacity transformThreshold = Some c ∧ inv c [] []
       ∧ capacity_ c = capacity ∧ mainCache_ c = ∅
       ∧ transformThreshold_ c = transformThreshold.
Proof.
  intros Hcap.
  unfold new, initializeCache, make_shared, wr_next, wr_prev. simpl.
  alloc_fresh mh. clear Hf. heap_run.
  alloc_fresh mt. assert (mt ≠ mh) by naive_solver. clear Hf. heap_run.
  alloc_fresh gh. assert (gh ≠ mh ∧ gh ≠ mt) as [? ?] by naive_solver.
  clear Hf. heap_run.
  alloc_fresh gtl.
  assert (gtl ≠ mh ∧ gtl ≠ mt ∧ gtl ≠ gh) as (? & ? & ?) by naive_solver.
  clear Hf. heap_run.
  eexists. split; [reflexivity|]. split_and!; try done.
  split; simpl; try done.
  - exists mh, mt, gh, gtl. split_and!; try done. unfold chain. simpl.
    split_and!.
    + split_and!; simpl.
      * apply NoDup_cons. split; [set_solver|]. apply NoDup_singleton.
      * split; [|done]. view_solve.
      * split; [|done]. view_solve.
    + split_and!; simpl.
      * apply NoDup_cons. split; [set_solver|]. apply NoDup_singleton.
      * split; [|done]. view_solve.
      * split; [|done]. view_solve.
    + set_solver.
  - intros k p. rewrite lookup_empty. set_solver.
Qed.

Local Arguments moveToFront : simpl never.

Lemma mainCache_in_list c lm lg k p :
  inv c lm lg → mainCache_ c !! k = Some p → p ∈ lm.
Proof. intros [_ _ _ Hm _] Hk. by apply Hm in Hk as [? _]. Qed.

Lemma size_pos_last c lm lg :
  inv c lm lg → (0 < size (mainCache_ c))%nat → ∃ lm' x, lm = lm' ++ [x].
Proof.
  intros Hinv Hsz.
  destruct (map_choose (mainCache_ c)) as (k & p & Hkp).
  { intros Hemp. rewrite Hemp, map_size_empty in Hsz. lia. }
  apply (mainCache_in_list _ _ _ _ _ Hinv) in Hkp.
  destruct (decide (lm = [])) as [->|Hne]; [set_solver|].
  destruct (exists_last Hne) as (lm' & x & ->). eauto.
Qed.

Lemma ARCLRU_get_inv c key value st :
  wf c →
  ∃ hit v st' c', get key value st c = Some (hit, v, st', c') ∧ wf c'
    ∧ capacity_ c' = capacity_ c ∧ mainCache_ c' = mainCache_ c
    ∧ hit = bool_decide (is_Some (mainCache_ c !! key))
    ∧ (hit = false → v = value ∧ st' = st ∧ c' = c).
Proof.
  intros (lm & lg & Hinv). unfold get.
  destruct (mainCache_ c !! key) as [x|] eqn:Hk.
  - assert (x ∈ lm) as Hx by by eapply mainCache_in_list.
    destruct (moveToFront_inv c lm lg x Hinv Hx) as (h1 & lm1 & Hmv & Hinv1 & Hi1).
    destruct (main_alloc c lm lg x Hinv Hx) as [nx Hnx].
    assert (is_Some (h1 !! x)) as [nx1 Hnx1].
    { eapply alloc_same; [apply same_info_data; exact Hi1|eauto]. }
    destruct (incrementAccessCount_spec h1 x nx1 Hnx1) as (h2 & Hinc & Hs2 & Hv2 & Hc2).
    pose proof (inv_same_shape _ _ _ h2 Hinv1 Hs2) as Hinv2.
    assert (is_Some (h2 !! x)) as [nx2 Hnx2].
    { destruct (Hs2 x) as (_ & _ & Hkx). unfold keyv in Hkx. rewrite Hnx1 in Hkx.
      destruct (h2 !! x); [eauto|done]. }
    eexists true, (val_ nx2), _, (with_heap h2 c). split_and!.
    + unfold updateNodeAccess, upd. rewrite Hmv. simpl.
      change (heap (with_heap h1 c)) with h1. rewrite Hinc. simpl.
      unfold rd. simpl. change (heap (with_heap h2 (with_heap h1 c))) with h2.
      rewrite Hnx2. simpl. change (heap (with_heap h2 (with_heap h1 c))) with h2.
      rewrite Hnx2. simpl. reflexivity.
    + exists lm1, lg. exact Hinv2.
    + done.
    + done.
    + rewrite bool_decide_eq_true_2; eauto.
    + done.
  - exists false, value, st, c. split_and!; try done.
    by exists lm, lg.
Qed.

Lemma ARCLRU_updateExistingNode_inv c lm lg x value :
  inv c lm lg → x ∈ lm →
  ∃ h' lm', updateExistingNode (Some x) value c = Some (true, with_heap h' c)
            ∧ inv (with_heap h' c) lm' lg.
Proof.
  intros Hinv Hx.
  destruct (main_alloc c lm lg x Hinv Hx) as [nx Hnx].
  destruct (setValue_spec (heap c) x nx value Hnx) as (h1 & Hset & Hs1 & _).
  pose proof (inv_same_shape _ _ _ h1 Hinv Hs1) as Hinv1.
  destruct (moveToFront_inv _ lm lg x Hinv1 Hx) as (h2 & lm2 & Hmv & Hinv2 & _).
  exists h2, lm2. split; [|exact Hinv2].
  unfold updateExistingNode, upd. rewrite Hset. simpl. rewrite Hmv. reflexivity.
Qed.

Lemma ARCLRU_addNewNode_inv c lm lg key value :
  inv c lm lg → mainCache_ c !! key = None → 0 < capacity_ c →
  ∃ c', addNewNode key value c = Some (true, c') ∧ wf c'
        ∧ capacity_ c' = capacity_ c
        ∧ (bounded c → bounded c').
Proof.
  intros Hinv Hkey Hcap. unfold addNewNode.
  assert (∃ c1 lm1 lg1,
    (if bool_decide (Z.of_nat (size (mainCache_ c)) >= capacity_ c)
     then evictLeastRecent c else Some c) = Some c1
    ∧ inv c1 lm1 lg1 ∧ capacity_ c1 = capacity_ c
    ∧ mainCache_ c1 !! key = None
    ∧ (bounded c → Z.of_nat (size (mainCache_ c1)) < capacity_ c))
    as (c1 & lm1 & lg1 & -> & Hinv1 & Hcap1 & Hkey1 & Hb1).
  { case_bool_decide as Hfull.
    - destruct (size_pos_last c lm lg Hinv) as (lm' & x & ->); [lia|].
      destruct (ARCLRU_evictLeastRecent_inv c lm' x lg Hinv)
        as (c1 & lg1 & k & -> & ? & ? & Hk & Hm & _).
      exists c1, lm', lg1. split_and!; [done..| |].
      + rewrite Hm. rewrite lookup_delete_ne; [done|congruence].
      + unfold bounded. rewrite Hm. intros ?.
        rewrite map_size_delete_Some by eauto. lia.
    - exists c, lm, lg. split_and!; [done..|]. lia. }
  simpl. unfold make_shared.
  set (p := fresh (dom (heap c1))).
  assert (heap c1 !! p = None) as Hp by apply fresh_not_alloc.
  set (h2 := <[p := mkNode key value 1 None None]> (heap c1)).
  destruct Hinv1 as [Hc1 Hg1 (mh & mt & gh & gt & Hmh & Hmt & Hgh & Hgt & Hl) Hmm Hgm].
  pose proof Hl as (Hdm & Hdg & Hdisj).
  assert (∀ a, a ∈ chain mh lm1 mt ∨ a ∈ chain gh lg1 gt → a ≠ p) as Hpn.
  { intros a Ha ->.
    assert (is_Some (heap c1 !! p)) as [? ?]; [|congruence].
    destruct Ha; (eapply dll_alloc; [|apply chain_length|done]); done. }
  assert (same_except [p] (heap c1) h2) as He2.
  { intros a Ha. subst h2. rewrite lookup_insert_ne; [done|set_solver]. }
  assert (two_lists h2 (chain mh lm1 mt) (chain gh lg1 gt)) as Hl2.
  { eapply two_lists_update; [exact Hl| |exact He2|..].
    - eapply dll_same_except; [exact He2| |done].
      intros a Ha [->|?]%elem_of_cons; [|set_solver]. by eapply Hpn; [left|].
    - intros a [->|?]%elem_of_cons; [|set_solver]. intros ?. by eapply Hpn; [right|].
    - done. }
  set (c2 := with_main (<[key := p]> (mainCache_ c1)) (with_heap h2 c1)).
  destruct (addToFront_spec c2 mh mt lm1 p (mkNode key value 1 None None))
    as (h3 & Hstep & Hd3 & Hi3 & He3); [done..|apply Hl2| | |].
  { subst c2 h2. simpl. by rewrite lookup_insert_eq. }
  { intros Hin. by eapply Hpn; [left|]. }
  change (heap c2) with h2 in *.
  fold h2. fold c2. rewrite Hstep. simpl.
  eexists. split; [reflexivity|]. split_and!; simpl.
  - exists (p :: lm1), lg1. split; simpl; try done.
    + exists mh, mt, gh, gt. split_and!; try done.
      eapply two_lists_update; [exact Hl2|done|exact He3|..].
      * intros a [->|Ha]%elem_of_cons; [intros ?; by eapply Hpn; [right|]|].
        by apply Hdisj.
      * unfold chain. simpl. intros a [->|[->|Ha]%elem_of_cons]%elem_of_cons.
        -- apply Hdisj. unfold chain. set_solver.
        -- intros ?. by eapply Hpn; [right|].
        -- apply Hdisj. unfold chain. set_solver.
    + eapply (agrees_insert (heap c1));
        [exact Hmm|done| | | |intros; apply elem_of_cons].
      * destruct (Hi3 p) as (-> & _). subst h2. unfold keyv.
        by rewrite lookup_insert_eq.
      * intros Hin. eapply Hpn; [left|done]. unfold chain. set_solver.
      * intros a Ha. destruct (Hi3 a) as (-> & _). unfold keyv. subst h2.
        rewrite lookup_insert_ne; [done|]. intros <-.
        eapply Hpn; [left|done]. unfold chain. set_solver.
    + intros k q Hk. destruct (Hgm k q Hk) as [Hq Hkq]. split; [done|].
      destruct (Hi3 q) as (-> & _). unfold keyv. subst h2.
      rewrite lookup_insert_ne; [done|]. intros <-.
      eapply Hpn; [right|done]. unfold chain. set_solver.
  - done.
  - unfold bounded. simpl. intros Hb. specialize (Hb1 Hb).
    rewrite map_size_insert_None by done. lia.
Qed.

Lemma ARCLRU_put_inv c key value :
  wf c →
  ∃ b c', put key value c = Some (b, c') ∧ wf c'
          ∧ capacity_ c' = capacity_ c
          ∧ (bounded c → bounded c').
Proof.
  intros (lm & lg & Hinv). unfold put. case_bool_decide as Hcap.
  { exists false, c. split_and!; [done|by exists lm, lg|done..]. }
  destruct (mainCache_ c !! key) as [x|] eqn:Hkey.
  - assert (x ∈ lm) as Hx by by eapply mainCache_in_list.
    destruct (ARCLRU_updateExistingNode_inv c lm lg x value Hinv Hx) as (h' & lm' & -> & Hinv').
    exists true, (with_heap h' c). split_and!; [done|by exists lm', lg|done..].
  - destruct (ARCLRU_addNewNode_inv c lm lg key value Hinv Hkey) as (c' & -> & ? & ? & ?).
    { destruct Hinv as [? _ _ _ _]. lia. }
    exists true, c'. split_and!; done.
Qed.

Lemma ARCLRU_checkGhost_inv c key :
  wf c →
  ∃ b c', checkGhost key c = Some (b, c') ∧ wf c'
          ∧ capacity_ c' = capacity_ c ∧ mainCache_ c' = mainCache_ c
          ∧ b = bool_decide (is_Some (ghostCache_ c !! key))
          ∧ (b = false → c' = c).
Proof.
  intros (lm & lg & Hinv). unfold checkGhost.
  destruct (ghostCache_ c !! key) as [x|] eqn:Hk.
  - destruct Hinv as [Hcap Hgcap (mh & mt & gh & gt & Hmh & Hmt & Hgh & Hgt & Hl) Hmm Hgm].
    pose proof Hl as (Hdm & Hdg & Hdisj).
    destruct (Hgm key x Hk) as [Hx Hkx].
    destruct (list_unlink _ gh gt lg x Hdg Hx)
      as (h1 & l1 & l2 & -> & Hu & Hd1 & Hi1 & He1 & _ & Hnin1).
    unfold removeFromGhostCache, upd. rewrite Hu. simpl.
    eexists true, _. split; [reflexivity|]. split_and!; simpl; try done.
    exists lm, (l1 ++ l2). split; simpl; try done.
      * exists mh, mt, gh, gt. split_and!; try done. apply two_lists_sym.
        eapply two_lists_update; [apply two_lists_sym; exact Hl|done|exact He1|..].
        -- intros a Ha Hin. by eapply Hdisj.
        -- intros a Ha Hin. eapply Hdisj; [done|]. unfold chain in *. set_solver.
      * eapply agrees_same; [done|by apply same_info_data|done].
      * eapply points_into_delete.
        -- eapply points_into_same; [done|by apply same_info_data|done].
        -- destruct (Hi1 x) as (-> & _). done.
        -- set_solver.
  - exists false, c. split_and!; try done.
    by exists lm, lg.
Qed.

Lemma ARCLRU_increaseCapacity_inv c :
  wf c → capacity_ c + 1 < 2 ^ 64 →
  wf (increaseCapacity c)
  ∧ capacity_ (increaseCapacity c) = capacity_ c + 1
  ∧ mainCache_ (increaseCapacity c) = mainCache_ c
  ∧ (bounded c → bounded (increaseCapacity c)).
Proof.
  intros (lm & lg & [Hcap Hgcap Hl Hmm Hgm]) Hlt.
  assert (to_size_t (capacity_ c + 1) = capacity_ c + 1) as Hsz.
  { unfold to_size_t. apply Z.mod_small. lia. }
  split_and!.
  - exists lm, lg. split; simpl; try done.
    + rewrite Hsz. lia.
    + by rewrite Hgcap.
  - done.
  - done.
  - unfold bounded. simpl. rewrite Hsz. lia.
Qed.

Lemma ARCLRU_decreaseCapacity_inv c :
  wf c →
  ∃ b c', decreaseCapacity c = Some (b, c') ∧ wf c'
    ∧ (bounded c → bounded c')
    ∧ (if b then capacity_ c' = capacity_ c - 1 ∧ 0 < capacity_ c
       else c' = c ∧ capacity_ c = 0)
    ∧ mainCache_ c' ⊆ mainCache_ c.
Proof.
  intros (lm & lg & Hinv). unfold decreaseCapacity.
  pose proof (inv_cap _ _ _ Hinv) as Hcap.
  case_bool_decide as Hz.
  { exists false, c. split_and!; [done|by exists lm, lg|done|done|lia|done]. }
  assert (∃ c1 lm1 lg1,
    (if bool_decide (Z.of_nat (size (mainCache_ c)) = capacity_ c)
     then evictLeastRecent c else Some c) = Some c1
    ∧ inv c1 lm1 lg1 ∧ capacity_ c1 = capacity_ c
    ∧ (bounded c → Z.of_nat (size (mainCache_ c1)) < capacity_ c)
    ∧ mainCache_ c1 ⊆ mainCache_ c)
    as (c1 & lm1 & lg1 & -> & Hinv1 & Hcap1 & Hb1 & Hsub1).
  { case_bool_decide as Hfull.
    - destruct (size_pos_last c lm lg Hinv) as (lm' & x & ->); [lia|].
      destruct (ARCLRU_evictLeastRecent_inv c lm' x lg Hinv)
        as (c1 & lg1 & k & -> & ? & ? & Hk & Hm & _).
      exists c1, lm', lg1. split_and!; [done..| |].
      + unfold bounded. rewrite Hm. intros ?.
        rewrite map_size_delete_Some by eauto. lia.
      + rewrite Hm. apply delete_subseteq.
    - exists c, lm, lg. split_and!; [done..| |done]. unfold bounded. lia. }
  simpl.
  assert (∃ c2 lg2,
    (if bool_decide (Z.of_nat (size (ghostCache_ c1)) = ghostCapacity_ c1)
     then removeOldestGhostNode c1 else Some c1) = Some c2
    ∧ inv c2 lm1 lg2 ∧ capacity_ c2 = capacity_ c
    ∧ mainCache_ c2 = mainCache_ c1)
    as (c2 & lg2 & -> & Hinv2 & Hcap2 & Hm2).
  { case_bool_decide.
    - destruct (ARCLRU_removeOldestGhostNode_inv c1 lm1 lg1 Hinv1)
        as (c2 & lg2 & -> & ? & ? & ? & _).
      exists c2, lg2. split_and!; [done..|congruence|done].
    - exists c1, lg1. split_and!; done. }
  simpl. eexists true, _. split; [reflexivity|].
  assert (to_size_t (capacity_ c2 - 1) = capacity_ c2 - 1) as Hsz.
  { unfold to_size_t. apply Z.mod_small. lia. }
  destruct Hinv2 as [? Hg2 ? ? ?].
  split_and!; simpl.
  - exists lm1, lg2. split; simpl; try done.
    + rewrite Hsz. lia.
    + by rewrite Hg2.
  - unfold bounded. simpl. rewrite Hsz, Hm2. intros Hb. specialize (Hb1 Hb). lia.
  - rewrite Hsz. lia.
  - lia.
  - by rewrite Hm2.
Qed.
End ARCLRUFacts.
End ARCLRUFacts.

Import ARCNodeFacts.

Module ARCLFUFacts.
Section ARCLFUFacts.
Context {Key Value : Type} `{Countable Key}.
Context `{DefaultConstructible Key} `{DefaultConstructible Value}.
Import ARCNode ARCInv ARCLFU ARCLFUInv.
Implicit Types (h : gmap ptr (ARCNode Key Value)) (c : ARCLFUCache Key Value).
Implicit Types (fm : gmap Z (list ptr)).

Lemma begin_spec fm : fm ≠ ∅ → ∃ f, begin fm = Some f ∧ is_Some (fm !! f).
Proof.
  intros Hne. unfold begin.
  assert (∀ l : list (Z * list ptr), l ≠ [] →
    ∃ f, foldr (λ '(f, _) acc, match acc with
                               | None => Some f
                               | Some g => Some (Z.min f g)
                               end) None l = Some f
         ∧ f ∈ l.*1) as Hfold.
  { induction l as [|[f lf] l IH]; [done|]. intros _.
    destruct (decide (l = [])) as [->|Hl].
    - exists f. simpl. split; [done|set_solver].
    - destruct (IH Hl) as (g & Hfg & Hg). simpl. rewrite Hfg.
      exists (Z.min f g). split; [done|].
      destruct (Z.min_spec f g) as [[_ ->]|[_ ->]]; set_solver. }
  destruct (Hfold (map_to_list fm)) as (f & Hf & Hin).
  { intros Hnil. apply map_to_list_empty_iff in Hnil. done. }
  exists f. split; [done|].
  apply list_elem_of_fmap in Hin as ([f' l] & -> & Hin). simpl.
  apply elem_of_map_to_list in Hin. eauto.
Qed.

Lemma updateNodeFrequency_eq c p np l :
  heap c !! p = Some np →
  freqMap_ c !! count_ np = Some l →
  let old := count_ np in
  let new := to_size_t (old + 1) in
  let h1 := <[p := mkNode (key_ np) (val_ np) new (prev_ np) (next np)]> (heap c) in
  updateNodeFrequency p c
  = Some (if decide (old = new) then with_heap h1 c
          else with_minFreq (moved_minFreq (minFreq_ c) p old new l)
                 (with_freqMap (moved (freqMap_ c) p old new l) (with_heap h1 c))).
Proof.
  intros Hp Hl old new h1.
  unfold updateNodeFrequency, upd, incrementAccessCount, wr_count, rd. heap_run.
  fold old new h1. case_bool_decide as Hon; [by rewrite decide_True|].
  rewrite decide_False by done.
  unfold moved, moved_minFreq.
  set (l' := filter (λ q, q ≠ p) l).
  destruct (decide (l' = [])) as [Hl'|Hl'].
  - rewrite !(bool_decide_eq_true_2 (l' = [])) by done.
    destruct (decide (minFreq_ c = old)) as [Hmf|Hmf].
    + rewrite !(bool_decide_eq_true_2 (minFreq_ c = old)) by done. simpl.
      rewrite !delete_insert_eq.
      destruct (delete old (freqMap_ c) !! new) as [l2|] eqn:Hnew; simpl;
        rewrite ?Hnew, ?lookup_insert_eq; simpl; rewrite ?insert_insert_eq;
        reflexivity.
    + rewrite !(bool_decide_eq_false_2 (minFreq_ c = old)) by done. simpl.
      rewrite !delete_insert_eq.
      destruct (delete old (freqMap_ c) !! new) as [l2|] eqn:Hnew; simpl;
        rewrite ?Hnew, ?lookup_insert_eq; simpl; rewrite ?insert_insert_eq;
        reflexivity.
  - rewrite !(bool_decide_eq_false_2 (l' = [])) by done. simpl.
    destruct (<[old := l']> (freqMap_ c) !! new) as [l2|] eqn:Hnew; simpl;
      rewrite ?Hnew, ?lookup_insert_eq; simpl; rewrite ?insert_insert_eq;
        reflexivity.
Qed.

Lemma moved_lookup fm p old new l g :
  old ≠ new →
  moved fm p old new l !! g
  = if decide (g = new) then Some (default [] (fm !! new) ++ [p])
    else if decide (g = old)
         then (if decide (filter (λ q, q ≠ p) l = []) then None
               else Some (filter (λ q, q ≠ p) l))
         else fm !! g.
Proof.
  intros Hon. unfold moved.
  set (l' := filter (λ q, q ≠ p) l).
  destruct (decide (l' = [])) as [Hl'|Hl'].
  - rewrite (lookup_delete_ne fm old new) by done.
    rewrite lookup_insert. case_decide; [by subst; rewrite decide_True|].
    rewrite decide_False by done. rewrite lookup_delete.
    case_decide; [by subst; rewrite decide_True|]. by rewrite decide_False.
  - rewrite (lookup_insert_ne fm old new) by done.
    rewrite lookup_insert. case_decide; [by subst; rewrite decide_True|].
    rewrite decide_False by done. rewrite lookup_insert.
    case_decide; [by subst; rewrite decide_True|]. by rewrite decide_False.
Qed.

Lemma listed_moved fm p old new l q :
  old ≠ new → fm !! old = Some l → p ∈ l →
  (∀ f lf, fm !! f = Some lf → p ∈ lf → f = old) →
  listed (moved fm p old new l) q ↔ listed fm q.
Proof.
  intros Hon Hl Hp Honly. unfold listed. split.
  - intros (g & lg & Hg & Hq). rewrite moved_lookup in Hg by done.
    repeat case_decide; simplify_eq.
    + apply elem_of_app in Hq as [Hq|Hq].
      * destruct (fm !! new) as [l2|] eqn:Hn; simpl in Hq; [eauto|set_solver].
      * apply list_elem_of_singleton in Hq as ->. eauto.
    + apply list_elem_of_filter in Hq as [_ Hq]. eauto.
    + eauto.
  - intros (g & lg & Hg & Hq). destruct (decide (q = p)) as [->|Hqp].
    + exists new. eexists. rewrite moved_lookup by done.
      rewrite decide_True by done. split; [done|set_solver].
    + destruct (decide (g = new)) as [->|Hgn].
      * exists new. eexists. rewrite moved_lookup, decide_True by done.
        split; [done|]. rewrite Hg. set_solver.
      * exists g. rewrite moved_lookup by done. rewrite decide_False by done.
        destruct (decide (g = old)) as [->|Hgo].
        -- assert (lg = l) as -> by congruence.
           assert (q ∈ filter (λ q, q ≠ p) l) as Hqf by by apply list_elem_of_filter.
           rewrite decide_False by (intros Hnil; rewrite Hnil in Hqf; set_solver).
           eauto.
        -- eauto.
Qed.

Lemma updateNodeFrequency_inv c lg p :
  inv c lg → listed (freqMap_ c) p →
  ∃ c', updateNodeFrequency p c = Some c' ∧ inv c' lg
        ∧ capacity_ c' = capacity_ c ∧ mainCache_ c' = mainCache_ c
        ∧ (∀ a, valv (heap c') a = valv (heap c) a)
        ∧ is_Some (heap c' !! p).
Proof.
  intros [Hcap Hgcap (gh & gt & Hgh & Hgt & Hdg & Hdisj) Hgm Hb Hmm Hmf] Hlisted.
  destruct Hlisted as (old & l & Hl & Hp).
  destruct (Hb old l Hl) as (Hlne & Hnd & Hcnt).
  pose proof (Hcnt p Hp) as Hcp. unfold cntv in Hcp.
  destruct (heap c !! p) as [np|] eqn:Hnp; simplify_eq/=.
  rewrite (updateNodeFrequency_eq c p np l Hnp Hl). simpl.
  set (new := to_size_t (count_ np + 1)).
  set (h1 := <[p := mkNode (key_ np) (val_ np) new (prev_ np) (next np)]> (heap c)).
  assert (same_shape (heap c) h1) as Hs1.
  { intros a. subst h1. split_and!; view_solve. }
  assert (∀ a, valv h1 a = valv (heap c) a) as Hv1.
  { intros a. subst h1. view_solve. }
  assert (∀ a, cntv h1 a = if decide (a = p) then Some new else cntv (heap c) a) as Hc1.
  { intros a. subst h1. view_solve. }
  assert (is_Some (h1 !! p)) as Hal1.
  { subst h1. rewrite lookup_insert_eq. eauto. }
  eexists. split; [reflexivity|].
  assert (∀ f lf, freqMap_ c !! f = Some lf → p ∈ lf → f = count_ np) as Honly.
  { intros f lf Hf Hpf. destruct (Hb f lf Hf) as (_ & _ & Hcf).
    specialize (Hcf p Hpf). unfold cntv in Hcf. rewrite Hnp in Hcf. by simplify_eq/=. }
  case_decide as Hon.
  - split_and!; simpl; try done. split; simpl; try done.
    + exists gh, gt. split_and!; try done.
      eapply dll_ext; [|exact Hdg]. intros a _.
      destruct (Hs1 a) as (? & ? & _). done.
    + by eapply points_into_same_shape.
    + intros f lf Hf. destruct (Hb f lf Hf) as (? & ? & Hcf). split_and!; [done..|].
      intros q Hq. rewrite Hc1. case_decide; [|auto]. subst q.
      rewrite (Honly f lf Hf Hq). by rewrite Hon.
    + intros k q. destruct (Hs1 q) as (_ & _ & ->). apply Hmm.
  - split_and!; simpl; try done. split; simpl; try done.
    + exists gh, gt. split_and!; try done.
      * eapply dll_ext; [|exact Hdg]. intros a _.
        destruct (Hs1 a) as (? & ? & _). done.
      * intros q Hq. apply Hdisj. by eapply listed_moved.
    + by eapply points_into_same_shape.
    + intros g lg' Hg. rewrite moved_lookup in Hg by done.
      repeat case_decide; simplify_eq.
      * split_and!.
        -- by destruct (default [] (freqMap_ c !! new)).
        -- apply NoDup_app. split_and!; [| |apply NoDup_singleton].
           ++ destruct (freqMap_ c !! new) as [l2|] eqn:Hn2; simpl; [|apply NoDup_nil_2].
              by destruct (Hb new l2 Hn2) as (_ & ? & _).
           ++ intros q Hq ->%list_elem_of_singleton.
              destruct (freqMap_ c !! new) as [l2|] eqn:Hn2; simpl in Hq; [|set_solver].
              apply Hon. symmetry. by eapply Honly.
        -- intros q [Hq|Hq]%elem_of_app.
           ++ destruct (freqMap_ c !! new) as [l2|] eqn:Hn2; simpl in Hq; [|set_solver].
              rewrite Hc1. case_decide; [done|].
              by destruct (Hb new l2 Hn2) as (_ & _ & ->).
           ++ apply list_elem_of_singleton in Hq as ->. rewrite Hc1.
              by rewrite decide_True.
      * split_and!; [done|by apply NoDup_filter|].
        intros q [Hqp Hq]%list_elem_of_filter. rewrite Hc1.
        rewrite decide_False by done. auto.
      * destruct (Hb g lg' Hg) as (? & ? & Hcg). split_and!; [done..|].
        intros q Hq. rewrite Hc1. case_decide; [|auto]. subst q.
        exfalso. by pose proof (Honly g lg' Hg Hq).
    + intros k q. destruct (Hs1 q) as (_ & _ & ->).
      rewrite listed_moved by done. apply Hmm.
    + intros _. unfold moved_minFreq.
      assert (is_Some (moved (freqMap_ c) p (count_ np) new l !! new)) as Hnew.
      { rewrite moved_lookup, decide_True by done. eauto. }
      destruct (Z.min_spec
        (if decide (filter (λ q, q ≠ p) l = [])
         then if decide (minFreq_ c = count_ np) then new else minFreq_ c
         else minFreq_ c) new) as [[_ ->]|[_ ->]]; [|done].
      assert (is_Some (freqMap_ c !! minFreq_ c)) as [lm Hlm].
      { apply Hmf. intros Hemp. rewrite Hemp in Hl. done. }
      repeat case_decide; try done;
        rewrite moved_lookup by done; repeat case_decide; simplify_eq; eauto.
Qed.

Lemma ARCLFU_addToGhostCache_spec c gh gt lg x nx :
  ghostHead_ c = Some gh → ghostTail_ c = Some gt →
  dll (nxv (heap c)) (pvv (heap c)) (chain gh lg gt) →
  heap c !! x = Some nx → x ∉ chain gh lg gt →
  ∃ h', addToGhostCache (Some x) c
        = Some (with_ghost (<[key_ nx := x]> (ghostCache_ c)) (with_heap h' c))
        ∧ dll (nxv h') (pvv h') (chain gh (lg ++ [x]) gt)
        ∧ same_info (heap c) h'
        ∧ same_except (x :: chain gh lg gt) (heap c) h'.
Proof.
  intros Hgh Hgt Hd Hx Hnin.
  destruct (ARCLRUFacts.chain_back gh gt lg) as (pre & p & Hc & Hc' & Hghin).
  rewrite Hc in Hd, Hnin. rewrite Hc'. setoid_rewrite Hc.
  destruct (dll_adj _ _ _ _ _ _ Hd) as (Hpt & Htp & ?).
  apply nxv_Some in Hpt as (np & Hp & Hpt).
  apply pvv_Some in Htp as (nt & Ht & Htp).
  assert (x ≠ p) by (intros ->; apply Hnin; set_solver).
  assert (x ≠ gt) by (intros ->; apply Hnin; set_solver).
  assert (x ≠ gh) by (intros ->; apply Hnin; set_solver).
  assert (gh ≠ gt).
  { intros ->. destruct Hd as (Hnd & _).
    apply NoDup_app in Hnd as (_ & Hdj & Hnd).
    apply elem_of_app in Hghin as [Hin|Hin].
    - eapply Hdj; [done|]. set_solver.
    - apply list_elem_of_singleton in Hin as ->. done. }
  assert (∃ nh q, heap c !! gh = Some nh ∧ next nh = Some q) as (nh & q & Hh & Hhq).
  { destruct Hd as (_ & Hn & _).
    destruct (path_defined (nxv (heap c)) (pre ++ [p]) gt gh) as [q Hq].
    - by rewrite <-app_assoc.
    - done.
    - apply nxv_Some in Hq as (nh & ? & ?). eauto. }
  destruct (decide (p = gh)) as [->|];
    [assert (nh = np) as -> by congruence|];
    (eexists; split;
      [unfold addToGhostCache, upd, rd, wr_next, wr_prev; heap_run;
       by destruct c|]);
    (split_and!;
      [eapply dll_insert; [exact Hd|done|..]; view_solve
      |intros a; split_and!; view_solve
      |intros a Ha; rewrite !lookup_insert_ne; [done|set_solver..]]).
Qed.

Lemma ARCLFU_removeOldestGhostNode_spec c gh gt lg :
  ghostHead_ c = Some gh → ghostTail_ c = Some gt →
  dll (nxv (heap c)) (pvv (heap c)) (chain gh lg gt) →
  points_into (heap c) (ghostCache_ c) lg →
  ∃ h' g' lg', removeOldestGhostNode c = Some (with_ghost g' (with_heap h' c))
        ∧ dll (nxv h') (pvv h') (chain gh lg' gt)
        ∧ points_into h' g' lg'
        ∧ same_info (heap c) h'
        ∧ same_except (chain gh lg gt) (heap c) h'
        ∧ (∀ a, a ∈ lg' → a ∈ lg).
Proof.
  intros Hgh Hgt Hd Hpi. unfold removeOldestGhostNode.
  destruct lg as [|o lg'].
  - destruct (dll_adj _ _ [] _ _ _ Hd) as (Hn & _ & _).
    apply nxv_Some in Hn as (nh & Hh & Hn).
    exists (heap c), (ghostCache_ c), [].
    split_and!; try done.
    unfold rd. heap_run. rewrite bool_decide_eq_false_2.
    2:{ intros [_ ?]. done. }
    by destruct c.
  - destruct (ARCLRUFacts.chain_front gh gt lg') as (n & post & Hc & Hc' & _).
    rewrite Hc' in Hd.
    destruct (dll_mid _ _ [] _ _ _ _ Hd) as (Hn & _ & _ & _ & ? & _ & _).
    apply nxv_Some in Hn as (nh & Hh & Hn).
    destruct (unlink_mid _ [] gh o n post Hd) as (h1 & Hu & Hd1 & Hi1 & He1 & [no Hno]).
    assert (o ≠ gt).
    { intros ->. destruct Hd as [Hnd _]. rewrite <-Hc' in Hnd. unfold chain in Hnd.
      apply NoDup_cons in Hnd as [_ Hnd]. simpl in Hnd.
      apply NoDup_cons in Hnd as [Hnd _]. set_solver. }
    assert (o ∉ chain gh lg' gt) as Hon.
    { rewrite Hc. destruct Hd as [Hnd _]. simpl in Hnd. revert Hnd.
      rewrite !NoDup_cons. set_solver. }
    set (h3 := <[o := mkNode (key_ no) (val_ no) (count_ no) None None]> h1).
    exists h3, (delete (key_ no) (ghostCache_ c)), lg'.
    assert (same_info h1 h3) as Hi3.
    { intros a. subst h3. split_and!; view_solve. }
    split_and!.
    + unfold rd. heap_run. rewrite bool_decide_eq_true_2.
      2:{ split; [done|]. by intros [= ->]. }
      unfold removeFromGhostCache, upd. rewrite Hu. simpl. rewrite Hno. simpl.
      unfold wr_next, wr_prev. heap_run. rewrite insert_insert_eq.
      by destruct c.
    + rewrite Hc. eapply dll_ext; [|exact Hd1]. intros a Ha.
      assert (a ≠ o) by (intros ->; apply Hon; by rewrite Hc).
      subst h3. split; view_solve.
    + intros k q Hk. apply lookup_delete_Some in Hk as [Hne' Hk].
      destruct (Hpi k q Hk) as [Hin Hkey].
      destruct (Hi1 q) as (Hkq & _). destruct (Hi3 q) as (Hkq3 & _).
      rewrite Hkq3, Hkq. split; [|done].
      apply elem_of_cons in Hin as [->|?]; [|done].
      destruct (Hi1 o) as (Hko & _). unfold keyv in Hko, Hkey.
      rewrite Hno in Hko. simpl in Hko. rewrite <-Hko in Hkey. simplify_eq.
    + by eapply same_info_trans.
    + intros a Ha. subst h3. rewrite lookup_insert_ne.
      * apply He1. rewrite Hc' in Ha. set_solver.
      * intros <-. apply Ha. unfold chain. set_solver.
    + set_solver.
Qed.

Local Arguments addToGhostCache : simpl never.
Local Arguments removeOldestGhostNode : simpl never.
Local Arguments updateNodeFrequency : simpl never.
Local Arguments with_heap : simpl never.
Local Arguments with_ghost : simpl never.
Local Arguments with_main : simpl never.
Local Arguments with_freqMap : simpl never.
Local Arguments with_minFreq : simpl never.

(** Rebuilding the invariant after a change of the ghost list only. *)
Lemma inv_ghost_change c lg h' g' lg' gh gt :
  inv c lg → ghostHead_ c = Some gh → ghostTail_ c = Some gt →
  dll (nxv h') (pvv h') (chain gh lg' gt) →
  points_into h' g' lg' →
  same_info (heap c) h' →
  (∀ p, listed (freqMap_ c) p → p ∉ chain gh lg' gt) →
  inv (with_ghost g' (with_heap h' c)) lg'.
Proof.
  intros [Hcap Hgcap _ Hgm Hb Hmm Hmf] Hgh Hgt Hd Hp Hi Hdisj.
  split; try done.
  - exists gh, gt. split_and!; done.
  - intros f l Hf. destruct (Hb f l Hf) as (? & ? & Hc). split_and!; [done..|].
    intros p Hp'. destruct (Hi p) as (_ & _ & Hcp).
    change (heap (with_ghost g' (with_heap h' c))) with h'. rewrite Hcp. auto.
  - intros k p. change (heap (with_ghost g' (with_heap h' c))) with h'.
    destruct (Hi p) as (-> & _). apply Hmm.
Qed.

Lemma listed_alloc c lg p : inv c lg → listed (freqMap_ c) p → is_Some (heap c !! p).
Proof.
  intros [_ _ _ _ Hb _ _] (f & l & Hf & Hp).
  destruct (Hb f l Hf) as (_ & _ & Hc). specialize (Hc p Hp).
  unfold cntv in Hc. destruct (heap c !! p); [eauto|done].
Qed.

Lemma ARCLFU_removeOldestGhostNode_inv c lg :
  inv c lg →
  ∃ c' lg', removeOldestGhostNode c = Some c' ∧ inv c' lg'
    ∧ capacity_ c' = capacity_ c ∧ mainCache_ c' = mainCache_ c
    ∧ freqMap_ c' = freqMap_ c ∧ minFreq_ c' = minFreq_ c
    ∧ same_info (heap c) (heap c')
    ∧ (∀ gh gt, ghostHead_ c = Some gh → ghostTail_ c = Some gt →
         ∀ a, a ∈ chain gh lg' gt → a ∈ chain gh lg gt)
    ∧ ghostHead_ c' = ghostHead_ c ∧ ghostTail_ c' = ghostTail_ c.
Proof.
  intros Hinv. pose proof Hinv as [_ _ (gh & gt & Hgh & Hgt & Hd & Hdisj) Hgm _ _ _].
  destruct (ARCLFU_removeOldestGhostNode_spec c gh gt lg)
    as (h' & g' & lg' & -> & Hd' & Hp' & Hi' & He' & Hsub); [done..|].
  eexists _, lg'. split; [reflexivity|]. split_and!; try done.
  - eapply inv_ghost_change; try done.
    intros p Hp Hin. eapply Hdisj; [done|]. unfold chain in *. set_solver.
  - intros ?? ?? a Ha. simplify_eq. unfold chain in *. set_solver.
Qed.

Lemma ARCLFU_checkGhost_inv c key :
  wf c →
  ∃ b c', checkGhost key c = Some (b, c') ∧ wf c'
          ∧ capacity_ c' = capacity_ c ∧ mainCache_ c' = mainCache_ c
          ∧ b = bool_decide (is_Some (ghostCache_ c !! key))
          ∧ (b = false → c' = c).
Proof.
  intros (lg & Hinv). unfold checkGhost.
  destruct (ghostCache_ c !! key) as [x|] eqn:Hk.
  - pose proof Hinv as [_ _ (gh & gt & Hgh & Hgt & Hd & Hdisj) Hgm _ _ _].
    destruct (Hgm key x Hk) as [Hx Hkx].
    destruct (list_unlink _ gh gt lg x Hd Hx)
      as (h1 & l1 & l2 & -> & Hu & Hd1 & Hi1 & He1 & _ & Hnin1).
    unfold removeFromGhostCache, upd. rewrite Hu. simpl.
    eexists true, _. split; [reflexivity|]. split_and!; try done.
    exists (l1 ++ l2).
    eapply (inv_ghost_change c _ h1 (delete key (ghostCache_ c))); try done.
    + eapply ARCLRUFacts.points_into_delete.
      * eapply ARCLRUFacts.points_into_same; [done|by apply same_info_data|done].
      * destruct (Hi1 x) as (-> & _). done.
      * set_solver.
    + intros p Hp Hin. eapply Hdisj; [done|]. unfold chain in *. set_solver.
  - exists false, c. split_and!; try done. by exists lg.
Qed.

(** Replace the first computation of a sequence by its known result. *)
Ltac step_with H :=
  match goal with
  | |- ?e ≫= _ = _ =>
      match type of H with
      | _ = ?r => replace e with r by (symmetry; exact H)
      end
  end; simpl.

Lemma ARCLFU_evictLeastRecent_empty c : freqMap_ c = ∅ → evictLeastRecent c = Some c.
Proof. intros Hfm. unfold evictLeastRecent. by rewrite bool_decide_eq_true_2. Qed.

Lemma popped_lookup fm mf l g :
  popped fm mf l !! g
  = if decide (g = mf) then (if decide (l = []) then None else Some l)
    else fm !! g.
Proof.
  unfold popped. case_decide.
  - rewrite lookup_delete. by repeat case_decide.
  - rewrite lookup_insert. by repeat case_decide.
Qed.

Lemma listed_popped fm mf p l q :
  fm !! mf = Some (p :: l) → NoDup (p :: l) →
  (∀ f lf, fm !! f = Some lf → p ∈ lf → f = mf) →
  listed (popped fm mf l) q ↔ listed fm q ∧ q ≠ p.
Proof.
  intros Hl Hnd Honly. apply NoDup_cons in Hnd as [Hpl Hnd]. unfold listed. split.
  - intros (g & lg & Hg & Hq). rewrite popped_lookup in Hg.
    repeat case_decide; simplify_eq.
    + split; [|set_solver]. exists mf, (p :: lg). set_solver.
    + split; [eauto|]. intros ->. by pose proof (Honly g lg Hg Hq).
  - intros [(g & lg & Hg & Hq) Hqp]. exists g.
    rewrite popped_lookup. case_decide; [|eauto]. simplify_eq.
    apply elem_of_cons in Hq as [?|Hq]; [done|].
    rewrite decide_False by (intros ->; set_solver). eauto.
Qed.

Lemma agrees_on_delete h (m : gmap Key ptr) (P P' : ptr → Prop) x k :
  (∀ k p, m !! k = Some p ↔ P p ∧ keyv h p = Some k) →
  keyv h x = Some k → P x →
  (∀ a, P' a ↔ P a ∧ a ≠ x) →
  m !! k = Some x
  ∧ ∀ k' p, delete k m !! k' = Some p ↔ P' p ∧ keyv h p = Some k'.
Proof.
  intros Ha Hk Hx Hl.
  assert (m !! k = Some x) as Hmx by by apply Ha.
  split; [done|].
  intros k' q. rewrite lookup_delete_Some, (Ha k' q), Hl. split.
  - intros (Hne & Hq & Hkq). split_and!; [done| |done]. intros ->. congruence.
  - intros ((Hq & Hne) & Hkq). split_and!; [|done..]. intros <-.
    assert (m !! k = Some q) by by apply Ha. congruence.
Qed.

Lemma ARCLFU_evictLeastRecent_inv c lg :
  inv c lg → freqMap_ c ≠ ∅ →
  ∃ c' lg' k p, evictLeastRecent c = Some c' ∧ inv c' lg'
    ∧ capacity_ c' = capacity_ c
    ∧ mainCache_ c !! k = Some p
    ∧ mainCache_ c' = delete k (mainCache_ c).
Proof.
  intros Hinv Hne.
  pose proof Hinv as [Hcap Hgcap (gh & gt & Hgh & Hgt & Hd & Hdisj) Hgm Hb Hmm Hmf].
  destruct (Hmf Hne) as [l Hl].
  destruct (Hb _ l Hl) as (Hlne & Hnd & Hcnt).
  destruct l as [|p l]; [done|]. clear Hlne.
  assert (∀ f lf, freqMap_ c !! f = Some lf → p ∈ lf → f = minFreq_ c) as Honly.
  { intros f lf Hf Hpf. destruct (Hb f lf Hf) as (_ & _ & Hcf).
    specialize (Hcf p Hpf). rewrite (Hcnt p) in Hcf by set_solver. congruence. }
  set (fm2 := popped (freqMap_ c) (minFreq_ c) l).
  (* the bucket bookkeeping *)
  assert (∃ mf2,
    (if bool_decide (l = []) then
       let c1 := with_freqMap (<[minFreq_ c := l]> (freqMap_ c)) c in
       let c1 := with_freqMap (delete (minFreq_ c) (freqMap_ c1)) c1 in
       if bool_decide (freqMap_ c1 ≠ ∅)
       then f ← begin (freqMap_ c1); Some (with_minFreq f c1)
       else Some (with_minFreq 0 c1)
     else Some (with_freqMap (<[minFreq_ c := l]> (freqMap_ c)) c))
    = Some (with_minFreq mf2 (with_freqMap fm2 c))
    ∧ (fm2 ≠ ∅ → is_Some (fm2 !! mf2))) as (mf2 & Hstep1 & Hmf2).
  { subst fm2. unfold popped. case_bool_decide as Hnil.
    - rewrite decide_True by done. simpl.
      change (freqMap_ (with_freqMap ?m _)) with m.
      rewrite delete_insert_eq.
      case_bool_decide as Hne2.
      + destruct (begin_spec _ Hne2) as (f & -> & Hf). simpl.
        exists f. split; [|done]. by destruct c.
      + exists 0. split; [by destruct c|]. done.
    - rewrite decide_False by done. exists (minFreq_ c). split; [by destruct c|].
      intros _. rewrite lookup_insert_eq. eauto. }
  set (c2 := with_minFreq mf2 (with_freqMap fm2 c)).
  assert (is_Some (heap c !! p)) as [np Hnp].
  { eapply listed_alloc; [done|]. exists (minFreq_ c), (p :: l). set_solver. }
  (* the ghost list *)
  assert (∃ h3 g3 lg3,
    (if bool_decide (Z.of_nat (size (ghostCache_ c)) >= ghostCapacity_ c)
     then removeOldestGhostNode c2 else Some c2)
    = Some (with_ghost g3 (with_heap h3 c2))
    ∧ dll (nxv h3) (pvv h3) (chain gh lg3 gt)
    ∧ points_into h3 g3 lg3 ∧ same_info (heap c) h3
    ∧ (∀ a, a ∈ chain gh lg3 gt → a ∈ chain gh lg gt))
    as (h3 & g3 & lg3 & Hstep2 & Hd3 & Hgm3 & Hi3 & Hsub3).
  { destruct (bool_decide (Z.of_nat (size (ghostCache_ c)) >= ghostCapacity_ c)).
    - destruct (ARCLFU_removeOldestGhostNode_spec c2 gh gt lg)
        as (h3 & g3 & lg3 & -> & ? & ? & ? & ? & ?); [done..|].
      exists h3, g3, lg3. split_and!; try done. unfold chain.
      intros a. rewrite !elem_of_cons, !elem_of_app. naive_solver.
    - exists (heap c), (ghostCache_ c), lg. split_and!; try done. }
  set (c3 := with_ghost g3 (with_heap h3 c2)).
  assert (is_Some (h3 !! p)) as [np3 Hnp3].
  { eapply ARCLRUFacts.alloc_same; [apply same_info_data; exact Hi3|eauto]. }
  assert (p ∉ chain gh lg3 gt) as Hpg.
  { intros Hin. eapply (Hdisj p); [|by apply Hsub3].
    exists (minFreq_ c), (p :: l). set_solver. }
  destruct (ARCLFU_addToGhostCache_spec c3 gh gt lg3 p np3)
    as (h4 & Hstep3 & Hd4 & Hi4 & He4); [done..|].
  change (heap c3) with h3 in *. change (ghostCache_ c3) with g3 in Hstep3.
  assert (same_info (heap c) h4) as Hi04 by by eapply same_info_trans.
  assert (keyv h4 p = Some (key_ np3)) as Hk4.
  { destruct (Hi4 p) as (-> & _). unfold keyv. by rewrite Hnp3. }
  apply keyv_Some in Hk4 as (np4 & Hnp4 & Hk4).
  assert (keyv (heap c) p = Some (key_ np3)) as Hk0.
  { destruct (Hi04 p) as (<- & _). unfold keyv. rewrite Hnp4. simpl. congruence. }
  destruct (agrees_on_delete (heap c) (mainCache_ c) (listed (freqMap_ c))
              (listed fm2) p (key_ np3) Hmm Hk0) as (Hmp & Hmm').
  { exists (minFreq_ c), (p :: l). set_solver. }
  { intros a. by apply listed_popped. }
  eexists _, (lg3 ++ [p]), (key_ np3), p. split; [|split_and!].
  - unfold evictLeastRecent. rewrite bool_decide_eq_false_2 by done.
    rewrite Hl. rewrite bool_decide_eq_false_2 by done. simpl.
    rewrite Hl. simpl.
    step_with Hstep1. step_with Hstep2. step_with Hstep3.
    unfold rd. simpl.
    change (heap (with_heap ?h _)) with h.
    rewrite Hnp4. simpl. rewrite Hk4. reflexivity.
  - split; try done.
    + exists gh, gt. split_and!; try done.
      intros q Hq. change (listed fm2 q) in Hq. subst fm2.
      apply (proj1 (listed_popped _ _ _ _ q Hl Hnd Honly)) in Hq as [Hq Hqp].
      intros Hin. unfold chain in Hin.
      assert (q ∈ chain gh lg3 gt) as Hin' by (unfold chain; set_solver).
      eapply Hdisj; [done|]. by apply Hsub3.
    + intros k q.
      change (<[key_ np3:=p]> g3 !! k = Some q
              → q ∈ lg3 ++ [p] ∧ keyv h4 q = Some k).
      rewrite lookup_insert_Some. intros [[<- <-]|(Hnek & Hq)].
      * split; [set_solver|]. unfold keyv.
        rewrite Hnp4. simpl. by rewrite Hk4.
      * destruct (Hgm3 k q Hq) as [? Hkq]. split; [set_solver|].
        destruct (Hi4 q) as (-> & _). done.
    + intros f lf Hf. change (fm2 !! f = Some lf) in Hf.
      subst fm2. rewrite popped_lookup in Hf.
      change (heap (with_main _ (with_ghost _ (with_heap ?h _)))) with h.
      destruct (decide (f = minFreq_ c)) as [->|Hfne].
      * destruct (decide (l = [])) as [->|Hlne]; [done|]. simplify_eq.
        apply NoDup_cons in Hnd as [? ?]. split_and!; [done..|].
        intros q Hq. destruct (Hi04 q) as (_ & _ & ->). apply Hcnt. set_solver.
      * destruct (Hb f lf Hf) as (? & ? & Hcf). split_and!; [done..|].
        intros q Hq. destruct (Hi04 q) as (_ & _ & ->). auto.
    + intros k q.
      change (delete (key_ np3) (mainCache_ c) !! k = Some q
              ↔ listed fm2 q ∧ keyv h4 q = Some k).
      destruct (Hi04 q) as (Hkq & _). rewrite Hkq. apply Hmm'.
  - done.
  - done.
  - done.
Qed.
End ARCLFUFacts.
End ARCLFUFacts.

Import ARCNodeFacts.

Ltac alloc_fresh p :=
match goal with
| |- context [fresh (dom ?h)] =>
    pose proof (fresh_not_alloc h) as Hf;
    set (p := fresh (dom h)) in *;
    rewrite ?lookup_insert_None in Hf
end.

Module ARCLFUFacts2.
Section ARCLFUFacts2.
Context {Key Value : Type} `{Countable Key}.
Context `{DefaultConstructible Key} `{DefaultConstructible Value}.
Import ARCNode ARCInv ARCLFU ARCLFUInv ARCLFUFacts.
Implicit Types (h : gmap ptr (ARCNode Key Value)) (c : ARCLFUCache Key Value).
Implicit Types (fm : gmap Z (list ptr)).

Local Arguments addToGhostCache : simpl never.
Local Arguments removeOldestGhostNode : simpl never.
Local Arguments updateNodeFrequency : simpl never.
Local Arguments evictLeastRecent : simpl never.
Local Arguments with_heap : simpl never.
Local Arguments with_ghost : simpl never.
Local Arguments with_main : simpl never.
Local Arguments with_freqMap : simpl never.
Local Arguments with_minFreq : simpl never.

Lemma inv_heap_change c lg h' :
  inv c lg → same_shape (heap c) h' → (∀ a, cntv h' a = cntv (heap c) a) →
  inv (with_heap h' c) lg.
Proof.
  intros [Hcap Hgcap (gh & gt & Hgh & Hgt & Hd & Hdisj) Hgm Hb Hmm Hmf] Hs Hc.
  split; try done.
  - exists gh, gt. split_and!; try done.
    change (heap (with_heap h' c)) with h'.
    eapply dll_ext; [|exact Hd]. intros a _. destruct (Hs a) as (? & ? & _). done.
  - change (points_into h' (ghostCache_ c) lg). by eapply points_into_same_shape.
  - intros f l Hf. destruct (Hb f l Hf) as (? & ? & Hcf). split_and!; [done..|].
    intros p Hp. change (heap (with_heap h' c)) with h'. rewrite Hc. auto.
  - intros k p. change (heap (with_heap h' c)) with h'.
    destruct (Hs p) as (_ & _ & ->). apply Hmm.
Qed.

Lemma mainCache_listed c lg k p :
  inv c lg → mainCache_ c !! k = Some p → listed (freqMap_ c) p.
Proof. intros [_ _ _ _ _ Hmm _] Hk. by apply Hmm in Hk as [? _]. Qed.

Lemma mainCache_nonempty c lg :
  inv c lg → (0 < size (mainCache_ c))%nat → freqMap_ c ≠ ∅.
Proof.
  intros Hinv Hsz Hemp.
  destruct (map_choose (mainCache_ c)) as (k & p & Hkp).
  { intros Hm. rewrite Hm, map_size_empty in Hsz. lia. }
  apply (mainCache_listed _ _ _ _ Hinv) in Hkp as (f & l & Hf & _).
  rewrite Hemp in Hf. done.
Qed.

Lemma ARCLFU_get_inv c key value :
  wf c →
  ∃ hit v c', get key value c = Some (hit, v, c') ∧ wf c'
    ∧ capacity_ c' = capacity_ c ∧ mainCache_ c' = mainCache_ c
    ∧ hit = bool_decide (is_Some (mainCache_ c !! key))
    ∧ (hit = false → v = value ∧ c' = c).
Proof.
  intros (lg & Hinv). unfold get.
  destruct (mainCache_ c !! key) as [x|] eqn:Hk.
  - assert (listed (freqMap_ c) x) as Hx by by eapply mainCache_listed.
    destruct (updateNodeFrequency_inv c lg x Hinv Hx)
      as (c1 & -> & Hinv1 & Hcap1 & Hm1 & _ & [nx Hnx]).
    simpl. unfold rd. simpl. rewrite Hnx. simpl.
    eexists true, _, c1. split; [reflexivity|].
    split_and!; [by exists lg|done..].
  - exists false, value, c. split_and!; try done. by exists lg.
Qed.

Lemma ARCLFU_updateExistingNode_inv c lg x value :
  inv c lg → listed (freqMap_ c) x →
  ∃ c', updateExistingNode (Some x) value c = Some (true, c') ∧ inv c' lg
        ∧ capacity_ c' = capacity_ c ∧ mainCache_ c' = mainCache_ c.
Proof.
  intros Hinv Hx.
  destruct (listed_alloc c lg x Hinv Hx) as [nx Hnx].
  destruct (setValue_spec (heap c) x nx value Hnx) as (h1 & Hset & Hs1 & Hc1 & _).
  pose proof (inv_heap_change c lg h1 Hinv Hs1 Hc1) as Hinv1.
  destruct (updateNodeFrequency_inv (with_heap h1 c) lg x Hinv1 Hx)
    as (c2 & Hup & Hinv2 & Hcap2 & Hm2 & _).
  exists c2. split_and!; try done.
  unfold updateExistingNode, upd. rewrite Hset. simpl. rewrite Hup. reflexivity.
Qed.

Lemma listed_pushed fm p q : listed (pushed fm p) q ↔ listed fm q ∨ q = p.
Proof.
  unfold listed, pushed. split.
  - intros (f & l & Hf & Hq). destruct (decide (f = 1)) as [->|Hne].
    + rewrite lookup_insert_eq in Hf. simplify_eq.
      apply elem_of_app in Hq as [Hq|Hq]; [|right; set_solver].
      left. destruct (fm !! 1) as [l1|] eqn:Hl1; [|set_solver]. eauto.
    + rewrite lookup_insert_ne in Hf by done. eauto.
  - intros [(f & l & Hf & Hq)| ->].
    + destruct (decide (f = 1)) as [->|Hne].
      * exists 1, (l ++ [p]). rewrite lookup_insert_eq, Hf. set_solver.
      * exists f, l. by rewrite lookup_insert_ne.
    + eexists 1, _. rewrite lookup_insert_eq. split; [done|set_solver].
Qed.

Lemma addNewNode_eq c key value :
  (let '(newNode, h) := make_shared key value (heap c) in
   let c := with_heap h c in
   let c := with_main (<[key := newNode]> (mainCache_ c)) c in
   let c := match freqMap_ c !! 1 with
            | None => with_freqMap (<[1 := []]> (freqMap_ c)) c
            | Some _ => c
            end in
   l ← freqMap_ c !! 1;
   let c := with_freqMap (<[1 := l ++ [newNode]]> (freqMap_ c)) c in
   Some (true, with_minFreq 1 c))
  = let p := fresh (dom (heap c)) in
    Some (true,
          with_minFreq 1
            (with_freqMap (pushed (freqMap_ c) p)
               (with_main (<[key := p]> (mainCache_ c))
                  (with_heap (<[p := mkNode key value 1 None None]> (heap c)) c)))).
Proof.
  unfold make_shared, pushed. simpl.
  change (freqMap_ (with_main _ (with_heap _ c))) with (freqMap_ c).
  destruct (freqMap_ c !! 1) as [l|] eqn:Hl.
  - change (freqMap_ (with_main _ (with_heap _ c))) with (freqMap_ c).
    rewrite Hl. reflexivity.
  - change (freqMap_ (with_freqMap ?m _)) with m.
    rewrite lookup_insert_eq. simpl. rewrite insert_insert_eq. reflexivity.
Qed.

Lemma ARCLFU_addNewNode_inv c lg key value :
  inv c lg → mainCache_ c !! key = None → 0 < capacity_ c →
  ∃ c', addNewNode key value c = Some (true, c') ∧ wf c'
        ∧ capacity_ c' = capacity_ c
        ∧ (bounded c → bounded c').
Proof.
  intros Hinv Hkey Hcap. unfold addNewNode.
  assert (∃ c1 lg1,
    (if bool_decide (Z.of_nat (size (mainCache_ c)) >= capacity_ c)
     then evictLeastRecent c else Some c) = Some c1
    ∧ inv c1 lg1 ∧ capacity_ c1 = capacity_ c
    ∧ mainCache_ c1 !! key = None
    ∧ (bounded c → Z.of_nat (size (mainCache_ c1)) < capacity_ c))
    as (c1 & lg1 & -> & Hinv1 & Hcap1 & Hkey1 & Hb1).
  { case_bool_decide as Hfull.
    - destruct (ARCLFU_evictLeastRecent_inv c lg Hinv)
        as (c1 & lg1 & k & p & -> & ? & ? & Hk & Hm).
      { eapply mainCache_nonempty; [done|lia]. }
      exists c1, lg1. split_and!; [done..| |].
      + rewrite Hm. rewrite lookup_delete_ne; [done|congruence].
      + unfold bounded. rewrite Hm. intros ?.
        rewrite map_size_delete_Some by eauto. lia.
    - exists c, lg. split_and!; [done..|]. lia. }
  set (p := fresh (dom (heap c1))).
  assert (heap c1 !! p = None) as Hp by apply fresh_not_alloc.
  set (h2 := <[p := mkNode key value 1 None None]> (heap c1)).
  eexists. split; [exact (addNewNode_eq c1 key value)|].
  destruct Hinv1 as [Hc1 Hg1 (gh & gt & Hgh & Hgt & Hd & Hdisj) Hgm Hb Hmm Hmf].
  assert (∀ a, is_Some (heap c1 !! a) → a ≠ p) as Hpn.
  { intros a [? ?] ->. congruence. }
  assert (∀ a, a ∈ chain gh lg1 gt → a ≠ p) as Hpg.
  { intros a Ha. apply Hpn. eapply dll_alloc; [done|apply chain_length|done]. }
  assert (∀ a, listed (freqMap_ c1) a → a ≠ p) as Hpl.
  { intros a (f & l & Hf & Ha). apply Hpn.
    destruct (Hb f l Hf) as (_ & _ & Hcf). specialize (Hcf a Ha).
    unfold cntv in Hcf. destruct (heap c1 !! a); [eauto|done]. }
  assert (same_except [p] (heap c1) h2) as He2.
  { intros a Ha. subst h2. rewrite lookup_insert_ne; [done|set_solver]. }
  assert (∀ a, a ≠ p → keyv h2 a = keyv (heap c1) a) as Hk2.
  { intros a Ha. unfold keyv. subst h2. by rewrite lookup_insert_ne. }
  assert (∀ a, a ≠ p → cntv h2 a = cntv (heap c1) a) as Hn2.
  { intros a Ha. unfold cntv. subst h2. by rewrite lookup_insert_ne. }
  split_and!.
  - exists lg1. split; try done.
    + exists gh, gt. split_and!; try done.
      * change (dll (nxv h2) (pvv h2) (chain gh lg1 gt)).
        eapply dll_same_except; [exact He2| |done].
        intros a Ha [->|?]%elem_of_cons; [|set_solver]. by eapply Hpg.
      * intros q Hq. change (listed (pushed (freqMap_ c1) p) q) in Hq.
        apply listed_pushed in Hq as [Hq| ->]; [by apply Hdisj|].
        intros Hin. by eapply Hpg.
    + intros k q Hk. change (ghostCache_ c1 !! k = Some q) in Hk.
      change (q ∈ lg1 ∧ keyv h2 q = Some k).
      destruct (Hgm k q Hk) as [Hq Hkq]. split; [done|].
      rewrite Hk2; [done|]. apply Hpg. unfold chain. set_solver.
    + intros f l Hf. change (pushed (freqMap_ c1) p !! f = Some l) in Hf.
      change (l ≠ [] ∧ NoDup l ∧ ∀ q, q ∈ l → cntv h2 q = Some f).
      unfold pushed in Hf. destruct (decide (f = 1)) as [->|Hne].
      * rewrite lookup_insert_eq in Hf. simplify_eq.
        assert (∀ q, q ∈ default [] (freqMap_ c1 !! 1) → listed (freqMap_ c1) q
                     ∧ cntv (heap c1) q = Some 1) as Hold.
        { intros q Hq. destruct (freqMap_ c1 !! 1) as [l1|] eqn:Hl1; [|set_solver].
          simpl in Hq. split; [by exists 1, l1|].
          by destruct (Hb 1 l1 Hl1) as (_ & _ & ->). }
        split_and!.
        -- by destruct (default [] (freqMap_ c1 !! 1)).
        -- apply NoDup_app. split_and!; [| |apply NoDup_singleton].
           ++ destruct (freqMap_ c1 !! 1) as [l1|] eqn:Hl1; simpl; [|apply NoDup_nil_2].
              by destruct (Hb 1 l1 Hl1) as (_ & ? & _).
           ++ intros q Hq ->%list_elem_of_singleton.
              destruct (Hold p Hq) as [Hq' _]. by eapply Hpl.
        -- intros q [Hq|Hq]%elem_of_app.
           ++ destruct (Hold q Hq) as [Hq' Hcq]. rewrite Hn2; [done|]. by apply Hpl.
           ++ apply list_elem_of_singleton in Hq as ->. unfold cntv. subst h2.
              by rewrite lookup_insert_eq.
      * rewrite lookup_insert_ne in Hf by done.
        destruct (Hb f l Hf) as (? & ? & Hcf). split_and!; [done..|].
        intros q Hq. rewrite Hn2; [auto|]. apply Hpl. by exists f, l.
    + intros k q.
      change (<[key := p]> (mainCache_ c1) !! k = Some q
              ↔ listed (pushed (freqMap_ c1) p) q ∧ keyv h2 q = Some k).
      rewrite listed_pushed, lookup_insert_Some. split.
      * intros [[<- <-]|[Hne Hq]].
        -- split; [by right|]. unfold keyv. subst h2. by rewrite lookup_insert_eq.
        -- apply Hmm in Hq as [Hq Hkq]. split; [by left|].
           rewrite Hk2; [done|]. by apply Hpl.
      * intros [[Hq| ->] Hkq].
        -- right. rewrite Hk2 in Hkq by by apply Hpl.
           assert (mainCache_ c1 !! k = Some q) as Hmq by (apply Hmm; done).
           split; [|done]. intros <-. congruence.
        -- left. unfold keyv in Hkq. subst h2. rewrite lookup_insert_eq in Hkq.
           by simplify_eq/=.
    + intros _. change (is_Some (pushed (freqMap_ c1) p !! 1)).
      unfold pushed. rewrite lookup_insert_eq. eauto.
  - done.
  - unfold bounded. intros Hbd. specialize (Hb1 Hbd).
    change (Z.of_nat (size (<[key := p]> (mainCache_ c1))) ≤ capacity_ c1).
    rewrite map_size_insert_None by done. lia.
Qed.

Lemma ARCLFU_put_inv c key value :
  wf c →
  ∃ b c', put key value c = Some (b, c') ∧ wf c'
          ∧ capacity_ c' = capacity_ c
          ∧ (bounded c → bounded c').
Proof.
  intros (lg & Hinv). unfold put. case_bool_decide as Hcap.
  { exists false, c. split_and!; [done|by exists lg|done..]. }
  destruct (mainCache_ c !! key) as [x|] eqn:Hkey.
  - assert (listed (freqMap_ c) x) as Hx by by eapply mainCache_listed.
    destruct (ARCLFU_updateExistingNode_inv c lg x value Hinv Hx)
      as (c' & -> & Hinv' & Hcap' & Hm').
    exists true, c'. split_and!; [done|by exists lg|done|].
    unfold bounded. by rewrite Hm', Hcap'.
  - destruct (ARCLFU_addNewNode_inv c lg key value Hinv Hkey) as (c' & -> & ? & ? & ?).
    { destruct Hinv as [? _ _ _ _ _ _]. lia. }
    exists true, c'. split_and!; done.
Qed.

Lemma ARCLFU_new_inv capacity transformThreshold :
  0 ≤ capacity < 2 ^ 64 →
  ∃ c, new capacity transformThreshold = Some c ∧ inv c []
       ∧ capacity_ c = capacity ∧ mainCache_ c = ∅
       ∧ transformThreshold_ c = transformThreshold.
Proof.
  intros Hcap.
  unfold new, initializeCache, make_shared, wr_next, wr_prev. simpl.
  alloc_fresh gh. clear Hf. heap_run.
  alloc_fresh gtl. assert (gtl ≠ gh) by naive_solver. clear Hf. heap_run.
  eexists. split; [reflexivity|]. split_and!; try done.
  split; simpl; try done.
  - exists gh, gtl. split_and!; try done.
    + unfold chain. simpl. split_and!; simpl.
      * apply NoDup_cons. split; [set_solver|]. apply NoDup_singleton.
      * split; [|done]. view_solve.
      * split; [|done]. view_solve.
    + intros p (f & l & Hf & _). by rewrite lookup_empty in Hf.
  - intros k p. rewrite lookup_empty. split; [done|].
    intros [(f & l & Hf & _) _]. by rewrite lookup_empty in Hf.
Qed.

Lemma ARCLFU_increaseCapacity_inv c :
  wf c → capacity_ c + 1 < 2 ^ 64 →
  wf (increaseCapacity c)
  ∧ capacity_ (increaseCapacity c) = capacity_ c + 1
  ∧ mainCache_ (increaseCapacity c) = mainCache_ c
  ∧ (bounded c → bounded (increaseCapacity c)).
Proof.
  intros (lg & [Hcap Hgcap Hl Hgm Hb Hmm Hmf]) Hlt.
  assert (to_size_t (capacity_ c + 1) = capacity_ c + 1) as Hsz.
  { unfold to_size_t. apply Z.mod_small. lia. }
  split_and!.
  - exists lg. split; simpl; try done.
    + rewrite Hsz. lia.
    + by rewrite Hgcap.
  - done.
  - done.
  - unfold bounded. simpl. rewrite Hsz. lia.
Qed.

Lemma ARCLFU_decreaseCapacity_inv c :
  wf c →
  ∃ b c', decreaseCapacity c = Some (b, c') ∧ wf c'
    ∧ (bounded c → bounded c')
    ∧ (if b then capacity_ c' = capacity_ c - 1 ∧ 0 < capacity_ c
       else c' = c ∧ capacity_ c = 0)
    ∧ mainCache_ c' ⊆ mainCache_ c.
Proof.
  intros (lg & Hinv). unfold decreaseCapacity.
  pose proof (inv_cap _ _ Hinv) as Hcap.
  case_bool_decide as Hz.
  { exists false, c. split_and!; [done|by exists lg|done|done|lia|done]. }
  assert (∃ c1 lg1,
    (if bool_decide (Z.of_nat (size (mainCache_ c)) = capacity_ c)
     then evictLeastRecent c else Some c) = Some c1
    ∧ inv c1 lg1 ∧ capacity_ c1 = capacity_ c
    ∧ (bounded c → Z.of_nat (size (mainCache_ c1)) < capacity_ c)
    ∧ mainCache_ c1 ⊆ mainCache_ c)
    as (c1 & lg1 & -> & Hinv1 & Hcap1 & Hb1 & Hsub1).
  { case_bool_decide as Hfull.
    - destruct (ARCLFU_evictLeastRecent_inv c lg Hinv)
        as (c1 & lg1 & k & p & -> & ? & ? & Hk & Hm).
      { eapply mainCache_nonempty; [done|lia]. }
      exists c1, lg1. split_and!; [done..| |].
      + unfold bounded. rewrite Hm. intros ?.
        rewrite map_size_delete_Some by eauto. lia.
      + rewrite Hm. apply delete_subseteq.
    - exists c, lg. split_and!; [done..| |done]. unfold bounded. lia. }
  simpl.
  assert (∃ c2 lg2,
    (if bool_decide (Z.of_nat (size (ghostCache_ c1)) = ghostCapacity_ c1)
     then removeOldestGhostNode c1 else Some c1) = Some c2
    ∧ inv c2 lg2 ∧ capacity_ c2 = capacity_ c
    ∧ mainCache_ c2 = mainCache_ c1)
    as (c2 & lg2 & -> & Hinv2 & Hcap2 & Hm2).
  { case_bool_decide.
    - destruct (ARCLFU_removeOldestGhostNode_inv c1 lg1 Hinv1)
        as (c2 & lg2 & -> & ? & ? & ? & _).
      exists c2, lg2. split_and!; [done..|congruence|done].
    - exists c1, lg1. split_and!; done. }
  simpl. eexists true, _. split; [reflexivity|].
  assert (to_size_t (capacity_ c2 - 1) = capacity_ c2 - 1) as Hsz.
  { unfold to_size_t. apply Z.mod_small. lia. }
  destruct Hinv2 as [? Hg2 ? ? ? ? ?].
  split_and!; simpl.
  - exists lg2. split; simpl; try done.
    + rewrite Hsz. lia.
    + by rewrite Hg2.
  - unfold bounded. simpl. rewrite Hsz, Hm2. intros Hb. specialize (Hb1 Hb). lia.
  - rewrite Hsz. lia.
  - lia.
  - by rewrite Hm2.
Qed.
End ARCLFUFacts2.
End ARCLFUFacts2.

Module ARCFacts.
Section ARCFacts.
Context {Key Value : Type} `{Countable Key}.
Context `{DefaultConstructible Key} `{DefaultConstructible Value}.
Import ARC ARCTopInv.
Implicit Types (c : ARCCache Key Value).

Local Arguments ARCLRU.checkGhost : simpl never.
Local Arguments ARCLFU.checkGhost : simpl never.
Local Arguments ARCLRU.decreaseCapacity : simpl never.
Local Arguments ARCLFU.decreaseCapacity : simpl never.
Local Arguments ARCLRU.increaseCapacity : simpl never.
Local Arguments ARCLFU.increaseCapacity : simpl never.
Local Arguments ARCLRU.get : simpl never.
Local Arguments ARCLFU.get : simpl never.
Local Arguments ARCLRU.put : simpl never.
Local Arguments ARCLFU.put : simpl never.

Ltac caps :=
  repeat match goal with
  | H : ARCLRU.capacity_ _ = _ |- _ => rewrite H
  | H : ARCLFU.capacity_ _ = _ |- _ => rewrite H
  end; lia.

Ltac parts := cbn [lruCache_ lfuCache_ with_parts ARC.capacity_].

Lemma wf_capL_nonneg c : wf c → 0 ≤ capL c.
Proof. intros [(lm & lg & [? _ _ _ _]) _ _ _ _ _]. unfold capL. lia. Qed.

Lemma wf_capF_nonneg c : wf c → 0 ≤ capF c.
Proof. intros [_ (lg & [? _ _ _ _ _ _]) _ _ _ _]. unfold capF. lia. Qed.

Lemma ARC_new_wf capacity transformThreshold :
  0 ≤ capacity → 2 * capacity < 2 ^ 64 →
  ∃ c, new capacity transformThreshold = Some c ∧ wf c
       ∧ capacity_ c = capacity ∧ capL c = capacity ∧ capF c = capacity
       ∧ mainL c = ∅ ∧ mainF c = ∅.
Proof.
  intros Hpos Hlt. unfold new.
  destruct (ARCLRUFacts.ARCLRU_new_inv (Value:=Value) capacity transformThreshold)
    as (l & -> & Hl & Hcl & Hml & _); [lia|].
  destruct (ARCLFUFacts2.ARCLFU_new_inv (Value:=Value) capacity transformThreshold)
    as (f & -> & Hf & Hcf & Hmf & _); [lia|].
  simpl. eexists. split; [reflexivity|].
  unfold capL, capF, mainL, mainF. simpl. split_and!; try done.
  split; unfold capL, capF; simpl.
  - by exists [], [].
  - by exists [].
  - unfold ARCLRUInv.bounded. rewrite Hml, map_size_empty. lia.
  - unfold ARCLFUInv.bounded. rewrite Hmf, map_size_empty. lia.
  - lia.
  - done.
Qed.

Lemma checkGhost_wf c key :
  wf c →
  ∃ b c', checkGhost key c = Some (b, c') ∧ wf c'
    ∧ capacity_ c' = capacity_ c
    ∧ mainL c' ⊆ mainL c ∧ mainF c' ⊆ mainF c
    ∧ (capF c = 0 → capL c' ≤ capL c)
    ∧ (capL c = 0 → capF c' ≤ capF c).
Proof.
  intros Hwf. pose proof Hwf as [Hl Hf Hbl Hbf Hsum Hrange].
  pose proof (wf_capL_nonneg c Hwf) as HL0.
  pose proof (wf_capF_nonneg c Hwf) as HF0.
  unfold capL, capF, mainL, mainF in *. unfold checkGhost.
  destruct (ARCLRUFacts.ARCLRU_checkGhost_inv (lruCache_ c) key Hl)
    as (b1 & l1 & -> & Hl1 & Hcl1 & Hml1 & _ & _).
  assert (ARCLRUInv.bounded l1) as Hbl1.
  { unfold ARCLRUInv.bounded in *. by rewrite Hml1, Hcl1. }
  simpl. destruct b1.
  - destruct (ARCLFUFacts2.ARCLFU_decreaseCapacity_inv (lfuCache_ c) Hf)
      as (b2 & f2 & -> & Hf2 & Hbf2 & Hcf2 & Hmf2).
    simpl. eexists true, _. split; [reflexivity|]. parts. destruct b2.
    + destruct Hcf2 as [Hcf2 Hpos].
      destruct (ARCLRUFacts.ARCLRU_increaseCapacity_inv l1 Hl1) as (Hl3 & Hcl3 & Hml3 & Hbl3).
      { lia. }
      split_and!; try done.
      * split; unfold capL, capF; parts; [done|done|by apply Hbl3|by apply Hbf2|caps|done].
      * by rewrite Hml3, Hml1.
      * caps.
      * caps.
    + destruct Hcf2 as [-> Hzero].
      split_and!; try done.
      * split; unfold capL, capF; parts; [done|done|done|done|caps|done].
      * by rewrite Hml1.
      * caps.
  - destruct (ARCLFUFacts.ARCLFU_checkGhost_inv (lfuCache_ c) key Hf)
      as (b3 & f3 & -> & Hf3 & Hcf3 & Hmf3 & _ & _).
    assert (ARCLFUInv.bounded f3) as Hbf3.
    { unfold ARCLFUInv.bounded in *. by rewrite Hmf3, Hcf3. }
    simpl. destruct b3.
    + destruct (ARCLRUFacts.ARCLRU_decreaseCapacity_inv l1 Hl1)
        as (b4 & l4 & -> & Hl4 & Hbl4 & Hcl4 & Hml4).
      simpl. eexists true, _. split; [reflexivity|]. parts. destruct b4.
      * destruct Hcl4 as [Hcl4 Hpos].
        destruct (ARCLFUFacts2.ARCLFU_increaseCapacity_inv f3 Hf3)
          as (Hf5 & Hcf5 & Hmf5 & Hbf5).
        { lia. }
        split_and!; try done.
        -- split; unfold capL, capF; parts;
             [done|done|by apply Hbl4|by apply Hbf5|caps|done].
        -- by rewrite <- Hml1.
        -- by rewrite Hmf5, Hmf3.
        -- caps.
        -- caps.
      * destruct Hcl4 as [-> Hzero].
        split_and!; try done.
        -- split; unfold capL, capF; parts; [done|done|done|done|caps|done].
        -- by rewrite Hml1.
        -- by rewrite Hmf3.
        -- caps.
        -- caps.
    + eexists false, _. split; [reflexivity|]. parts.
      split_and!; try done.
      * split; unfold capL, capF; parts; [done|done|done|done|caps|done].
      * by rewrite Hml1.
      * by rewrite Hmf3.
      * caps.
      * caps.
Qed.

Lemma get_wf c key value :
  wf c →
  ∃ hit v c', get key value c = Some (hit, v, c') ∧ wf c'
    ∧ capacity_ c' = capacity_ c
    ∧ (mainL c !! key = None → mainF c !! key = None → hit = false ∧ v = value).
Proof.
  intros Hwf. unfold get.
  destruct (checkGhost_wf c key Hwf)
    as (b0 & c0 & -> & Hwf0 & Hcap0 & HsubL & HsubF & _).
  pose proof Hwf0 as [Hl Hf Hbl Hbf Hsum Hrange].
  unfold capL, capF, mainL, mainF in *. simpl.
  destruct (ARCLRUFacts.ARCLRU_get_inv (lruCache_ c0) key value false Hl)
    as (hit & v & st & l1 & -> & Hl1 & Hcl1 & Hml1 & Hhit & Hmiss).
  assert (ARCLRUInv.bounded l1) as Hbl1.
  { unfold ARCLRUInv.bounded in *. by rewrite Hml1, Hcl1. }
  simpl. destruct hit.
  - assert (is_Some (ARCLRU.mainCache_ (lruCache_ c0) !! key)) as [x Hx].
    { symmetry in Hhit. by apply bool_decide_eq_true_1 in Hhit. }
    assert (ARCLRU.mainCache_ (lruCache_ c) !! key = Some x) as Hx'.
    { by eapply lookup_weaken. }
    destruct st.
    + destruct (ARCLFUFacts2.ARCLFU_put_inv (lfuCache_ c0) key v Hf)
        as (b2 & f2 & -> & Hf2 & Hcf2 & Hbf2).
      simpl. eexists true, v, _. split; [reflexivity|]. split_and!; try done.
      * split; unfold capL, capF; parts; [done|done|done|by apply Hbf2|caps|done].
      * intros Hn. congruence.
    + eexists true, v, _. split; [reflexivity|]. split_and!; try done.
      * split; unfold capL, capF; parts; [done|done|done|done|caps|done].
      * intros Hn. congruence.
  - destruct (Hmiss eq_refl) as (-> & -> & ->).
    destruct (ARCLFUFacts2.ARCLFU_get_inv (lfuCache_ c0) key value Hf)
      as (hit2 & v2 & f2 & -> & Hf2 & Hcf2 & Hmf2 & Hhit2 & Hmiss2).
    simpl. eexists hit2, v2, _. split; [reflexivity|]. split_and!; try done.
    + split; unfold capL, capF; parts; [done|done|done| |caps|done].
      unfold ARCLFUInv.bounded in *. by rewrite Hmf2, Hcf2.
    + intros _ Hn. destruct hit2.
      * symmetry in Hhit2. apply bool_decide_eq_true_1 in Hhit2 as [y Hy].
        eapply lookup_weaken in Hy; [|exact HsubF]. congruence.
      * by destruct (Hmiss2 eq_refl) as [-> _].
Qed.

Lemma put_wf c key value :
  wf c →
  ∃ c', put key value c = Some c' ∧ wf c' ∧ capacity_ c' = capacity_ c.
Proof.
  intros Hwf. unfold put.
  destruct (checkGhost_wf c key Hwf)
    as (b0 & c0 & -> & Hwf0 & Hcap0 & _).
  pose proof Hwf0 as [Hl Hf Hbl Hbf Hsum Hrange].
  unfold capL, capF in *. simpl.
  destruct (ARCLRUFacts.ARCLRU_put_inv (lruCache_ c0) key value Hl)
    as (b1 & l1 & -> & Hl1 & Hcl1 & Hbl1).
  simpl. destruct (ARCLFU.contains key (lfuCache_ c0)).
  - destruct (ARCLFUFacts2.ARCLFU_put_inv (lfuCache_ c0) key value Hf)
      as (b2 & f2 & -> & Hf2 & Hcf2 & Hbf2).
    simpl. eexists. split; [reflexivity|]. split; [|done].
    split; unfold capL, capF; parts; [done|done|by apply Hbl1|by apply Hbf2|caps|done].
  - eexists. split; [reflexivity|]. split; [|done].
    split; unfold capL, capF; parts; [done|done|by apply Hbl1|done|caps|done].
Qed.

Lemma get1_wf c key :
  wf c →
  ∃ r c', get1 key c = Some (r, c') ∧ wf c'
    ∧ (mainL c !! key = None → mainF c !! key = None
       → r = Thrown "Key not found in cache").
Proof.
  intros Hwf. unfold get1.
  destruct (get_wf c key value_init Hwf) as (hit & v & c' & -> & Hwf' & _ & Hmiss).
  simpl. destruct hit.
  - eexists _, c'. split; [reflexivity|]. split; [done|].
    intros HL HF. by destruct (Hmiss HL HF).
  - eexists _, c'. split; [reflexivity|]. done.
Qed.

Lemma step_wf c o :
  wf c → ∃ c', step c o = Some c' ∧ wf c' ∧ capacity_ c' = capacity_ c.
Proof.
  intros Hwf. destruct o as [k v|k]; simpl.
  - by apply put_wf.
  - destruct (get_wf c k value_init Hwf) as (hit & v & c' & -> & ? & ? & _).
    simpl. eauto.
Qed.

Lemma run_wf ops c :
  wf c → ∃ c', run ops c = Some c' ∧ wf c' ∧ capacity_ c' = capacity_ c.
Proof.
  unfold run. revert c. induction ops as [|o ops IH]; intros c Hwf; simpl.
  - eauto.
  - destruct (step_wf c o Hwf) as (c1 & -> & Hwf1 & Hcap1).
    destruct (IH c1 Hwf1) as (c2 & -> & ? & ?). exists c2. split_and!; [done..|congruence].
Qed.
End ARCFacts.
End ARCFacts.

Module RunFacts.
Section RunFacts.
Context {Key Value : Type} `{Countable Key}.
Context `{DefaultConstructible Key} `{DefaultConstructible Value}.



Lemma LRUK_step_wf (c : LRUK.LRUKCache Key Value) (o : op Key Value) :
  LRUKInv.wf c → LRUInv.bounded (LRUK.base c) →
  ∃ c', step c o = Some c' ∧ LRUKInv.wf c' ∧ LRUInv.bounded (LRUK.base c')
        ∧ LRU.capacity_ (LRUK.base c') = LRU.capacity_ (LRUK.base c).
Proof.
  intros Hwf Hb. destruct o as [k v|k]; simpl.
  - destruct (LRUKFacts.LRUK_put_inv c k v Hwf) as (c' & -> & ? & ? & Hb').
    exists c'. split_and!; auto.
  - destruct (LRUKFacts.LRUK_get_inv c k value_init Hwf)
      as (b & v & c' & -> & ? & Hcap & Hb' & _).
    simpl. exists c'. split_and!; auto.
Qed.

Lemma LRUK_run_wf ops (c : LRUK.LRUKCache Key Value) :
  LRUKInv.wf c → LRUInv.bounded (LRUK.base c) →
  ∃ c', run ops c = Some c' ∧ LRUKInv.wf c' ∧ LRUInv.bounded (LRUK.base c')
        ∧ LRU.capacity_ (LRUK.base c') = LRU.capacity_ (LRUK.base c).
Proof.
  unfold run. revert c. induction ops as [|o ops IH]; intros c Hwf Hb; simpl.
  - eauto.
  - destruct (LRUK_step_wf c o Hwf Hb) as (c1 & -> & Hwf1 & Hb1 & Hcap1).
    destruct (IH c1 Hwf1 Hb1) as (c2 & -> & ? & ? & ?).
    exists c2. split_and!; [done..|congruence].
Qed.

Lemma LRUK_get1_miss (c : LRUK.LRUKCache Key Value) key :
  LRUKInv.wf c → LRU.nodeMap_ (LRUK.base c) !! key = None →
  ∃ c', LRUK.get1 key c
        = Some (if LRUK.reached (to_size_t (LRUKInv.histCount c key + 1)) (LRUK.k_ c)
                then default value_init (LRUK.histValMap_ c !! key)
                else value_init, c')
        ∧ match (if LRUK.reached (to_size_t (LRUKInv.histCount c key + 1))
                                 (LRUK.k_ c)
                 then LRUK.histValMap_ c !! key else None) with
          | Some pending =>
              LRU.put key pending (LRUK.base c) = Some (LRUK.base c')
              ∧ (0 < LRU.capacity_ (LRUK.base c)
                 → is_Some (LRU.nodeMap_ (LRUK.base c') !! key))
              ∧ LRUK.histValMap_ c' !! key = None
          | None => LRUK.base c' = LRUK.base c
          end.
Proof.
  intros Hwf Hk. pose proof Hwf as [Hb Hh].
  unfold LRUK.get1, LRUK.get, LRU.get. rewrite Hk. simpl.
  destruct (LRUKFacts.hist_get1 c key Hwf) as (h1 & -> & Hh1). simpl.
  destruct (LRUFacts.LRU_put_inv h1 key (to_size_t (LRUKInv.histCount c key + 1)) Hh1)
    as (h2 & -> & Hh2 & _). simpl.
  destruct (LRUK.reached _ _).
  - destruct (LRUK.histValMap_ c !! key) as [pending|].
    + destruct (LRUFacts.remove_inv h2 key Hh2) as (h3 & -> & _). simpl.
      destruct (LRUFacts.LRU_put_inv (LRUK.base c) key pending Hb)
        as (b2 & Hput & _ & _ & _ & Hres).
      rewrite Hput. simpl. eexists. split; [reflexivity|]. simpl. split_and!.
      * done.
      * intros Hpos. specialize (Hres Hpos).
        by destruct (LRU.nodeMap_ b2 !! key); [eauto|].
      * apply lookup_delete_eq.
    + simpl. eexists. split; [reflexivity|]. done.
  - simpl. eexists. split; [reflexivity|]. done.
Qed.

End RunFacts.
End RunFacts.

Section Claims.
Context {Key Value : Type} `{Countable Key}.
Context `{DefaultConstructible Key} `{DefaultConstructible Value}.
Context `{DefaultInitialised Value} `{!UnorderedMapOrder Key ptr}.
Import ARCTopInv.


(** C2 (amended): for an [ARCCache] constructed with total capacity [C],
    at every point, including immediately after construction, the
    capacity of the recency half plus the capacity of the frequency half
    equals [2 * C]: each half is constructed with the full [C]. *)
Theorem arc_capacity_sum (capacity transformThreshold : Z) (ops : list (op Key Value)) :
  0 ≤ capacity → 2 * capacity < 2 ^ 64 →
  ∃ c0 c : ARC.ARCCache Key Value,
    ARC.new capacity transformThreshold = Some c0
    ∧ capL c0 = capacity ∧ capF c0 = capacity
    ∧ run ops c0 = Some c
    ∧ capL c + capF c = 2 * capacity.
Proof.
  intros Hpos Hlt.
  destruct (ARCFacts.ARC_new_wf (Value:=Value) capacity transformThreshold)
    as (c0 & Hnew & Hwf & Hc0 & HL & HF & _); [lia..|].
  destruct (ARCFacts.run_wf ops c0 Hwf) as (c & Hrun & [_ _ _ _ Hsum _] & Hc).
  exists c0, c. split_and!; [done..|]. lia.
Qed.

(** C3 (amended): the one-argument [get(key)] on a key that is not
    resident returns a default-constructed value, without any diagnostic,
    on an [LRUCache].  On an [LFUCache] and an [LFUAvgCache] it returns
    its local [Value val;] as declared: a default-constructed value when
    [Value] is a class type, while for a scalar [Value] the local is left
    uninitialised and returning it is undefined.  On an [LRUKCache] it
    returns a default-constructed value and leaves the main cache as it
    is, unless this read brings the recorded access count of the key to
    [K] while a value is pending for it; in that case it returns the
    pending value, the main cache becomes what
    [LRUCache::put(key, pending)] makes of it, which holds the key when
    the capacity is positive, and the pending value is dropped.  On an
    [ARCCache] it throws [std::runtime_error("Key not found in cache")]
    when the key is resident in neither half. *)
Theorem get1_on_miss :
  (∀ (c : LRU.LRUCache Key Value) key,
      LRU.nodeMap_ c !! key = None →
      cache_get1 key c = Some (Returned value_init, c))
  ∧ (∀ (c : LFU.LFUCache Key Value) key,
      LFU.cacheMap_ c !! key = None →
      cache_get1 key c
      = if default_initialised then Some (Returned value_init, c) else None)
  ∧ (∀ (c : LFUAvg.LFUAvgCache Key Value) key,
      LFUAvg.cacheMap_ c !! key = None →
      cache_get1 key c
      = if default_initialised then Some (Returned value_init, c) else None)
  ∧ (∀ capacity histCapacity k ops (c0 c : LRUK.LRUKCache Key Value) key,
      0 ≤ capacity < 2 ^ 31 → - 2 ^ 31 ≤ histCapacity < 2 ^ 31 →
      LRUK.new capacity histCapacity k = Some c0 → run ops c0 = Some c →
      LRU.nodeMap_ (LRUK.base c) !! key = None →
      ∃ c', cache_get1 key c
            = Some (Returned
                      (if LRUK.reached (to_size_t (LRUKInv.histCount c key + 1))
                                       (LRUK.k_ c)
                       then default value_init (LRUK.histValMap_ c !! key)
                       else value_init), c')
            ∧ match (if LRUK.reached (to_size_t (LRUKInv.histCount c key + 1))
                                     (LRUK.k_ c)
                     then LRUK.histValMap_ c !! key else None) with
              | Some pending =>
                  LRU.put key pending (LRUK.base c) = Some (LRUK.base c')
                  ∧ (0 < capacity → is_Some (LRU.nodeMap_ (LRUK.base c') !! key))
                  ∧ LRUK.histValMap_ c' !! key = None
              | None => LRUK.base c' = LRUK.base c
              end)
  ∧ (∀ capacity transformThreshold ops (c0 c : ARC.ARCCache Key Value) key,
      0 ≤ capacity → 2 * capacity < 2 ^ 64 →
      ARC.new capacity transformThreshold = Some c0 → run ops c0 = Some c →
      mainL c !! key = None → mainF c !! key = None →
      ∃ c', cache_get1 key c = Some (Thrown "Key not found in cache", c')).
Proof.
  split_and!.
  - intros c key Hk. simpl. unfold returned, LRU.get1, LRU.get. by rewrite Hk.
  - intros c key Hk. simpl. unfold returned, LFU.get1, LFU.get. rewrite Hk.
    simpl. by destruct default_initialised.
  - intros c key Hk. simpl. unfold returned, LFUAvg.get1, LFUAvg.get. rewrite Hk.
    simpl. by destruct default_initialised.
  - intros capacity histCapacity k ops c0 c key Hcap Hhist Hnew Hrun Hk.
    destruct (LRUKFacts.LRUK_new_wf (Value:=Value) capacity histCapacity k)
      as (c0' & Hnew' & Hwf & Hc0 & Hm0); [lia..|].
    assert (c0' = c0) as -> by congruence.
    destruct (RunFacts.LRUK_run_wf ops c0) as (c1 & Hrun' & Hwf1 & _ & Hc1); [done| |].
    { unfold LRUInv.bounded. rewrite Hm0, map_size_empty. lia. }
    assert (c1 = c) as -> by congruence.
    destruct (RunFacts.LRUK_get1_miss c key Hwf1 Hk) as (c' & Hget & Hst).
    exists c'. split.
    + simpl. unfold returned. by rewrite Hget.
    + rewrite Hc1, Hc0 in Hst. exact Hst.
  - intros capacity transformThreshold ops c0 c key Hpos Hlt Hnew Hrun HL HF.
    destruct (ARCFacts.ARC_new_wf (Value:=Value) capacity transformThreshold)
      as (c0' & Hnew' & Hwf & _); [lia..|].
    assert (c0' = c0) as -> by congruence.
    destruct (ARCFacts.run_wf ops c0 Hwf) as (c1 & Hrun' & Hwf1 & _).
    assert (c1 = c) as -> by congruence.
    destruct (ARCFacts.get1_wf c key Hwf1) as (r & c' & Hget & _ & Hr).
    exists c'. simpl. by rewrite Hget, (Hr HL HF).
Qed.

(** C7: in ARC's ghost-hit balancing, [decreaseCapacity] on a half whose
    capacity is already zero returns false and leaves the half as it is;
    in every state reached from construction by [put] and [get], a call of
    [checkGhost] returns, leaves both capacities non-negative and their
    sum unchanged, and does not grow a half while the other half is at
    capacity zero. *)
Theorem arc_ghost_balance
    (capacity transformThreshold : Z) (ops : list (op Key Value))
    (c0 c : ARC.ARCCache Key Value) (key : Key) :
  0 ≤ capacity → 2 * capacity < 2 ^ 64 →
  ARC.new capacity transformThreshold = Some c0 → run ops c0 = Some c →
  (∀ l : ARCLRU.ARCLRUCache Key Value,
      ARCLRU.capacity_ l = 0 → ARCLRU.decreaseCapacity l = Some (false, l))
  ∧ (∀ f : ARCLFU.ARCLFUCache Key Value,
      ARCLFU.capacity_ f = 0 → ARCLFU.decreaseCapacity f = Some (false, f))
  ∧ ∃ b c', ARC.checkGhost key c = Some (b, c')
      ∧ 0 ≤ capL c' ∧ 0 ≤ capF c'
      ∧ capL c' + capF c' = capL c + capF c
      ∧ (capF c = 0 → capL c' ≤ capL c)
      ∧ (capL c = 0 → capF c' ≤ capF c).
Proof.
  intros Hpos Hlt Hnew Hrun. split_and!.
  - intros l Hl. unfold ARCLRU.decreaseCapacity.
    rewrite bool_decide_eq_true_2; [done|lia].
  - intros f Hf. unfold ARCLFU.decreaseCapacity.
    rewrite bool_decide_eq_true_2; [done|lia].
  - destruct (ARCFacts.ARC_new_wf (Value:=Value) capacity transformThreshold)
      as (c0' & Hnew' & Hwf & _); [lia..|].
    assert (c0' = c0) as -> by congruence.
    destruct (ARCFacts.run_wf ops c0 Hwf) as (c1 & Hrun' & Hwf1 & _).
    assert (c1 = c) as -> by congruence.
    destruct (ARCFacts.checkGhost_wf c key Hwf1)
      as (b & c' & Hcg & Hwf' & Hcap' & _ & _ & HgL & HgF).
    exists b, c'. split_and!; [done| | | |done|done].
    + by apply ARCFacts.wf_capL_nonneg.
    + by apply ARCFacts.wf_capF_nonneg.
    + destruct Hwf1 as [_ _ _ _ Hs1 _]. destruct Hwf' as [_ _ _ _ Hs' _].
      rewrite Hs1, Hs', Hcap'. done.
Qed.
End Claims.

Section PurgeClaims.
Context {Key Value : Type} `{Countable Key}.
Context `{DefaultConstructible Key} `{DefaultConstructible Value}.
Context `{!UnorderedMapOrder Key ptr}.
Variable hashFunc : Key → Z.

(** C10: after [LFUHashCache::purge()] the vector of shards is empty;
    every later [put(key, value)] leaves the wrapper as it is, every later
    [get(key, out)] returns false with [out] untouched, and so does every
    sequence of such calls: the wrapper holds no shard again. *)
Theorem purge_disables_wrapper
    (c : LFUHash.LFUHashCache Key Value) (k : Key) (v : Value)
    (kvs : list (Key * Value)) :
  to_size_t (LFUHash.sliceNum_ c) ≠ 0 →
  LFUHash.lfuSliceCaches_ (LFUHash.purge c) = []
  ∧ LFUHash.put hashFunc k v (LFUHash.purge c) = Some (LFUHash.purge c)
  ∧ LFUHash.get hashFunc k v (LFUHash.purge c) = Some (false, v, LFUHash.purge c)
  ∧ foldl (λ acc '(k, v), c ← acc; LFUHash.put hashFunc k v c)
          (Some (LFUHash.purge c)) kvs = Some (LFUHash.purge c).
Proof.
  intros Hn.
  assert (∀ k v, LFUHash.put hashFunc k v (LFUHash.purge c) = Some (LFUHash.purge c))
    as Hput.
  { intros k' v'. unfold LFUHash.put, LFUHash.getSliceIndex. simpl.
    rewrite bool_decide_eq_false_2 by done. simpl.
    rewrite bool_decide_eq_false_2; [done|]. unfold to_size_t.
    pose proof (Z.mod_pos_bound
      (to_int (LFUHash.Hash hashFunc k' `mod` (LFUHash.sliceNum_ c `mod` 2 ^ 64)))
      (2 ^ 64)). lia. }
  split_and!; [done|apply Hput| |].
  - unfold LFUHash.get, LFUHash.getSliceIndex. simpl.
    rewrite bool_decide_eq_false_2 by done. simpl.
    rewrite bool_decide_eq_false_2; [done|]. unfold to_size_t.
    pose proof (Z.mod_pos_bound
      (to_int (LFUHash.Hash hashFunc k `mod` (LFUHash.sliceNum_ c `mod` 2 ^ 64)))
      (2 ^ 64)). lia.
  - induction kvs as [|[k' v'] kvs IH]; [done|]. simpl. by rewrite Hput.
Qed.
End PurgeClaims.

(** ** The claims at concrete inputs *)

Section ClaimInputs.
(** The inputs are run in the enumeration order of the finite map. *)
#[local] Existing Instance enumeration_order.


Lemma arc_capacity_sum_witness :
  ∃ c0 c : ARC.ARCCache Z string,
    ARC.new 1 2 = Some c0
    ∧ ARCTopInv.capL c0 = 1 ∧ ARCTopInv.capF c0 = 1
    ∧ run [Put 1 "a"%string; Get 1; Put 2 "b"%string] c0 = Some c
    ∧ ARCTopInv.capL c + ARCTopInv.capF c = 2 * 1.
Proof.
  apply (arc_capacity_sum (Key:=Z) (Value:=string) 1 2
           [Put 1 "a"%string; Get 1; Put 2 "b"%string]); lia.
Defined.

Lemma get1_on_miss_witness :
  (∃ c : LRU.LRUCache Z string,
      LRU.new 2 = Some c ∧ cache_get1 5 c = Some (Returned value_init, c))
  ∧ cache_get1 5 (LFU.new (Key:=Z) (Value:=string) 2)
    = Some (Returned value_init, LFU.new 2)
  ∧ cache_get1 5 (LFU.new (Key:=Z) (Value:=Z) 2) = None
  ∧ cache_get1 5 (LFUAvg.new (Key:=Z) (Value:=string) 2 10)
    = Some (Returned value_init, LFUAvg.new 2 10)
  ∧ cache_get1 5 (LFUAvg.new (Key:=Z) (Value:=Z) 2 10) = None
  ∧ (∃ c c' : LRUK.LRUKCache Z string,
      LRUK.new 2 4 2 = Some c
      ∧ cache_get1 5 c = Some (Returned value_init, c')
      ∧ LRUK.base c' = LRUK.base c)
  ∧ (∃ c0 c c' : LRUK.LRUKCache Z string,
      LRUK.new 2 4 2 = Some c0
      ∧ run [Put 5 "a"%string] c0 = Some c
      ∧ cache_get1 5 c = Some (Returned "a"%string, c')
      ∧ LRU.put 5 "a"%string (LRUK.base c) = Some (LRUK.base c')
      ∧ is_Some (LRU.nodeMap_ (LRUK.base c') !! 5)
      ∧ LRUK.histValMap_ c' !! 5 = None)
  ∧ (∃ c c' : ARC.ARCCache Z string,
      ARC.new 4 2 = Some c
      ∧ cache_get1 5 c = Some (Thrown "Key not found in cache", c')).
Proof.
  pose proof (get1_on_miss (Key:=Z) (Value:=string)) as (HLRU & HLFU & HAvg & HK & HA).
  pose proof (get1_on_miss (Key:=Z) (Value:=Z)) as (_ & HLFUz & HAvgz & _ & _).
  split_and!.
  - destruct (LRUFacts.LRU_new_inv (Key:=Z) (Value:=string) 2) as (c & Hnew & _ & _ & Hm);
      [lia|].
    exists c. split; [done|]. apply HLRU. by rewrite Hm.
  - exact (HLFU (LFU.new 2) 5 eq_refl).
  - exact (HLFUz (LFU.new 2) 5 eq_refl).
  - exact (HAvg (LFUAvg.new 2 10) 5 eq_refl).
  - exact (HAvgz (LFUAvg.new 2 10) 5 eq_refl).
  - assert (∃ c : LRUK.LRUKCache Z string,
               LRUK.new 2 4 2 = Some c
               ∧ LRU.nodeMap_ (LRUK.base c) !! 5 = None
               ∧ LRUK.reached (to_size_t (LRUKInv.histCount c 5 + 1)) (LRUK.k_ c)
                 = false) as (c & Hnew & Hk & Hr).
    { eexists. split; [vm_compute; reflexivity|]. split; vm_compute; reflexivity. }
    destruct (HK 2 4 2 [] c c 5) as (c' & Hget & Hst); [lia|lia|done|done|done|].
    rewrite Hr in Hget, Hst. by exists c, c'.
  - assert (∃ c0 c : LRUK.LRUKCache Z string,
               LRUK.new 2 4 2 = Some c0
               ∧ run [Put 5 "a"%string] c0 = Some c
               ∧ LRU.nodeMap_ (LRUK.base c) !! 5 = None
               ∧ LRUK.reached (to_size_t (LRUKInv.histCount c 5 + 1)) (LRUK.k_ c)
                 = true
               ∧ LRUK.histValMap_ c !! 5 = Some "a"%string)
      as (c0 & c & Hnew & Hrun & Hk & Hr & Hp).
    { eexists _, _. split; [vm_compute; reflexivity|].
      split; [vm_compute; reflexivity|]. split_and!; vm_compute; reflexivity. }
    destruct (HK 2 4 2 [Put 5 "a"%string] c0 c 5) as (c' & Hget & Hst);
      [lia|lia|done|done|done|].
    rewrite Hr, Hp in Hget, Hst. destruct Hst as (Hput & Hres & Hpend).
    exists c0, c, c'. split_and!; [done..|apply Hres; lia|done].
  - destruct (ARCFacts.ARC_new_wf (Key:=Z) (Value:=string) 4 2)
      as (c & Hnew & _ & _ & _ & _ & HL & HF); [lia..|].
    destruct (HA 4 2 [] c c 5) as (c' & Hget);
      [lia|lia|done|done|by rewrite HL|by rewrite HF|].
    by exists c, c'.
Defined.

Lemma arc_ghost_balance_witness :
  ∃ c0 c : ARC.ARCCache Z string,
    ARC.new 1 2 = Some c0
    ∧ run [Put 1 "a"%string; Get 1; Put 2 "b"%string] c0 = Some c
    ∧ ∃ b c', ARC.checkGhost 1 c = Some (b, c')
        ∧ 0 ≤ ARCTopInv.capL c' ∧ 0 ≤ ARCTopInv.capF c'
        ∧ ARCTopInv.capL c' + ARCTopInv.capF c'
          = ARCTopInv.capL c + ARCTopInv.capF c
        ∧ (ARCTopInv.capF c = 0 → ARCTopInv.capL c' ≤ ARCTopInv.capL c)
        ∧ (ARCTopInv.capL c = 0 → ARCTopInv.capF c' ≤ ARCTopInv.capF c).
Proof.
  destruct (ARCFacts.ARC_new_wf (Key:=Z) (Value:=string) 1 2)
    as (c0 & Hnew & Hwf & _); [lia..|].
  destruct (ARCFacts.run_wf [Put 1 "a"%string; Get 1; Put 2 "b"%string] c0 Hwf)
    as (c & Hrun & _).
  exists c0, c. split; [done|]. split; [done|].
  apply (arc_ghost_balance (Key:=Z) (Value:=string) 1 2
           [Put 1 "a"%string; Get 1; Put 2 "b"%string] c0 c 1); [lia|lia|done|done].
Defined.

Lemma purge_disables_wrapper_witness :
  LFUHash.lfuSliceCaches_
    (LFUHash.purge
       (LFUHash.mkCache (Key:=Z) (Value:=string) 4 2
          [LFUAvg.new 2 10; LFUAvg.new 2 10])) = []
  ∧ LFUHash.put (λ k, k) 1 "a"
      (LFUHash.purge
         (LFUHash.mkCache (Key:=Z) (Value:=string) 4 2
            [LFUAvg.new 2 10; LFUAvg.new 2 10]))
    = Some (LFUHash.purge
              (LFUHash.mkCache 4 2 [LFUAvg.new 2 10; LFUAvg.new 2 10]))
  ∧ LFUHash.get (λ k, k) 1 ""
      (LFUHash.purge
         (LFUHash.mkCache (Key:=Z) (Value:=string) 4 2
            [LFUAvg.new 2 10; LFUAvg.new 2 10]))
    = Some (false, ""%string,
            LFUHash.purge
              (LFUHash.mkCache 4 2 [LFUAvg.new 2 10; LFUAvg.new 2 10])).
Proof.
  destruct (purge_disables_wrapper (Key:=Z) (Value:=string) (λ k, k)
              (LFUHash.mkCache 4 2 [LFUAvg.new 2 10; LFUAvg.new 2 10])
              1 "a"%string []) as (H1 & H2 & _ & _);
    [vm_compute; discriminate|].
  destruct (purge_disables_wrapper (Key:=Z) (Value:=string) (λ k, k)
              (LFUHash.mkCache 4 2 [LFUAvg.new 2 10; LFUAvg.new 2 10])
              1 ""%string []) as (_ & _ & H3 & _);
    [vm_compute; discriminate|].
  split_and!; [exact H1|exact H2|exact H3].
Defined.
End ClaimInputs.

(** ** [LFUAvgCache]: the container order on a single entry *)

Module LFUAvgOrderFacts.
Section LFUAvgOrderFacts.
Context {Key Value : Type} `{Countable Key}.
Context `{DefaultConstructible Key} `{DefaultConstructible Value}.
Import LFUAvg.
Implicit Types (c : LFUAvgCache Key Value).

(** A map of one entry is visited in one way only. *)
Lemma iteration_order_singleton (ord : UnorderedMapOrder Key ptr)
    (m : gmap Key ptr) x :
  map_to_list m = [x] → iteration_order m = [x].
Proof.
  intros Hm. apply Permutation_singleton_r. rewrite <- Hm.
  apply iteration_order_perm.
Qed.

Local Arguments FreqList.rd : simpl never.
Local Arguments FreqList.removeNode : simpl never.
Local Arguments FreqList.addNode : simpl never.
Local Arguments FreqList.getFirstNode : simpl never.
Local Arguments FreqList.new : simpl never.
Local Arguments bucket : simpl never.

Ltac bind_cases :=
  repeat match goal with
         | |- context [mbind _ ?x] => destruct x as [?|] eqn:?; simpl; try done
         | |- context [bool_decide ?P] => destruct (bool_decide P); simpl
         | |- context [match ?x with _ => _ end] =>
             destruct x eqn:?; simpl; try done
         end;
  try by intros [= <-].

Lemma removeNodeFromFreqList_cacheMap node c c' :
  removeNodeFromFreqList node c = Some c' → cacheMap_ c' = cacheMap_ c.
Proof. unfold removeNodeFromFreqList. bind_cases. Qed.

Lemma addNodeToFreqList_cacheMap node c c' :
  addNodeToFreqList node c = Some c' → cacheMap_ c' = cacheMap_ c.
Proof.
  unfold addNodeToFreqList. destruct node as [p|]; [|by intros [= <-]].
  destruct (FreqList.rd (heap c) (Some p)) as [n|]; [|done]. simpl.
  assert (∀ c1, match freqListMap_ c !! FreqList.freq n with
                | Some _ => Some c
                | None =>
                    FreqList.new (FreqList.freq n) (heap c)
                    ≫= λ '(l0, h),
                      Some (with_freqListMap
                              (<[FreqList.freq n:=l0]> (freqListMap_ c))
                              (with_heap h c))
                end = Some c1 → cacheMap_ c1 = cacheMap_ c) as Hc1.
  { intros c1. destruct (freqListMap_ c !! FreqList.freq n); [by intros [= <-]|].
    destruct (FreqList.new (FreqList.freq n) (heap c)) as [[l0 h]|]; [|done].
    by intros [= <-]. }
  destruct (match freqListMap_ c !! FreqList.freq n with
            | Some _ => Some c | None => _ end) as [c1|]; [|done].
  specialize (Hc1 c1 eq_refl). simpl. bind_cases.
Qed.

Local Arguments removeNodeFromFreqList : simpl never.
Local Arguments addNodeToFreqList : simpl never.
Local Arguments addFreqNum : simpl never.
Local Arguments FreqList.wr_freq : simpl never.

Lemma handleOverMaxAverageNum_singleton (ord : UnorderedMapOrder Key ptr) c x :
  map_to_list (cacheMap_ c) = [x] →
  handleOverMaxAverageNum (UnorderedMapOrder0 := ord) c
  = handleOverMaxAverageNum (UnorderedMapOrder0 := enumeration_order) c.
Proof.
  intros Hm. unfold handleOverMaxAverageNum.
  by rewrite (iteration_order_singleton ord _ x Hm),
             (iteration_order_singleton enumeration_order _ x Hm).
Qed.

Lemma addFreqNum_singleton (ord : UnorderedMapOrder Key ptr) c x :
  map_to_list (cacheMap_ c) = [x] →
  addFreqNum (UnorderedMapOrder0 := ord) c
  = addFreqNum (UnorderedMapOrder0 := enumeration_order) c.
Proof.
  intros Hm. unfold addFreqNum. case_bool_decide; [|done].
  by apply handleOverMaxAverageNum_singleton with x.
Qed.

Lemma getInternal_singleton (ord : UnorderedMapOrder Key ptr) node v c x :
  map_to_list (cacheMap_ c) = [x] →
  getInternal (UnorderedMapOrder0 := ord) node v c
  = getInternal (UnorderedMapOrder0 := enumeration_order) node v c.
Proof.
  intros Hm. unfold getInternal. destruct node as [p|]; [|done].
  destruct (FreqList.rd (heap c) (Some p)) as [n|]; [|done]. simpl.
  destruct (removeNodeFromFreqList (Some p) c) as [c1|] eqn:Hc1; [|done]. simpl.
  apply removeNodeFromFreqList_cacheMap in Hc1.
  destruct (FreqList.rd (heap c1) (Some p)) as [n1|]; [|done]. simpl.
  destruct (FreqList.wr_freq (Some p) (FreqList.freq n1 + 1) (heap c1)) as [h2|];
    [|done]. simpl.
  destruct (addNodeToFreqList (Some p) (with_heap h2 c1)) as [c3|] eqn:Hc3; [|done].
  simpl. apply addNodeToFreqList_cacheMap in Hc3. simpl in Hc3.
  destruct (FreqList.rd (heap c3) (Some p)) as [n3|]; [|done]. simpl.
  assert (∀ c4, cacheMap_ c4 = cacheMap_ c →
            (addFreqNum (UnorderedMapOrder0 := ord) c4 ≫= λ c5, Some (FreqList.val n, c5))
            = (addFreqNum (UnorderedMapOrder0 := enumeration_order) c4
                 ≫= λ c5, Some (FreqList.val n, c5))) as Hlast.
  { intros c4 Hc4. rewrite (addFreqNum_singleton ord c4 x); [done|]. by rewrite Hc4. }
  case_bool_decide.
  - destruct (bucket (FreqList.freq n3 - 1) c3) as [l|]; [|done]. simpl.
    destruct (FreqList.isEmpty l (heap c3)) as [[]|]; [| |done]; simpl;
      apply Hlast; simpl; congruence.
  - simpl. apply Hlast. congruence.
Qed.

(** On a cache of one entry, [get] does not depend on the container
    order. *)
Lemma get_singleton (ord : UnorderedMapOrder Key ptr) k v c x :
  map_to_list (cacheMap_ c) = [x] →
  get (UnorderedMapOrder0 := ord) k v c
  = get (UnorderedMapOrder0 := enumeration_order) k v c.
Proof.
  intros Hm. unfold get. destruct (cacheMap_ c !! k) as [p|]; [|done].
  by rewrite (getInternal_singleton ord (Some p) v c x Hm).
Qed.
End LFUAvgOrderFacts.
End LFUAvgOrderFacts.

Module ScenarioFacts.
Import Scenario.
Local Open Scope string_scope.

(** C4 (as stated, refuted): in the LRU-K scenario the claim has the first
    [get(1)] miss; on the code that read already hits, so the scenario
    does not produce a miss followed by a hit. *)
Lemma lruk_first_get_is_not_a_miss :
  (λ r, r.1.1.1) <$> lruk = Some true.
Proof. vm_compute. reflexivity. Qed.

(** C4 (amended): on [LRUKCache(2, 4, 2)], starting empty, after
    [put(1,"a")] the read [get(1)] is the second recorded access, promotes
    the pending value and hits with "a"; after a second [put(1,"a")],
    [get(1)] hits with "a" again. *)
Theorem lruk_scenario : lruk = Some (true, "a", true, "a").
Proof. vm_compute. reflexivity. Qed.

(** C5 (code at the failing input): on [LFUCache(2)], [put(1,"a")] then
    [put(1,"b")] overwrites the value but leaves the frequency of key 1 at
    1 and its node in the list of frequency 1, whereas [get(1)] after the
    same first [put] raises the frequency to 2. *)
Theorem lfu_put_resident_registers_no_access :
  (lfu_put_put ≫= lfu_val 1) = Some "b"
  ∧ (lfu_put_put ≫= lfu_freq 1) = Some 1
  ∧ ((λ c, nonempty_freqs (LFU.freqListMap_ c) (LFU.heap c)) <$> lfu_put_put)
      = Some [1]
  ∧ (lfu_put_get ≫= lfu_freq 1) = Some 2.
Proof. vm_compute. auto. Qed.

(** C6 (code at the failing input): on [LFUCache(2)], after [put(1,"a")]
    and [get(1)] the only non-empty list is the one of frequency 2, while
    [minFreq_] is 1. *)
Theorem lfu_minFreq_is_stale :
  ((λ c, (LFU.minFreq_ c, nonempty_freqs (LFU.freqListMap_ c) (LFU.heap c)))
     <$> lfu_put_get) = Some (1, [2]).
Proof. vm_compute. reflexivity. Qed.

Lemma lfuavg_gets_last ord n c :
  lfuavg_gets ord (S n) c
  = (c ← lfuavg_gets ord n c; '(_, _, c) ← LFUAvg.get 1 "" c; Some c).
Proof.
  revert c. induction n as [|n IH]; intros c.
  - simpl. by destruct (LFUAvg.get 1 "" c) as [[[? ?] ?]|].
  - change (lfuavg_gets ord (S (S n)) c)
      with ('(_, _, c) ← LFUAvg.get 1 "" c; lfuavg_gets ord (S n) c).
    change (lfuavg_gets ord (S n) c)
      with ('(_, _, c) ← LFUAvg.get 1 "" c; lfuavg_gets ord n c).
    destruct (LFUAvg.get 1 "" c) as [[[? ?] c1]|]; [|done]. exact (IH c1).
Qed.

Lemma lfuavg_hot_last ord n :
  lfuavg_hot ord (S n)
  = (c ← lfuavg_hot ord n; '(_, _, c) ← LFUAvg.get 1 "" c; Some c).
Proof.
  unfold lfuavg_hot.
  destruct (LFUAvg.put 1 "a" (LFUAvg.new 1 252)) as [c0|]; [|done].
  exact (lfuavg_gets_last ord n c0).
Qed.

(** C8 (code at the failing input): on [LFUAvgCache(1, 252)], after
    [put(1,"a")] and 252 calls of [get(1)] the average reaches 253, the
    aging pass runs and moves the node to frequency 253 - 126 = 127; the
    only non-empty list is the one of frequency 127, and [minFreq_] is
    recomputed as 1.  One call earlier no pass has run.  This holds in
    every container order [ord]. *)
Theorem lfuavg_aging_minFreq (ord : UnorderedMapOrder Z ptr) :
  ((λ c, (LFUAvg.currentAvgFreq_ c,
          nonempty_freqs (LFUAvg.freqListMap_ c) (LFUAvg.heap c),
          LFUAvg.minFreq_ c)) <$> lfuavg_hot ord 251) = Some (252, [252], 0)
  ∧ ((λ c, (LFUAvg.currentAvgFreq_ c,
            nonempty_freqs (LFUAvg.freqListMap_ c) (LFUAvg.heap c),
            LFUAvg.minFreq_ c)) <$> lfuavg_hot ord 252) = Some (253, [127], 1).
Proof.
  set (obs := λ c : LFUAvg.LFUAvgCache Z string,
         (LFUAvg.currentAvgFreq_ c,
          nonempty_freqs (LFUAvg.freqListMap_ c) (LFUAvg.heap c),
          LFUAvg.minFreq_ c)).
  assert (∃ c x, lfuavg_hot ord 251 = Some c
                 ∧ obs c = (252, [252], 0)
                 ∧ map_to_list (LFUAvg.cacheMap_ c) = [x]
                 ∧ obs <$> ('(_, _, c) ← LFUAvg.get
                                (UnorderedMapOrder0 := enumeration_order) 1 "" c;
                            Some c) = Some (253, [127], 1))
    as (c & x & Hc & Hobs & Hm & Hlast).
  { eexists _, _. split; [vm_compute; reflexivity|].
    split; [vm_compute; reflexivity|].
    split; vm_compute; reflexivity. }
  split.
  - rewrite Hc. change (Some (obs c) = Some (252, [252], 0)). by rewrite Hobs.
  - rewrite lfuavg_hot_last, Hc.
    change (obs <$> ('(_, _, c) ← LFUAvg.get 1 "" c; Some c) = Some (253, [127], 1)).
    by rewrite (LFUAvgOrderFacts.get_singleton ord 1 "" c x Hm).
Qed.

(** C9 (code at the failing input): on [LRUCache(1)], [put(1,"a")] then
    [put(2,"b")] evicts the node of key 1 (at address 2); it is gone from
    the map, its [next_] is null, and its [prev_] still points to the
    head sentinel. *)
Theorem lru_evicted_node_keeps_prev :
  ((λ c, (LRU.nodeMap_ c !! 1, LRU.dummyHead_ c, LRU.heap c !! 2%nat))
     <$> lru_evict)
  = Some (None, 0%nat, Some (LRU.mkNode 1 "a" 1 (Some 0%nat) None)).
Proof. vm_compute. reflexivity. Qed.


(** The slip of [LFUCache] on the same bound: with capacity 1,
    [put(1,"a"); get(1); put(2,"b")] leaves two resident keys, because
    [minFreq_] names a list that no longer exists and nothing is
    evicted. *)
Lemma lfu_two_residents_capacity_one :
  (size ∘ LFU.cacheMap_ <$> lfu_overflow) = Some 2%nat.
Proof. vm_compute. reflexivity. Qed.

(** C2 (as stated, refuted): right after [ARCCache(1, 2)] both halves
    have capacity 1, so the two capacities sum to 2, not to 1. *)
Lemma arc_halves_sum_after_construction :
  ((λ c, ARCLRU.capacity_ (ARC.lruCache_ c) + ARCLFU.capacity_ (ARC.lfuCache_ c))
     <$> ARC.new (Key:=Z) (Value:=string) 1 2) = Some 2.
Proof. vm_compute. reflexivity. Qed.

(** C3 (as stated, refuted): on a fresh [ARCCache(4, 2)] the one-argument
    [get(5)] does not return a value: it throws. *)
Lemma arc_get1_miss_throws :
  (fst <$> (ARC.new (Key:=Z) (Value:=string) 4 2 ≫= ARC.get1 5))
  = Some (Thrown "Key not found in cache").
Proof. vm_compute. reflexivity. Qed.

End ScenarioFacts.

(** ** Reachable states *)

Module ReachFacts.
Section ReachFacts.
Context {Key Value : Type} `{Countable Key}.
Context `{DefaultConstructible Key} `{DefaultConstructible Value}.

Lemma LRU_run_inv ops (c : LRU.LRUCache Key Value) :
  LRUInv.wf c →
  ∃ c', run ops c = Some c' ∧ LRUInv.wf c'
        ∧ LRU.capacity_ c' = LRU.capacity_ c
        ∧ (LRUInv.bounded c → LRUInv.bounded c').
Proof.
  unfold run. revert c. induction ops as [|o ops IH]; intros c Hwf; simpl.
  - eauto.
  - assert (∃ c1, step c o = Some c1 ∧ LRUInv.wf c1
                  ∧ LRU.capacity_ c1 = LRU.capacity_ c
                  ∧ (LRUInv.bounded c → LRUInv.bounded c1))
      as (c1 & -> & Hwf1 & Hcap1 & Hb1).
    { destruct o as [k v|k]; simpl.
      - destruct (LRUFacts.LRU_put_inv c k v Hwf) as (c' & -> & ? & ? & Hb' & _).
        exists c'. split_and!; auto.
      - destruct (LRUFacts.LRU_get_inv c k value_init Hwf)
          as (b & v & c' & -> & ? & Hcap & Hmap & _).
        simpl. exists c'. split_and!; [done..|].
        unfold LRUInv.bounded in *. by rewrite Hmap, Hcap. }
    destruct (IH c1 Hwf1) as (c2 & -> & ? & ? & ?).
    exists c2. split_and!; [done..|congruence|auto].
Qed.

Lemma LRU_reach capacity ops (c0 c : LRU.LRUCache Key Value) :
  - 2 ^ 31 ≤ capacity < 2 ^ 31 →
  LRU.new capacity = Some c0 → run ops c0 = Some c →
  ∃ l, LRUInv.inv c l ∧ LRU.capacity_ c = capacity
       ∧ (0 ≤ capacity → Z.of_nat (length l) ≤ capacity).
Proof.
  intros Hcap Hnew Hrun.
  destruct (LRUFacts.LRU_new_inv (Value:=Value) capacity Hcap)
    as (c0' & Hnew' & Hinv0 & Hc0 & Hm0).
  assert (c0' = c0) as -> by congruence.
  destruct (LRU_run_inv ops c0) as (c' & Hrun' & [l Hinv] & Hc & Hb); [by exists []|].
  assert (c' = c) as -> by congruence.
  exists l. split_and!; [done|congruence|].
  intros Hpos. rewrite <-(LRUOrderFacts.size_nodeMap c l Hinv).
  unfold LRUInv.bounded in Hb. rewrite Hc, Hc0 in Hb. apply Hb.
  rewrite Hm0, map_size_empty. lia.
Qed.

Lemma LRUK_run_inv ops (c : LRUK.LRUKCache Key Value) :
  LRUKInv.wf c →
  ∃ c', run ops c = Some c' ∧ LRUKInv.wf c'
        ∧ LRU.capacity_ (LRUK.base c') = LRU.capacity_ (LRUK.base c).
Proof.
  unfold run. revert c. induction ops as [|o ops IH]; intros c Hwf; simpl.
  - eauto.
  - assert (∃ c1, step c o = Some c1 ∧ LRUKInv.wf c1
                  ∧ LRU.capacity_ (LRUK.base c1) = LRU.capacity_ (LRUK.base c))
      as (c1 & -> & Hwf1 & Hc1).
    { destruct o as [k v|k]; simpl.
      - destruct (LRUKFacts.LRUK_put_inv c k v Hwf) as (c' & -> & ? & ? & _). eauto.
      - destruct (LRUKFacts.LRUK_get_inv c k value_init Hwf)
          as (b & v & c' & -> & ? & ? & _).
        simpl. eauto. }
    destruct (IH c1 Hwf1) as (c2 & -> & ? & ?).
    exists c2. split_and!; [done..|congruence].
Qed.

Lemma LRUK_reach capacity histCapacity k ops (c0 c : LRUK.LRUKCache Key Value) :
  - 2 ^ 31 ≤ capacity < 2 ^ 31 → - 2 ^ 31 ≤ histCapacity < 2 ^ 31 →
  LRUK.new capacity histCapacity k = Some c0 → run ops c0 = Some c →
  LRUKInv.wf c ∧ LRU.capacity_ (LRUK.base c) = capacity.
Proof.
  intros Hcap Hhist Hnew Hrun.
  destruct (LRUKFacts.LRUK_new_wf (Value:=Value) capacity histCapacity k Hcap Hhist)
    as (c0' & Hnew' & Hwf0 & Hc0 & _).
  assert (c0' = c0) as -> by congruence.
  destruct (LRUK_run_inv ops c0 Hwf0) as (c' & Hrun' & Hwf & Hc).
  assert (c' = c) as -> by congruence. split; [done|congruence].
Qed.
End ReachFacts.
End ReachFacts.

(** ** [LRUCache]: the recency order *)

Section LRUOrderProps.
Context {Key Value : Type} `{Countable Key}.
Context `{DefaultConstructible Key} `{DefaultConstructible Value}.
Import LRUInv.

(** X1: on an [LRUCache] of positive capacity, in any state reached by
    [put] and [get], the entries read from the least to the most
    recently used have distinct keys and are at most [capacity]; [put]
    of a resident key moves its entry to the most recent end with the
    new value, and [put] of a new key appends the entry there after
    dropping the least recently used entry when the cache is full. *)
Theorem LRU_put_entries capacity ops (c0 c : LRU.LRUCache Key Value) key val :
  0 < capacity < 2 ^ 31 →
  LRU.new capacity = Some c0 → run ops c0 = Some c →
  ∃ al c', entries c = Some al ∧ NoDup al.*1
    ∧ Z.of_nat (length al) ≤ capacity
    ∧ LRU.put key val c = Some c'
    ∧ entries c'
      = Some (if bool_decide (key ∈ al.*1)
              then filter (λ e, e.1 ≠ key) al ++ [(key, val)]
              else (if bool_decide (capacity ≤ Z.of_nat (length al))
                    then tail al else al) ++ [(key, val)]).
Proof.
  intros Hcap Hnew Hrun.
  destruct (ReachFacts.LRU_reach capacity ops c0 c) as (l & Hinv & Hc & Hlen);
    [lia|done..|].
  destruct (LRUOrderFacts.put_order c l key val Hinv) as (c' & l' & Hput & Hinv' & _ & Hcont);
    [lia|].
  exists (contents (LRU.heap c) l), c'. split_and!.
  - by apply LRUOrderFacts.entries_inv.
  - by apply LRUOrderFacts.contents_NoDup.
  - rewrite (LRUOrderFacts.contents_length c l Hinv). apply Hlen. lia.
  - done.
  - rewrite (LRUOrderFacts.entries_inv c' l' Hinv'). rewrite Hcont. by rewrite Hc.
Qed.

(** X2: on an [LRUCache], in any state reached by [put] and [get], the
    two-argument [get] of a resident key returns true with the stored
    value and moves the entry to the most recent end, the other entries
    keeping their order; on a key that is not resident it returns false
    and leaves the out-parameter and the cache as they are. *)
Theorem LRU_get_entries capacity ops (c0 c : LRU.LRUCache Key Value) key out :
  - 2 ^ 31 ≤ capacity < 2 ^ 31 →
  LRU.new capacity = Some c0 → run ops c0 = Some c →
  ∃ al r c', entries c = Some al ∧ LRU.get key out c = Some (r, c')
    ∧ (∀ v, (key, v) ∈ al →
         r = (true, v)
         ∧ entries c' = Some (filter (λ e, e.1 ≠ key) al ++ [(key, v)]))
    ∧ (key ∉ al.*1 → r = (false, out) ∧ c' = c).
Proof.
  intros Hcap Hnew Hrun.
  destruct (ReachFacts.LRU_reach capacity ops c0 c) as (l & Hinv & Hc & Hlen);
    [lia|done..|].
  destruct (LRUOrderFacts.get_order c l key out Hinv)
    as (r & c' & l' & Hget & Hinv' & _ & Hhit & Hmiss).
  exists (contents (LRU.heap c) l), r, c'. split_and!.
  - by apply LRUOrderFacts.entries_inv.
  - done.
  - intros v Hv. destruct (Hhit v Hv) as [-> Hcont]. split; [done|].
    by rewrite (LRUOrderFacts.entries_inv c' l' Hinv'), Hcont.
  - intros Hn. by destruct (Hmiss Hn) as (-> & -> & _).
Qed.

(** X3: on an [LRUCache], in any state reached by [put] and [get],
    [remove(key)] takes the entry of [key] out, if there is one, and
    leaves the other entries and their order as they are. *)
Theorem LRU_remove_entries capacity ops (c0 c : LRU.LRUCache Key Value) key :
  - 2 ^ 31 ≤ capacity < 2 ^ 31 →
  LRU.new capacity = Some c0 → run ops c0 = Some c →
  ∃ al c', entries c = Some al ∧ LRU.remove key c = Some c'
    ∧ entries c' = Some (filter (λ e, e.1 ≠ key) al)
    ∧ LRU.nodeMap_ c' = delete key (LRU.nodeMap_ c).
Proof.
  intros Hcap Hnew Hrun.
  destruct (ReachFacts.LRU_reach capacity ops c0 c) as (l & Hinv & Hc & Hlen);
    [lia|done..|].
  destruct (LRUOrderFacts.remove_order c l key Hinv)
    as (c' & l' & Hrm & Hinv' & _ & Hcont).
  destruct (LRUFacts.remove_inv c key) as (c'' & Hrm' & _ & _ & Hmap); [by exists l|].
  assert (c'' = c') as -> by congruence.
  exists (contents (LRU.heap c) l), c'. split_and!; [|done| |done].
  - by apply LRUOrderFacts.entries_inv.
  - by rewrite (LRUOrderFacts.entries_inv c' l' Hinv'), Hcont.
Qed.

(** X4: on an [LRUCache] of positive capacity, in any state reached by
    [put] and [get], [put(key, val)] followed by [get(key)] hits and
    returns [val]. *)
Theorem LRU_put_get capacity ops (c0 c : LRU.LRUCache Key Value) key val out :
  0 < capacity < 2 ^ 31 →
  LRU.new capacity = Some c0 → run ops c0 = Some c →
  ∃ c' c'', LRU.put key val c = Some c'
            ∧ LRU.get key out c' = Some (true, val, c'').
Proof.
  intros Hcap Hnew Hrun.
  destruct (ReachFacts.LRU_reach capacity ops c0 c) as (l & Hinv & Hc & Hlen);
    [lia|done..|].
  destruct (LRUOrderFacts.put_order c l key val Hinv)
    as (c' & l' & Hput & Hinv' & _ & Hcont); [lia|].
  destruct (LRUOrderFacts.get_order c' l' key out Hinv')
    as (r & c'' & l'' & Hget & _ & _ & Hhit & _).
  destruct (Hhit val) as [-> _].
  { rewrite Hcont. case_bool_decide; set_solver. }
  by exists c', c''.
Qed.

(** X5: an [LRUCache] constructed with a capacity that is not positive
    never holds an entry: every [put] and every [get] leaves it as it
    was constructed, with an empty key-to-node map. *)
Theorem LRU_nonpositive_capacity capacity (ops : list (op Key Value)) :
  - 2 ^ 31 ≤ capacity ≤ 0 →
  ∃ c0 : LRU.LRUCache Key Value,
    LRU.new capacity = Some c0 ∧ LRU.nodeMap_ c0 = ∅ ∧ run ops c0 = Some c0.
Proof.
  intros Hcap.
  destruct (LRUFacts.LRU_new_inv (Key:=Key) (Value:=Value) capacity)
    as (c0 & Hnew & _ & Hc0 & Hm0); [lia|].
  exists c0. split_and!; [done..|].
  unfold run. induction ops as [|o ops IH]; [done|]. simpl.
  assert (step c0 o = Some c0) as ->; [|done].
  destruct o as [k v|k]; simpl.
  - unfold LRU.put. rewrite bool_decide_eq_true_2; [done|lia].
  - unfold LRU.get. by rewrite Hm0, lookup_empty.
Qed.
End LRUOrderProps.

(** ** [LRUKCache]: admission after [K] accesses *)

Section LRUKAdmissionProps.
Context {Key Value : Type} `{Countable Key}.
Context `{DefaultConstructible Key} `{DefaultConstructible Value}.
Import LRUKInv.

(** X6: on an [LRUKCache], in any state reached by [put] and [get],
    [put(key, val)] of a key that is not in the main cache and whose
    recorded access count stays below [K] leaves the main cache as it
    is and records [val] as the pending value of the key. *)
Theorem LRUK_put_below_K capacity histCapacity k ops
    (c0 c : LRUK.LRUKCache Key Value) key val :
  - 2 ^ 31 ≤ capacity < 2 ^ 31 → - 2 ^ 31 ≤ histCapacity < 2 ^ 31 →
  LRUK.new capacity histCapacity k = Some c0 → run ops c0 = Some c →
  LRU.nodeMap_ (LRUK.base c) !! key = None →
  LRUK.reached (to_size_t (histCount c key + 1)) (LRUK.k_ c) = false →
  ∃ c', LRUK.put key val c = Some c'
        ∧ LRUK.base c' = LRUK.base c
        ∧ LRUK.histValMap_ c' = <[key := val]> (LRUK.histValMap_ c)
        ∧ LRUK.k_ c' = LRUK.k_ c.
Proof.
  intros Hcap Hhist Hnew Hrun Hkey Hk.
  pose proof (ReachFacts.LRUK_reach _ _ _ _ _ _ Hcap Hhist Hnew Hrun) as [Hwf _].
  unfold LRUK.put, LRU.get. rewrite Hkey. simpl.
  destruct (LRUKFacts.hist_get1 c key Hwf) as (h1 & -> & Hh1). simpl.
  destruct (LRUFacts.LRU_put_inv h1 key (to_size_t (histCount c key + 1)) Hh1)
    as (h2 & -> & _). simpl.
  rewrite Hk. eexists. split; [reflexivity|]. done.
Qed.

(** X7: on an [LRUKCache], in any state reached by [put] and [get],
    [put(key, val)] of a key that is not in the main cache and whose
    recorded access count reaches [K] with this call admits the key: the
    main cache becomes what [LRUCache::put(key, val)] makes of it, the
    key leaves the history list, and no pending value is kept for it. *)
Theorem LRUK_put_reaches_K capacity histCapacity k ops
    (c0 c : LRUK.LRUKCache Key Value) key val :
  - 2 ^ 31 ≤ capacity < 2 ^ 31 → - 2 ^ 31 ≤ histCapacity < 2 ^ 31 →
  LRUK.new capacity histCapacity k = Some c0 → run ops c0 = Some c →
  LRU.nodeMap_ (LRUK.base c) !! key = None →
  LRUK.reached (to_size_t (histCount c key + 1)) (LRUK.k_ c) = true →
  ∃ c', LRUK.put key val c = Some c'
        ∧ LRU.put key val (LRUK.base c) = Some (LRUK.base c')
        ∧ LRU.nodeMap_ (LRUK.histList_ c') !! key = None
        ∧ LRUK.histValMap_ c' !! key = None
        ∧ (0 < capacity → is_Some (LRU.nodeMap_ (LRUK.base c') !! key)).
Proof.
  intros Hcap Hhist Hnew Hrun Hkey Hk.
  pose proof (ReachFacts.LRUK_reach _ _ _ _ _ _ Hcap Hhist Hnew Hrun) as [Hwf Hbcap].
  unfold LRUK.put, LRU.get. rewrite Hkey. simpl.
  destruct (LRUKFacts.hist_get1 c key Hwf) as (h1 & -> & Hh1). simpl.
  destruct (LRUFacts.LRU_put_inv h1 key (to_size_t (histCount c key + 1)) Hh1)
    as (h2 & -> & Hh2 & _). simpl.
  rewrite Hk.
  destruct (LRUFacts.remove_inv h2 key Hh2) as (h3 & -> & Hh3 & _ & Hm3). simpl.
  destruct Hwf as [Hb _].
  destruct (LRUFacts.LRU_put_inv (LRUK.base c) key val Hb)
    as (b2 & Hput & _ & _ & _ & Hres).
  rewrite Hput. simpl. eexists. split; [reflexivity|]. simpl. split_and!.
  - done.
  - rewrite Hm3. apply lookup_delete_eq.
  - apply lookup_delete_eq.
  - intros Hpos. rewrite Hbcap in Hres. specialize (Hres Hpos).
    by destruct (LRU.nodeMap_ b2 !! key); [eauto|].
Qed.
End LRUKAdmissionProps.

(** ** [FreqList]: the list of the nodes of one frequency *)

Module FreqListFacts.
Section FreqListFacts.
Context {Key Value : Type}.
Context `{DefaultConstructible Key} `{DefaultConstructible Value}.
Import FreqList FreqListInv.
Implicit Types (h : gmap ptr (LFUNode Key Value)) (l : FreqList.FreqList).

Lemma FreqList_nxv_insert h q n a :
  nxv (<[q := n]> h) a = if decide (a = q) then next n else nxv h a.
Proof.
  unfold nxv. case_decide as Ha; [subst; by rewrite lookup_insert_eq|].
  by rewrite lookup_insert_ne.
Qed.
Lemma FreqList_pvv_insert h q n a :
  pvv (<[q := n]> h) a = if decide (a = q) then prev n else pvv h a.
Proof.
  unfold pvv. case_decide as Ha; [subst; by rewrite lookup_insert_eq|].
  by rewrite lookup_insert_ne.
Qed.
Lemma infov_insert h q n a :
  infov (<[q := n]> h) a
  = if decide (a = q) then Some (freq n, key n, val n) else infov h a.
Proof.
  unfold infov. case_decide as Ha; [subst; by rewrite lookup_insert_eq|].
  by rewrite lookup_insert_ne.
Qed.
Lemma FreqList_nxv_Some h a b :
  nxv h a = Some b → ∃ n, h !! a = Some n ∧ next n = Some b.
Proof. unfold nxv. destruct (h !! a) as [n|]; [|done]. eauto. Qed.
Lemma FreqList_pvv_Some h a b :
  pvv h a = Some b → ∃ n, h !! a = Some n ∧ prev n = Some b.
Proof. unfold pvv. destruct (h !! a) as [n|]; [|done]. eauto. Qed.

Ltac heap_run :=
  repeat first
    [ rewrite lookup_insert_eq
    | rewrite lookup_insert_ne by done
    | match goal with
      | H : ?h !! ?a = Some _ |- context [?h !! ?a] => rewrite H
      | H : ?f ?n = Some _ |- context [?f ?n] => rewrite H
      end
    | progress simpl ].

Ltac view_solve :=
  intros; rewrite ?FreqList_nxv_insert, ?FreqList_pvv_insert, ?infov_insert;
  repeat case_decide; simplify_eq; unfold nxv, pvv, infov; simpl;
  repeat match goal with
         | H : ?h !! ?a = Some _ |- context [?h !! ?a] => rewrite H
         end; done.

Lemma new_holds count h :
  ∃ l h', new count h = Some (l, h') ∧ holds l h' [] ∧ freq_ l = count
          ∧ (∀ a, is_Some (h !! a) →
               h' !! a = h !! a ∧ Some a ≠ dummyHead_ l ∧ Some a ≠ dummyTail_ l).
Proof.
  unfold new, initializeList, make_shared, wr_next, wr_prev. simpl.
  set (hd := fresh (dom h)).
  assert (h !! hd = None) as Hhd by apply not_elem_of_dom, is_fresh.
  set (tl := fresh (dom (<[hd := mkNode 1 value_init value_init None None]> h))).
  assert (<[hd := mkNode 1 value_init value_init None None]> h !! tl = None) as Htl
    by apply not_elem_of_dom, is_fresh.
  apply lookup_insert_None in Htl as [Htl Hne].
  heap_run. eexists _, _. split; [reflexivity|]. split_and!; [|done|].
  - exists hd, tl. split_and!; [done..|]. simpl. split_and!.
    + apply NoDup_cons. split; [set_solver|]. apply NoDup_singleton.
    + simpl. split; [|done]. view_solve.
    + simpl. split; [|done]. view_solve.
  - intros a [n Hn]. simpl. split_and!; [|congruence..].
    rewrite !lookup_insert_ne; [done|congruence..].
Qed.

Lemma holds_observers l h s :
  holds l h s →
  isEmpty l h = Some (bool_decide (s = []))
  ∧ getFirstNode l h = Some (match s with x :: _ => Some x | [] => dummyTail_ l end).
Proof.
  intros (hd & tl & Hhd & Htl & Hd).
  pose proof Hd as (Hnd & Hp & _).
  unfold isEmpty, getFirstNode, rd. rewrite Hhd, Htl. simpl.
  destruct s as [|x s]; simpl in Hp, Hnd.
  - destruct Hp as [Hha _]. apply FreqList_nxv_Some in Hha as (nh & Hh & Hha).
    rewrite Hh. simpl. rewrite Hha. by rewrite bool_decide_eq_true_2.
  - destruct Hp as [Hha _]. apply FreqList_nxv_Some in Hha as (nh & Hh & Hha).
    rewrite Hh. simpl. rewrite Hha. rewrite bool_decide_eq_false_2; [done|].
    intros [= ->]. apply NoDup_cons in Hnd as [_ Hnd].
    apply NoDup_cons in Hnd as [Hnd _]. set_solver.
Qed.

Lemma addNode_holds l h s x nx :
  holds l h s → h !! x = Some nx →
  x ∉ s → Some x ≠ dummyHead_ l → Some x ≠ dummyTail_ l →
  ∃ h', addNode l (Some x) h = Some h' ∧ holds l h' (s ++ [x])
        ∧ (∀ a, infov h' a = infov h a).
Proof.
  intros (hd & tl & Hhd & Htl & Hd) Hx Hxs Hxh Hxt.
  rewrite Hhd in Hxh. rewrite Htl in Hxt.
  destruct (chain_last hd tl s) as (pre & p & Hc & Hc').
  rewrite Hc in Hd.
  assert (x ∉ pre ++ [p; tl]) as Hnin.
  { rewrite <-Hc. set_solver. }
  change (pre ++ [p; tl]) with (pre ++ p :: tl :: []) in Hd, Hnin.
  destruct (dll_adj _ _ _ _ _ _ Hd) as (Hpt & Htp & Hne).
  apply FreqList_nxv_Some in Hpt as (np & Hp & Hpt).
  apply FreqList_pvv_Some in Htp as (nt & Ht & Htp).
  assert (x ≠ p ∧ x ≠ tl) as [Hxp Hxtl] by set_solver.
  eexists. split_and!.
  - unfold addNode, rd, wr_prev, wr_next. rewrite Hhd, Htl. heap_run. reflexivity.
  - exists hd, tl. split_and!; [done..|]. rewrite Hc'.
    change (pre ++ [p; x; tl]) with (pre ++ p :: x :: tl :: []).
    eapply dll_insert; [exact Hd|done|..]; view_solve.
  - view_solve.
Qed.

Lemma removeNode_holds l h s1 x s2 :
  holds l h (s1 ++ x :: s2) →
  ∃ h', removeNode l (Some x) h = Some h' ∧ holds l h' (s1 ++ s2)
        ∧ nxv h' x = None ∧ pvv h' x = None ∧ is_Some (h' !! x)
        ∧ (∀ a, infov h' a = infov h a).
Proof.
  intros (hd & tl & Hhd & Htl & Hd).
  destruct (chain_split_at hd tl s1 x s2) as (pre & p & n & post & Hs & Hs').
  rewrite Hs in Hd.
  destruct (dll_mid _ _ _ _ _ _ _ Hd) as (Hpx & Hxn & Hnx & Hxp & ? & ? & ?).
  apply FreqList_nxv_Some in Hpx as (np & Hp & _).
  apply FreqList_nxv_Some in Hxn as (nx & Hx & Hxn).
  apply FreqList_pvv_Some in Hnx as (nn & Hn & _).
  apply FreqList_pvv_Some in Hxp as (nx' & Hx' & Hxp).
  assert (nx' = nx) as -> by congruence. clear Hx'.
  eexists. split_and!.
  - unfold removeNode, rd, wr_prev, wr_next. rewrite Hhd, Htl. heap_run. reflexivity.
  - exists hd, tl. split_and!; [done..|]. rewrite Hs'.
    eapply dll_unlink; [exact Hd|..]; view_solve.
  - view_solve.
  - view_solve.
  - rewrite lookup_insert_eq. eauto.
  - view_solve.
Qed.
End FreqListFacts.
End FreqListFacts.

Section FreqListProps.
Context {Key Value : Type}.
Context `{DefaultConstructible Key} `{DefaultConstructible Value}.
Import FreqList FreqListInv.
Implicit Types (h : gmap ptr (LFUNode Key Value)) (l : FreqList.FreqList).

(** X8: [new FreqList(count)] allocates two sentinels that are none of
    the nodes that existed, leaves every node that existed as it was,
    and the list it builds holds no node;
    on a list that holds the nodes [s], [isEmpty] is true exactly when
    [s] is empty, and [getFirstNode] returns the oldest node of [s], or
    the tail sentinel when there is none. *)
Theorem FreqList_new_and_observers count h :
  ∃ l h', new count h = Some (l, h') ∧ holds l h' [] ∧ freq_ l = count
    ∧ (∀ a, is_Some (h !! a) →
         h' !! a = h !! a ∧ Some a ≠ dummyHead_ l ∧ Some a ≠ dummyTail_ l)
    ∧ ∀ h'' s, holds l h'' s →
        isEmpty l h'' = Some (bool_decide (s = []))
        ∧ getFirstNode l h''
          = Some (match s with x :: _ => Some x | [] => dummyTail_ l end).
Proof.
  destruct (FreqListFacts.new_holds count h) as (l & h' & Hnew & Hh & Hf & Hfr).
  exists l, h'. split_and!; [done..|].
  intros h'' s. apply FreqListFacts.holds_observers.
Qed.

(** X9: [FreqList::addNode] of a node that the list does not hold yet
    links it in as the newest node, behind the nodes held before, whose
    order stays; no frequency, key or value changes, and the list is not
    empty afterwards while its first node is still the oldest one. *)
Theorem FreqList_addNode_appends l h s x nx :
  holds l h s → h !! x = Some nx →
  x ∉ s → Some x ≠ dummyHead_ l → Some x ≠ dummyTail_ l →
  ∃ h', addNode l (Some x) h = Some h' ∧ holds l h' (s ++ [x])
        ∧ (∀ a, infov h' a = infov h a)
        ∧ isEmpty l h' = Some false
        ∧ getFirstNode l h' = Some (Some (default x (head s))).
Proof.
  intros Hh Hx Hxs Hxh Hxt.
  destruct (FreqListFacts.addNode_holds l h s x nx Hh Hx Hxs Hxh Hxt)
    as (h' & Hadd & Hh' & Hi).
  destruct (FreqListFacts.holds_observers l h' _ Hh') as [He Hf].
  exists h'. split_and!; [done..| |].
  - rewrite He. f_equal. apply bool_decide_eq_false_2. by destruct s.
  - rewrite Hf. by destruct s.
Qed.

(** X10: [FreqList::removeNode] of a node that the list holds unlinks
    it: the other nodes stay in their order, both links of the removed
    node are null afterwards, and no frequency, key or value changes. *)
Theorem FreqList_removeNode_unlinks l h s1 x s2 :
  holds l h (s1 ++ x :: s2) →
  ∃ h' n, removeNode l (Some x) h = Some h' ∧ holds l h' (s1 ++ s2)
          ∧ h' !! x = Some n ∧ prev n = None ∧ next n = None
          ∧ (∀ a, infov h' a = infov h a).
Proof.
  intros Hh.
  destruct (FreqListFacts.removeNode_holds l h s1 x s2 Hh)
    as (h' & Hrm & Hh' & Hnx & Hpv & [n Hn] & Hi).
  exists h', n. unfold nxv in Hnx. unfold pvv in Hpv. rewrite Hn in Hnx, Hpv.
  split_and!; done.
Qed.
End FreqListProps.

(** ** The hash-sharded wrappers *)

Module HashFacts.
Section ShardFacts.
Context {Key Value : Type} `{Countable Key}.
Context `{DefaultConstructible Key} `{DefaultConstructible Value}.

(** [put] followed by [get] on one well-formed [LRUCache]. *)
Lemma LRU_put_get_wf (s : LRU.LRUCache Key Value) k v out :
  LRUInv.wf s → 0 < LRU.capacity_ s →
  ∃ s' s'', LRU.put k v s = Some s' ∧ LRUInv.wf s'
            ∧ LRU.capacity_ s' = LRU.capacity_ s
            ∧ LRU.get k out s' = Some (true, v, s'').
Proof.
  intros [l Hinv] Hcap.
  destruct (LRUOrderFacts.put_order s l k v Hinv Hcap)
    as (s' & l' & Hput & Hinv' & Hcap' & Hcont).
  destruct (LRUOrderFacts.get_order s' l' k out Hinv')
    as (r & s'' & l'' & Hget & _ & _ & Hhit & _).
  destruct (Hhit v) as [-> _].
  { rewrite Hcont. case_bool_decide; set_solver. }
  exists s', s''. split_and!; [done|by exists l'|done..].
Qed.
End ShardFacts.

Section HashFacts.
Context {Key Value : Type} `{Countable Key}.
Context `{DefaultConstructible Key} `{DefaultConstructible Value}.
Variable hashFunc : Key → Z.
Variable hardware_concurrency : Z.

Lemma to_int_small z : 0 ≤ z < 2 ^ 31 → to_int z = z.
Proof. intros Hz. unfold to_int. rewrite Z.mod_small; lia. Qed.

Lemma to_int_range z : - 2 ^ 31 ≤ to_int z < 2 ^ 31.
Proof.
  unfold to_int. pose proof (Z.mod_pos_bound (z + 2 ^ 31) (2 ^ 32)). lia.
Qed.

Lemma to_size_t_small z : 0 ≤ z < 2 ^ 64 → to_size_t z = z.
Proof. intros Hz. unfold to_size_t. rewrite Z.mod_small; lia. Qed.

Lemma to_size_t_range z : 0 ≤ to_size_t z < 2 ^ 64.
Proof. unfold to_size_t. apply Z.mod_pos_bound. lia. Qed.

(** The ceiling of a quotient, as the constructors compute it. *)
Lemma ceil_bounds a b :
  0 ≤ a → 0 < b →
  0 ≤ - (- a / b) ≤ a ∧ a ≤ b * - (- a / b) < a + b.
Proof.
  intros Ha Hb. pose proof (Z.div_mod (- a) b). pose proof (Z.mod_pos_bound (- a) b).
  nia.
Qed.

Lemma LFUHash_index k n :
  0 < n < 2 ^ 31 →
  let i := to_int (LFUHash.Hash hashFunc k `mod` to_size_t n) in
  0 ≤ i < n ∧ to_size_t i = i.
Proof.
  intros Hn. rewrite (to_size_t_small n) by lia.
  pose proof (Z.mod_pos_bound (LFUHash.Hash hashFunc k) n).
  simpl. rewrite to_int_small by lia. rewrite to_size_t_small by lia. lia.
Qed.

Lemma emplace_spec n sz :
  ∃ l, LRUHash.emplace (Key:=Key) (Value:=Value) n sz = Some l
       ∧ length l = n
       ∧ Forall (λ s, LRU.new (to_int sz) = Some s ∧ LRUInv.wf s
                      ∧ LRU.capacity_ s = to_int sz ∧ LRU.nodeMap_ s = ∅) l.
Proof.
  induction n as [|n (l & Hl & Hlen & Hall)]; simpl.
  - exists []. split_and!; [done..|]. apply Forall_nil_2.
  - rewrite Hl. simpl.
    destruct (LRUFacts.LRU_new_inv (Key:=Key) (Value:=Value) (to_int sz))
      as (c & Hc & Hinv & Hcap & Hm); [apply to_int_range|].
    rewrite Hc in Hall |- *. simpl. eexists. split; [reflexivity|]. split.
    + rewrite length_app. simpl. lia.
    + apply Forall_app. split; [done|]. apply Forall_singleton.
      split; [done|]. split; [by exists []|]. split; [done|]. done.
Qed.

Lemma LRUHash_new_sharded capacity sliceNum :
  0 ≤ capacity < 2 ^ 31 → 0 < sliceNum < 2 ^ 31 →
  ∃ c, LRUHash.new hardware_concurrency capacity sliceNum = Some c
       ∧ HashInv.sharded sliceNum (- (- capacity / sliceNum)) c
       ∧ Forall (λ s, LRU.new (- (- capacity / sliceNum)) = Some s)
                (LRUHash.lruSliceCaches_ c).
Proof.
  intros Hcap Hn. pose proof (ceil_bounds capacity sliceNum) as Hq.
  unfold LRUHash.new, LRUHash.sliceSize.
  rewrite bool_decide_eq_true_2 by lia.
  rewrite bool_decide_eq_false_2 by lia.
  rewrite bool_decide_eq_false_2 by lia.
  rewrite bool_decide_eq_false_2 by lia. simpl.
  destruct (emplace_spec (Z.to_nat (to_size_t sliceNum)) (- (- capacity / sliceNum)))
    as (l & -> & Hlen & Hall).
  simpl. eexists. split; [reflexivity|].
  rewrite to_int_small in Hall by lia.
  rewrite to_size_t_small in Hlen by lia.
  split; [split_and!; simpl|simpl].
  - done.
  - rewrite Hlen. lia.
  - eapply Forall_impl; [exact Hall|]. simpl. intros s (? & ? & ? & ?). done.
  - eapply Forall_impl; [exact Hall|]. simpl. intros s (? & ? & ? & ?). done.
Qed.

Lemma sharded_index n q (c : LRUHash.LRUHashCache Key Value) k :
  0 < n < 2 ^ 31 → HashInv.sharded n q c →
  ∃ i s, LRUHash.sliceIndex hashFunc k c = Some i ∧ 0 ≤ i < n
         ∧ LRUHash.lruSliceCaches_ c !! Z.to_nat i = Some s
         ∧ LRUInv.wf s ∧ LRU.capacity_ s = q.
Proof.
  intros Hn (Hs & Hlen & Hall). unfold LRUHash.sliceIndex. rewrite Hs.
  rewrite (to_size_t_small n) by lia.
  rewrite bool_decide_eq_false_2 by lia.
  pose proof (Z.mod_pos_bound (LRUHash.Hash hashFunc k) n) as Hi.
  set (i := LRUHash.Hash hashFunc k `mod` n) in *.
  destruct (lookup_lt_is_Some_2 (LRUHash.lruSliceCaches_ c) (Z.to_nat i)) as [s Hsi];
    [lia|].
  exists i, s. split_and!; [done|lia|lia|done|..];
    by destruct (proj1 (Forall_lookup _ _) Hall _ _ Hsi).
Qed.

Lemma sharded_insert n q (c : LRUHash.LRUHashCache Key Value) i s :
  HashInv.sharded n q c → LRUInv.wf s → LRU.capacity_ s = q →
  HashInv.sharded n q
    (LRUHash.mkCache (LRUHash.capacity_ c) (LRUHash.sliceNum_ c)
       (<[i := s]> (LRUHash.lruSliceCaches_ c))).
Proof.
  intros (Hs & Hlen & Hall) Hwf Hq. split_and!; simpl.
  - done.
  - by rewrite length_insert.
  - apply Forall_insert; done.
Qed.

Lemma LRUHash_put_sharded n q (c : LRUHash.LRUHashCache Key Value) k v :
  0 < n < 2 ^ 31 → HashInv.sharded n q c →
  ∃ c', LRUHash.put hashFunc k v c = Some c' ∧ HashInv.sharded n q c'.
Proof.
  intros Hn Hsh.
  destruct (sharded_index n q c k Hn Hsh) as (i & s & Hi & _ & Hs & Hwf & Hq).
  destruct (LRUFacts.LRU_put_inv s k v Hwf) as (s' & Hput & Hwf' & Hcap' & _).
  unfold LRUHash.put. rewrite Hi. simpl. rewrite Hs. simpl. rewrite Hput. simpl.
  eexists. split; [reflexivity|]. apply sharded_insert; [done..|congruence].
Qed.

Lemma LRUHash_get_sharded n q (c : LRUHash.LRUHashCache Key Value) k v :
  0 < n < 2 ^ 31 → HashInv.sharded n q c →
  ∃ r c', LRUHash.get hashFunc k v c = Some (r, c') ∧ HashInv.sharded n q c'.
Proof.
  intros Hn Hsh.
  destruct (sharded_index n q c k Hn Hsh) as (i & s & Hi & _ & Hs & Hwf & Hq).
  destruct (LRUFacts.LRU_get_inv s k v Hwf) as (b & v' & s' & Hget & Hwf' & Hcap' & _).
  unfold LRUHash.get. rewrite Hi. simpl. rewrite Hs. simpl. rewrite Hget. simpl.
  eexists _, _. split; [reflexivity|]. apply sharded_insert; [done..|congruence].
Qed.

Lemma LRUHash_run_sharded n q ops (c : LRUHash.LRUHashCache Key Value) :
  0 < n < 2 ^ 31 → HashInv.sharded n q c →
  ∃ c', HashInv.LRUHash_run hashFunc ops c = Some c' ∧ HashInv.sharded n q c'.
Proof.
  intros Hn. unfold HashInv.LRUHash_run. revert c.
  induction ops as [|o ops IH]; intros c Hsh; simpl; [eauto|].
  assert (∃ c1, HashInv.LRUHash_step hashFunc c o = Some c1
                ∧ HashInv.sharded n q c1) as (c1 & -> & Hsh1).
  { destruct o as [k v|k]; simpl.
    - by apply LRUHash_put_sharded.
    - destruct (LRUHash_get_sharded n q c k value_init Hn Hsh)
        as ([b v] & c' & -> & ?). simpl. eauto. }
  by apply IH.
Qed.

End HashFacts.
End HashFacts.

Section HashProps.
Context {Key Value : Type} `{Countable Key}.
Context `{DefaultConstructible Key} `{DefaultConstructible Value}.
Context `{!UnorderedMapOrder Key ptr}.
Variable hashFunc : Key → Z.
Variable hardware_concurrency : Z.

(** X11: an [LFUHashCache] constructed with a capacity that is not
    negative and a positive slice number has that many shards, each an
    empty [LFUAvgCache] whose capacity is the ceiling of
    [capacity / sliceNu], so that the shards together hold at least
    [capacity]; the slice index of every key is below the number of
    shards, so that [put] always reaches the shard of that index. *)
Theorem LFUHash_new_shards capacity sliceNu maxAvgFreq :
  0 ≤ capacity < 2 ^ 31 → 0 < sliceNu < 2 ^ 31 →
  ∃ c q, LFUHash.new hardware_concurrency capacity sliceNu maxAvgFreq = Some c
    ∧ capacity ≤ sliceNu * q < capacity + sliceNu
    ∧ LFUHash.lfuSliceCaches_ c
      = replicate (Z.to_nat sliceNu) (LFUAvg.new q maxAvgFreq)
    ∧ ∀ k v, ∃ i,
        LFUHash.getSliceIndex hashFunc k c = Some i ∧ 0 ≤ i < sliceNu
        ∧ LFUHash.put hashFunc k v c
          = (s ← LFUAvg.put k v (LFUAvg.new q maxAvgFreq);
             Some (LFUHash.mkCache capacity sliceNu
                     (<[Z.to_nat i := s]> (LFUHash.lfuSliceCaches_ c)))).
Proof.
  intros Hcap Hn. pose proof (HashFacts.ceil_bounds capacity sliceNu) as Hq.
  unfold LFUHash.new, LFUHash.sliceSize.
  rewrite bool_decide_eq_true_2 by lia.
  rewrite bool_decide_eq_false_2 by lia.
  rewrite bool_decide_eq_false_2 by lia. simpl.
  rewrite HashFacts.to_int_small by lia.
  eexists _, (- (- capacity / sliceNu)). split; [reflexivity|]. simpl.
  split_and!; [lia|lia|done|].
  intros k v.
  destruct (HashFacts.LFUHash_index hashFunc k sliceNu Hn) as [Hi Hsz].
  eexists. unfold LFUHash.put, LFUHash.getSliceIndex. simpl.
  rewrite bool_decide_eq_false_2 by (rewrite HashFacts.to_size_t_small; lia).
  split; [reflexivity|]. split; [done|]. simpl. rewrite Hsz.
  rewrite bool_decide_eq_true_2 by (rewrite length_replicate; lia).
  rewrite lookup_replicate_2 by lia. done.
Qed.

(** X12: an [LRUHashCache] constructed with a capacity below [2^31] and
    a positive slice number has that many shards, each a freshly
    constructed [LRUCache] whose capacity is the ceiling of
    [capacity / sliceNum], so that the shards together hold at least
    [capacity]; the slice index of every key is below the number of
    shards, so that [put] and [get] never index outside the vector. *)
Theorem LRUHash_new_shards capacity sliceNum :
  0 ≤ capacity < 2 ^ 31 → 0 < sliceNum < 2 ^ 31 →
  ∃ c q, LRUHash.new hardware_concurrency capacity sliceNum = Some c
    ∧ capacity ≤ sliceNum * q < capacity + sliceNum
    ∧ Z.of_nat (length (LRUHash.lruSliceCaches_ c)) = sliceNum
    ∧ Forall (λ s, LRU.new q = Some s) (LRUHash.lruSliceCaches_ c)
    ∧ ∀ k, ∃ i, LRUHash.sliceIndex hashFunc k c = Some i
                ∧ is_Some (LRUHash.lruSliceCaches_ c !! Z.to_nat i).
Proof.
  intros Hcap Hn. pose proof (HashFacts.ceil_bounds capacity sliceNum) as Hq.
  destruct (HashFacts.LRUHash_new_sharded hardware_concurrency capacity sliceNum Hcap Hn)
    as (c & Hnew & Hsh & Hall).
  exists c, (- (- capacity / sliceNum)). split_and!; [done|lia|lia| |done|].
  - by destruct Hsh as (_ & ? & _).
  - intros k. destruct (HashFacts.sharded_index hashFunc _ _ c k Hn Hsh)
      as (i & s & Hi & _ & Hs & _).
    exists i. split; [done|]. eauto.
Qed.

(** X13: on an [LRUHashCache] constructed with a positive capacity below
    [2^31] and a positive slice number, every sequence of [put] and
    [get] runs without indexing outside the shards, and afterwards
    [put(key, val)] followed by [get(key)] hits and returns [val]. *)
Theorem LRUHash_put_get capacity sliceNum ops key val out :
  0 < capacity < 2 ^ 31 → 0 < sliceNum < 2 ^ 31 →
  ∃ c0 c c' c'',
    LRUHash.new hardware_concurrency capacity sliceNum = Some c0
    ∧ HashInv.LRUHash_run hashFunc ops c0 = Some c
    ∧ LRUHash.put hashFunc key val c = Some c'
    ∧ LRUHash.get hashFunc key out c' = Some (true, val, c'').
Proof.
  intros Hcap Hn. pose proof (HashFacts.ceil_bounds capacity sliceNum) as Hq.
  destruct (HashFacts.LRUHash_new_sharded hardware_concurrency capacity sliceNum)
    as (c0 & Hnew & Hsh0 & _); [lia|done|].
  destruct (HashFacts.LRUHash_run_sharded hashFunc _ _ ops c0 Hn Hsh0)
    as (c & Hrun & Hsh).
  destruct (HashFacts.sharded_index hashFunc _ _ c key Hn Hsh)
    as (i & s & Hi & Hir & Hs & Hwf & Hsq).
  destruct (HashFacts.LRU_put_get_wf s key val out Hwf)
    as (s' & s'' & Hput & Hwf' & Hcap' & Hget); [nia|].
  exists c0, c. eexists _, _. split_and!; [done..| |].
  - unfold LRUHash.put. rewrite Hi. simpl. rewrite Hs. simpl. rewrite Hput.
    reflexivity.
  - unfold LRUHash.get, LRUHash.sliceIndex in *. simpl.
    destruct (bool_decide (to_size_t (LRUHash.sliceNum_ c) = 0)); [done|].
    simpl in *. simplify_eq. rewrite list_lookup_insert_eq.
    + simpl. rewrite Hget. simpl. reflexivity.
    + by apply lookup_lt_Some in Hs.
Qed.
End HashProps.

(** ** The direction of ARC's adaptation *)

Module ARCAdaptFacts.
Section ARCAdaptFacts.
Context {Key Value : Type} `{Countable Key}.
Context `{DefaultConstructible Key} `{DefaultConstructible Value}.
Import ARC ARCTopInv.
Implicit Types (c : ARCCache Key Value).

Local Arguments ARCLRU.checkGhost : simpl never.
Local Arguments ARCLFU.checkGhost : simpl never.
Local Arguments ARCLRU.decreaseCapacity : simpl never.
Local Arguments ARCLFU.decreaseCapacity : simpl never.
Local Arguments ARCLRU.increaseCapacity : simpl never.
Local Arguments ARCLFU.increaseCapacity : simpl never.

Ltac caps :=
  repeat match goal with
  | H : ARCLRU.capacity_ _ = _ |- _ => rewrite H
  | H : ARCLFU.capacity_ _ = _ |- _ => rewrite H
  end; first [lia | f_equal; lia].

Ltac parts := cbn [lruCache_ lfuCache_ with_parts ARC.capacity_].

Lemma checkGhost_adapt c key :
  wf c →
  ∃ b c', checkGhost key c = Some (b, c')
    ∧ b = bool_decide (is_Some (ARCLRU.ghostCache_ (lruCache_ c) !! key)
                       ∨ is_Some (ARCLFU.ghostCache_ (lfuCache_ c) !! key))
    ∧ (capL c', capF c')
      = if bool_decide (is_Some (ARCLRU.ghostCache_ (lruCache_ c) !! key)) then
          if bool_decide (0 < capF c) then (capL c + 1, capF c - 1)
          else (capL c, capF c)
        else if bool_decide (is_Some (ARCLFU.ghostCache_ (lfuCache_ c) !! key)) then
          if bool_decide (0 < capL c) then (capL c - 1, capF c + 1)
          else (capL c, capF c)
        else (capL c, capF c).
Proof.
  intros Hwf. pose proof Hwf as [Hl Hf Hbl Hbf Hsum Hrange].
  pose proof (ARCFacts.wf_capL_nonneg c Hwf) as HL0.
  pose proof (ARCFacts.wf_capF_nonneg c Hwf) as HF0.
  unfold capL, capF in *. unfold checkGhost.
  destruct (ARCLRUFacts.ARCLRU_checkGhost_inv (lruCache_ c) key Hl)
    as (b1 & l1 & -> & Hl1 & Hcl1 & Hml1 & Hb1 & _).
  simpl. destruct b1.
  - symmetry in Hb1. apply bool_decide_eq_true_1 in Hb1.
    rewrite (bool_decide_eq_true_2 _ Hb1).
    destruct (ARCLFUFacts2.ARCLFU_decreaseCapacity_inv (lfuCache_ c) Hf)
      as (b2 & f2 & -> & Hf2 & Hbf2 & Hcf2 & Hmf2).
    simpl. eexists true, _. split; [reflexivity|]. parts.
    split; [symmetry; apply bool_decide_eq_true_2; by left|].
    destruct b2.
    + destruct Hcf2 as [Hcf2 Hpos].
      destruct (ARCLRUFacts.ARCLRU_increaseCapacity_inv l1 Hl1) as (Hl3 & Hcl3 & Hml3 & Hbl3).
      { lia. }
      rewrite bool_decide_eq_true_2 by done. caps.
    + destruct Hcf2 as [-> Hzero].
      rewrite bool_decide_eq_false_2 by lia. caps.
  - symmetry in Hb1. apply bool_decide_eq_false_1 in Hb1.
    rewrite (bool_decide_eq_false_2 _ Hb1).
    destruct (ARCLFUFacts.ARCLFU_checkGhost_inv (lfuCache_ c) key Hf)
      as (b3 & f3 & -> & Hf3 & Hcf3 & Hmf3 & Hb3 & _).
    simpl. destruct b3.
    + symmetry in Hb3. apply bool_decide_eq_true_1 in Hb3.
      rewrite (bool_decide_eq_true_2 _ Hb3).
      destruct (ARCLRUFacts.ARCLRU_decreaseCapacity_inv l1 Hl1)
        as (b4 & l4 & -> & Hl4 & Hbl4 & Hcl4 & Hml4).
      simpl. eexists true, _. split; [reflexivity|]. parts.
      split; [symmetry; apply bool_decide_eq_true_2; by right|].
      destruct b4.
      * destruct Hcl4 as [Hcl4 Hpos].
        destruct (ARCLFUFacts2.ARCLFU_increaseCapacity_inv f3 Hf3)
          as (Hf5 & Hcf5 & Hmf5 & Hbf5).
        { lia. }
        rewrite bool_decide_eq_true_2 by lia. caps.
      * destruct Hcl4 as [-> Hzero].
        rewrite bool_decide_eq_false_2 by lia. caps.
    + symmetry in Hb3. apply bool_decide_eq_false_1 in Hb3.
      rewrite (bool_decide_eq_false_2 _ Hb3).
      eexists false, _. split; [reflexivity|]. parts.
      split; [symmetry; apply bool_decide_eq_false_2; tauto|]. caps.
Qed.
End ARCAdaptFacts.
End ARCAdaptFacts.

Section ARCAdaptProps.
Context {Key Value : Type} `{Countable Key}.
Context `{DefaultConstructible Key} `{DefaultConstructible Value}.
Import ARCTopInv.

(** X14: in every state reached from construction by [put] and [get],
    [checkGhost] reports whether the key is in one of the two ghost
    lists.  A key of the recency half's ghost list moves one unit of
    capacity from the frequency half to the recency half, unless the
    frequency half is at capacity zero; otherwise a key of the frequency
    half's ghost list moves one unit the other way, unless the recency
    half is at capacity zero; in every other case both capacities stay
    as they are. *)
Theorem ARC_ghost_hit_adapts
    (capacity transformThreshold : Z) (ops : list (op Key Value))
    (c0 c : ARC.ARCCache Key Value) (key : Key) :
  0 ≤ capacity → 2 * capacity < 2 ^ 64 →
  ARC.new capacity transformThreshold = Some c0 → run ops c0 = Some c →
  ∃ b c', ARC.checkGhost key c = Some (b, c')
    ∧ b = bool_decide
            (is_Some (ARCLRU.ghostCache_ (ARC.lruCache_ c) !! key)
             ∨ is_Some (ARCLFU.ghostCache_ (ARC.lfuCache_ c) !! key))
    ∧ (capL c', capF c')
      = if bool_decide (is_Some (ARCLRU.ghostCache_ (ARC.lruCache_ c) !! key)) then
          if bool_decide (0 < capF c) then (capL c + 1, capF c - 1)
          else (capL c, capF c)
        else if bool_decide (is_Some (ARCLFU.ghostCache_ (ARC.lfuCache_ c) !! key)) then
          if bool_decide (0 < capL c) then (capL c - 1, capF c + 1)
          else (capL c, capF c)
        else (capL c, capF c).
Proof.
  intros Hpos Hlt Hnew Hrun.
  destruct (ARCFacts.ARC_new_wf (Value:=Value) capacity transformThreshold)
    as (c0' & Hnew' & Hwf & _); [lia..|].
  assert (c0' = c0) as -> by congruence.
  destruct (ARCFacts.run_wf ops c0 Hwf) as (c1 & Hrun' & Hwf1 & _).
  assert (c1 = c) as -> by congruence.
  by apply ARCAdaptFacts.checkGhost_adapt.
Qed.
End ARCAdaptProps.

(** ** The properties at concrete inputs *)

Section PropertyInputs.
(** The inputs are run in the enumeration order of the finite map. *)
#[local] Existing Instance enumeration_order.

Lemma LRU_put_entries_witness :
  ∃ c0 c : LRU.LRUCache Z string,
    LRU.new 2 = Some c0
    ∧ run [Put 1 "a"%string; Put 2 "b"%string; Get 1] c0 = Some c
    ∧ ∃ al c', LRUInv.entries c = Some al ∧ NoDup al.*1
        ∧ Z.of_nat (length al) ≤ 2
        ∧ LRU.put 3 "c"%string c = Some c'
        ∧ LRUInv.entries c'
          = Some (if bool_decide (3 ∈ al.*1)
                  then filter (λ e, e.1 ≠ 3) al ++ [(3, "c"%string)]
                  else (if bool_decide (2 ≤ Z.of_nat (length al))
                        then tail al else al) ++ [(3, "c"%string)]).
Proof.
  destruct (LRUFacts.LRU_new_inv (Key:=Z) (Value:=string) 2)
    as (c0 & Hnew & Hinv & _); [lia|].
  destruct (ReachFacts.LRU_run_inv [Put 1 "a"%string; Put 2 "b"%string; Get 1] c0)
    as (c & Hrun & _); [by exists []|].
  exists c0, c. split; [done|]. split; [done|].
  apply (LRU_put_entries (Key:=Z) (Value:=string) 2
           [Put 1 "a"%string; Put 2 "b"%string; Get 1] c0 c 3 "c"%string);
    [lia|done|done].
Defined.

Lemma LRU_get_entries_witness :
  ∃ c0 c : LRU.LRUCache Z string,
    LRU.new 2 = Some c0
    ∧ run [Put 1 "a"%string; Put 2 "b"%string] c0 = Some c
    ∧ ∃ al r c', LRUInv.entries c = Some al
        ∧ LRU.get 1 "z"%string c = Some (r, c')
        ∧ (∀ v, (1, v) ∈ al →
             r = (true, v)
             ∧ LRUInv.entries c' = Some (filter (λ e, e.1 ≠ 1) al ++ [(1, v)]))
        ∧ (1 ∉ al.*1 → r = (false, "z"%string) ∧ c' = c).
Proof.
  destruct (LRUFacts.LRU_new_inv (Key:=Z) (Value:=string) 2)
    as (c0 & Hnew & Hinv & _); [lia|].
  destruct (ReachFacts.LRU_run_inv [Put 1 "a"%string; Put 2 "b"%string] c0)
    as (c & Hrun & _); [by exists []|].
  exists c0, c. split; [done|]. split; [done|].
  apply (LRU_get_entries (Key:=Z) (Value:=string) 2
           [Put 1 "a"%string; Put 2 "b"%string] c0 c 1 "z"%string);
    [lia|done|done].
Defined.

Lemma LRU_remove_entries_witness :
  ∃ c0 c : LRU.LRUCache Z string,
    LRU.new 2 = Some c0
    ∧ run [Put 1 "a"%string; Put 2 "b"%string] c0 = Some c
    ∧ ∃ al c', LRUInv.entries c = Some al ∧ LRU.remove 1 c = Some c'
        ∧ LRUInv.entries c' = Some (filter (λ e, e.1 ≠ 1) al)
        ∧ LRU.nodeMap_ c' = delete 1 (LRU.nodeMap_ c).
Proof.
  destruct (LRUFacts.LRU_new_inv (Key:=Z) (Value:=string) 2)
    as (c0 & Hnew & Hinv & _); [lia|].
  destruct (ReachFacts.LRU_run_inv [Put 1 "a"%string; Put 2 "b"%string] c0)
    as (c & Hrun & _); [by exists []|].
  exists c0, c. split; [done|]. split; [done|].
  apply (LRU_remove_entries (Key:=Z) (Value:=string) 2
           [Put 1 "a"%string; Put 2 "b"%string] c0 c 1);
    [lia|done|done].
Defined.

Lemma LRU_put_get_witness :
  ∃ c0 c : LRU.LRUCache Z string,
    LRU.new 1 = Some c0
    ∧ run [Put 1 "a"%string; Put 2 "b"%string] c0 = Some c
    ∧ ∃ c' c'', LRU.put 3 "c"%string c = Some c'
                ∧ LRU.get 3 "z"%string c' = Some (true, "c"%string, c'').
Proof.
  destruct (LRUFacts.LRU_new_inv (Key:=Z) (Value:=string) 1)
    as (c0 & Hnew & Hinv & _); [lia|].
  destruct (ReachFacts.LRU_run_inv [Put 1 "a"%string; Put 2 "b"%string] c0)
    as (c & Hrun & _); [by exists []|].
  exists c0, c. split; [done|]. split; [done|].
  apply (LRU_put_get (Key:=Z) (Value:=string) 1
           [Put 1 "a"%string; Put 2 "b"%string] c0 c 3 "c"%string "z"%string);
    [lia|done|done].
Defined.

Lemma LRU_nonpositive_capacity_witness :
  ∃ c0 : LRU.LRUCache Z string,
    LRU.new 0 = Some c0 ∧ LRU.nodeMap_ c0 = ∅
    ∧ run [Put 1 "a"%string; Get 1] c0 = Some c0.
Proof.
  apply (LRU_nonpositive_capacity (Key:=Z) (Value:=string) 0
           [Put 1 "a"%string; Get 1]); lia.
Defined.

Lemma LRUK_put_below_K_witness :
  ∃ c0 c c' : LRUK.LRUKCache Z string,
    LRUK.new 2 4 3 = Some c0
    ∧ run [Put 5 "a"%string; Put 7 "x"%string] c0 = Some c
    ∧ LRU.nodeMap_ (LRUK.base c) !! 5 = None
    ∧ LRUK.reached (to_size_t (LRUKInv.histCount c 5 + 1)) (LRUK.k_ c) = false
    ∧ LRUK.put 5 "b"%string c = Some c'
    ∧ LRUK.base c' = LRUK.base c
    ∧ LRUK.histValMap_ c' = <[5 := "b"%string]> (LRUK.histValMap_ c)
    ∧ LRUK.k_ c' = LRUK.k_ c.
Proof.
  assert (∃ c0 c : LRUK.LRUKCache Z string,
             LRUK.new 2 4 3 = Some c0
             ∧ run [Put 5 "a"%string; Put 7 "x"%string] c0 = Some c
             ∧ LRU.nodeMap_ (LRUK.base c) !! 5 = None
             ∧ LRUK.reached (to_size_t (LRUKInv.histCount c 5 + 1)) (LRUK.k_ c)
               = false) as (c0 & c & Hnew & Hrun & Hkey & Hk).
  { eexists _, _. split; [vm_compute; reflexivity|].
    split; [vm_compute; reflexivity|]. split; vm_compute; reflexivity. }
  destruct (LRUK_put_below_K (Key:=Z) (Value:=string) 2 4 3
              [Put 5 "a"%string; Put 7 "x"%string] c0 c 5 "b"%string)
    as (c' & Hput); [lia|lia|done|done|done|done|].
  exists c0, c, c'. split_and!; [done..|apply Hput|apply Hput|apply Hput|apply Hput].
Defined.

Lemma LRUK_put_reaches_K_witness :
  ∃ c0 c c' : LRUK.LRUKCache Z string,
    LRUK.new 2 4 2 = Some c0
    ∧ run [Put 5 "a"%string] c0 = Some c
    ∧ LRU.nodeMap_ (LRUK.base c) !! 5 = None
    ∧ LRUK.reached (to_size_t (LRUKInv.histCount c 5 + 1)) (LRUK.k_ c) = true
    ∧ LRUK.put 5 "b"%string c = Some c'
    ∧ LRU.put 5 "b"%string (LRUK.base c) = Some (LRUK.base c')
    ∧ LRU.nodeMap_ (LRUK.histList_ c') !! 5 = None
    ∧ LRUK.histValMap_ c' !! 5 = None
    ∧ (0 < 2 → is_Some (LRU.nodeMap_ (LRUK.base c') !! 5)).
Proof.
  assert (∃ c0 c : LRUK.LRUKCache Z string,
             LRUK.new 2 4 2 = Some c0
             ∧ run [Put 5 "a"%string] c0 = Some c
             ∧ LRU.nodeMap_ (LRUK.base c) !! 5 = None
             ∧ LRUK.reached (to_size_t (LRUKInv.histCount c 5 + 1)) (LRUK.k_ c)
               = true) as (c0 & c & Hnew & Hrun & Hkey & Hk).
  { eexists _, _. split; [vm_compute; reflexivity|].
    split; [vm_compute; reflexivity|]. split; vm_compute; reflexivity. }
  destruct (LRUK_put_reaches_K (Key:=Z) (Value:=string) 2 4 2
              [Put 5 "a"%string] c0 c 5 "b"%string)
    as (c' & Hput); [lia|lia|done|done|done|done|].
  exists c0, c, c'. split_and!; [done..|apply Hput|apply Hput|apply Hput|apply Hput|apply Hput].
Defined.

Lemma FreqList_addNode_appends_witness :
  ∃ l h h1 h',
    FreqList.new 1 {[ 5%nat := FreqList.mkNode 1 7 "a"%string None None;
                      6%nat := FreqList.mkNode 1 8 "b"%string None None ]}
    = Some (l, h)
    ∧ FreqList.addNode l (Some 5%nat) h = Some h1
    ∧ FreqList.addNode l (Some 6%nat) h1 = Some h'
    ∧ FreqListInv.holds l h' ([5%nat] ++ [6%nat])
    ∧ (∀ a, FreqListInv.infov h' a = FreqListInv.infov h1 a)
    ∧ FreqList.isEmpty l h' = Some false
    ∧ FreqList.getFirstNode l h' = Some (Some (default 6%nat (head [5%nat]))).
Proof.
  destruct (FreqListFacts.new_holds (Key:=Z) (Value:=string) 1
              {[ 5%nat := FreqList.mkNode 1 7 "a"%string None None;
                 6%nat := FreqList.mkNode 1 8 "b"%string None None ]})
    as (l & h & Hnew & Hh & _ & Hold).
  destruct (Hold 5%nat) as (H5 & Hhd5 & Htl5); [by eexists|].
  destruct (Hold 6%nat) as (H6 & Hhd6 & Htl6); [by eexists|].
  destruct (FreqListFacts.addNode_holds l h [] 5%nat _ Hh H5) as (h1 & Hadd & Hh1 & Hi1);
    [set_solver|done|done|].
  specialize (Hi1 6%nat). unfold FreqListInv.infov in Hi1. rewrite H6 in Hi1.
  match type of Hi1 with
  | _ <$> ?x = _ => destruct x as [n6|] eqn:H61; [|discriminate Hi1]
  end.
  destruct (FreqList_addNode_appends l h1 [5%nat] 6%nat n6 Hh1 H61) as (h' & Hadd');
    [set_solver|done|done|].
  exists l, h, h1, h'. split; [done|]. split; [done|]. exact Hadd'.
Defined.

Lemma FreqList_removeNode_unlinks_witness :
  ∃ l h h1 h2 h' n,
    FreqList.new 1 {[ 5%nat := FreqList.mkNode 1 7 "a"%string None None;
                      6%nat := FreqList.mkNode 1 8 "b"%string None None ]}
    = Some (l, h)
    ∧ FreqList.addNode l (Some 5%nat) h = Some h1
    ∧ FreqList.addNode l (Some 6%nat) h1 = Some h2
    ∧ FreqList.removeNode l (Some 5%nat) h2 = Some h'
    ∧ FreqListInv.holds l h' ([] ++ [6%nat])
    ∧ h' !! 5%nat = Some n ∧ FreqList.prev n = None ∧ FreqList.next n = None
    ∧ (∀ a, FreqListInv.infov h' a = FreqListInv.infov h2 a).
Proof.
  destruct (FreqListFacts.new_holds (Key:=Z) (Value:=string) 1
              {[ 5%nat := FreqList.mkNode 1 7 "a"%string None None;
                 6%nat := FreqList.mkNode 1 8 "b"%string None None ]})
    as (l & h & Hnew & Hh & _ & Hold).
  destruct (Hold 5%nat) as (H5 & Hhd5 & Htl5); [by eexists|].
  destruct (Hold 6%nat) as (H6 & Hhd6 & Htl6); [by eexists|].
  destruct (FreqListFacts.addNode_holds l h [] 5%nat _ Hh H5) as (h1 & Hadd & Hh1 & Hi1);
    [set_solver|done|done|].
  specialize (Hi1 6%nat). unfold FreqListInv.infov in Hi1. rewrite H6 in Hi1.
  match type of Hi1 with
  | _ <$> ?x = _ => destruct x as [n6|] eqn:H61; [|discriminate Hi1]
  end.
  destruct (FreqListFacts.addNode_holds l h1 [5%nat] 6%nat n6 Hh1 H61)
    as (h2 & Hadd2 & Hh2 & _); [set_solver|done|done|].
  destruct (FreqList_removeNode_unlinks l h2 [] 5%nat [6%nat] Hh2) as (h' & n & Hrm).
  exists l, h, h1, h2, h', n. split; [done|]. split; [done|]. split; [done|]. exact Hrm.
Defined.

Lemma LFUHash_new_shards_witness :
  ∃ (c : LFUHash.LFUHashCache Z string) q,
    LFUHash.new 8 5 2 10 = Some c
    ∧ 5 ≤ 2 * q < 5 + 2
    ∧ LFUHash.lfuSliceCaches_ c = replicate (Z.to_nat 2) (LFUAvg.new q 10)
    ∧ ∀ k v, ∃ i,
        LFUHash.getSliceIndex (λ k, k) k c = Some i ∧ 0 ≤ i < 2
        ∧ LFUHash.put (λ k, k) k v c
          = (s ← LFUAvg.put k v (LFUAvg.new q 10);
             Some (LFUHash.mkCache 5 2
                     (<[Z.to_nat i := s]> (LFUHash.lfuSliceCaches_ c)))).
Proof.
  apply (LFUHash_new_shards (Key:=Z) (Value:=string) (λ k, k) 8 5 2 10); lia.
Defined.

Lemma LRUHash_new_shards_witness :
  ∃ (c : LRUHash.LRUHashCache Z string) q,
    LRUHash.new 8 5 2 = Some c
    ∧ 5 ≤ 2 * q < 5 + 2
    ∧ Z.of_nat (length (LRUHash.lruSliceCaches_ c)) = 2
    ∧ Forall (λ s, LRU.new q = Some s) (LRUHash.lruSliceCaches_ c)
    ∧ ∀ k, ∃ i, LRUHash.sliceIndex (λ k, k) k c = Some i
                ∧ is_Some (LRUHash.lruSliceCaches_ c !! Z.to_nat i).
Proof.
  apply (LRUHash_new_shards (Key:=Z) (Value:=string) (λ k, k) 8 5 2); lia.
Defined.

Lemma LRUHash_put_get_witness :
  ∃ c0 c c' c'' : LRUHash.LRUHashCache Z string,
    LRUHash.new 8 5 2 = Some c0
    ∧ HashInv.LRUHash_run (λ k, k) [Put 1 "a"%string; Get 2; Put 3 "c"%string] c0
      = Some c
    ∧ LRUHash.put (λ k, k) 7 "x"%string c = Some c'
    ∧ LRUHash.get (λ k, k) 7 "z"%string c' = Some (true, "x"%string, c'').
Proof.
  apply (LRUHash_put_get (Key:=Z) (Value:=string) (λ k, k) 8 5 2
           [Put 1 "a"%string; Get 2; Put 3 "c"%string] 7 "x"%string "z"%string); lia.
Defined.

Lemma ARC_ghost_hit_adapts_witness :
  ∃ c0 c : ARC.ARCCache Z string,
    ARC.new 1 2 = Some c0
    ∧ run [Put 1 "a"%string; Put 2 "b"%string] c0 = Some c
    ∧ ∃ b c', ARC.checkGhost 1 c = Some (b, c')
        ∧ b = bool_decide
                (is_Some (ARCLRU.ghostCache_ (ARC.lruCache_ c) !! 1)
                 ∨ is_Some (ARCLFU.ghostCache_ (ARC.lfuCache_ c) !! 1))
        ∧ (ARCTopInv.capL c', ARCTopInv.capF c')
          = if bool_decide (is_Some (ARCLRU.ghostCache_ (ARC.lruCache_ c) !! 1)) then
              if bool_decide (0 < ARCTopInv.capF c)
              then (ARCTopInv.capL c + 1, ARCTopInv.capF c - 1)
              else (ARCTopInv.capL c, ARCTopInv.capF c)
            else if bool_decide (is_Some (ARCLFU.ghostCache_ (ARC.lfuCache_ c) !! 1)) then
              if bool_decide (0 < ARCTopInv.capL c)
              then (ARCTopInv.capL c - 1, ARCTopInv.capF c + 1)
              else (ARCTopInv.capL c, ARCTopInv.capF c)
            else (ARCTopInv.capL c, ARCTopInv.capF c).
Proof.
  destruct (ARCFacts.ARC_new_wf (Key:=Z) (Value:=string) 1 2)
    as (c0 & Hnew & Hwf & _); [lia..|].
  destruct (ARCFacts.run_wf [Put 1 "a"%string; Put 2 "b"%string] c0 Hwf)
    as (c & Hrun & _).
  exists c0, c. split; [done|]. split; [done|].
  apply (ARC_ghost_hit_adapts (Key:=Z) (Value:=string) 1 2
           [Put 1 "a"%string; Put 2 "b"%string] c0 c 1); [lia|lia|done|done].
Defined.
End PropertyInputs.
